(** * The go-spring IoC container ([spring-core/gs/gs.go])

    A shallow embedding of the container's bean lifecycle engine:
    registration, conditional resolution, type/name indexing, interface
    auto-export, wiring orchestration and shutdown, together with the
    properties its specification states about them. *)

From Stdlib Require Import ZArith Lia.
From stdpp Require Import base strings list gmap functions.

Set Warnings "-register-all".


(** ** The part of Go's [reflect] package the container relies on *)

Module Reflect.

(** [reflect.Kind], restricted to the kinds [gs.go] tests for; every
    other kind is [Other]. *)
Inductive Kind := Interface | Ptr | Struct | String | Other.

Global Instance Kind_eq_dec : EqDecision Kind.
Proof. solve_decision. Defined.

(** [reflect.StructTag]: the key/value pairs of a field's tag. *)
Definition StructTag := list (string * string).

(** [StructTag.Lookup]: the value under [key], if the tag has the key. *)
Fixpoint Lookup (tag : StructTag) (key : string) : option string :=
  match tag with
  | [] => None
  | (k, v) :: rest => if decide (k = key) then Some v else Lookup rest key
  end.

(** [reflect.StructField], over the representation [T] of types. *)
Record StructField (T : Type) := mkField {
  Name : string;
  Type_ : T;
  Tag : StructTag;
  Anonymous : bool
}.
Arguments mkField {T}.
Arguments Name {T}.
Arguments Type_ {T}.
Arguments Tag {T}.
Arguments Anonymous {T}.

(** [reflect.Type]: a type descriptor.  Descriptors are finite trees, a
    struct carrying the descriptors of its fields. *)
Inductive rtype :=
| Basic (k : Kind) (name : string)
| InterfaceOf (name : string)
| PtrTo (elem : rtype)
| StructOf (name : string) (fields : list (StructField rtype)).

(** [Type.Kind].  A [Basic] descriptor is of kind [String] or [Other]. *)
Definition Kind_ (t : rtype) : Kind :=
  match t with
  | Basic String _ => String
  | Basic _ _ => Other
  | InterfaceOf _ => Interface
  | PtrTo _ => Ptr
  | StructOf _ _ => Struct
  end.

(** [Type.String]. *)
Fixpoint String_ (t : rtype) : string :=
  match t with
  | Basic _ n => n
  | InterfaceOf n => n
  | PtrTo e => "*" +:+ String_ e
  | StructOf n _ => n
  end.

(** The built-in type [string]. *)
Definition string_type : rtype := Basic String "string".

(** Induction over descriptors that reaches the fields of a struct. *)
Lemma rtype_ind' (P : rtype → Prop) :
  (∀ k n, P (Basic k n)) →
  (∀ n, P (InterfaceOf n)) →
  (∀ e, P e → P (PtrTo e)) →
  (∀ n fs, Forall (λ f, P (Type_ f)) fs → P (StructOf n fs)) →
  ∀ t, P t.
Proof.
  intros HB HI HP HS.
  fix IH 1. intros [k n|n|e|n fs].
  - apply HB.
  - apply HI.
  - apply HP, IH.
  - apply HS. induction fs as [|f fs IHfs]; constructor.
    + apply IH.
    + exact IHfs.
Qed.

(** Identity of descriptors is decided structurally. *)
Fixpoint rtype_eqb (x y : rtype) {struct x} : bool :=
  match x, y with
  | Basic k n, Basic k' n' => bool_decide (k = k') && bool_decide (n = n')
  | InterfaceOf n, InterfaceOf n' => bool_decide (n = n')
  | PtrTo e, PtrTo e' => rtype_eqb e e'
  | StructOf n fs, StructOf n' fs' =>
      bool_decide (n = n') &&
      (fix fields_eqb (l l' : list (StructField rtype)) {struct l} : bool :=
         match l, l' with
         | [], [] => true
         | f :: r, f' :: r' =>
             bool_decide (Name f = Name f') && rtype_eqb (Type_ f) (Type_ f')
             && bool_decide (Tag f = Tag f')
             && bool_decide (Anonymous f = Anonymous f')
             && fields_eqb r r'
         | _, _ => false
         end) fs fs'
  | _, _ => false
  end.

Lemma rtype_eqb_eq x y : rtype_eqb x y = true ↔ x = y.
Proof.
  revert y. induction x as [k n|n|e IHe|n fs IHfs] using rtype_ind';
    intros [k' n'|n'|e'|n' fs']; simpl; try (split; [discriminate|congruence]).
  - rewrite andb_true_iff, !bool_decide_eq_true. split; [intros []|intros [=]]; by subst.
  - rewrite bool_decide_eq_true. split; congruence.
  - rewrite IHe. split; congruence.
  - rewrite andb_true_iff, bool_decide_eq_true.
    enough (∀ l', (fix fields_eqb (l l' : list (StructField rtype)) {struct l} : bool :=
         match l, l' with
         | [], [] => true
         | f :: r, f' :: r' =>
             bool_decide (Name f = Name f') && rtype_eqb (Type_ f) (Type_ f')
             && bool_decide (Tag f = Tag f')
             && bool_decide (Anonymous f = Anonymous f')
             && fields_eqb r r'
         | _, _ => false
         end) fs l' = true ↔ fs = l') as ->.
    { split; [intros [-> ->]|intros [=]]; by subst. }
    induction IHfs as [|[fn ft fg fa] fs Hf _ IH]; intros [|[fn' ft' fg' fa'] l'];
      simpl; try (split; [discriminate|congruence]); [done|].
    simpl in Hf. rewrite !andb_true_iff, !bool_decide_eq_true, Hf, IH.
    split; [intros [[[[-> ->] ->] ->] ->]|intros [=]]; by subst.
Qed.

Global Instance rtype_eq_dec : EqDecision rtype.
Proof.
  intros x y. destruct (rtype_eqb x y) eqn:E.
  - left. by apply rtype_eqb_eq.
  - right. intros H. apply rtype_eqb_eq in H. congruence.
Defined.

End Reflect.

Import Reflect.

(** ** The data model of package [gs] *)

(** Modelled from the spec: [util.Indirect] is declared outside [gs.go];
    step 4 of the resolver works on the structural aggregate behind a
    bean's type, so it removes one level of pointer. *)
Definition Indirect (t : rtype) : rtype :=
  match t with
  | PtrTo e => e
  | _ => t
  end.

(** [refreshState] and its three constants. *)
Inductive refreshState := Unrefreshed | Refreshing | Refreshed.

Global Instance refreshState_eq_dec : EqDecision refreshState.
Proof. solve_decision. Defined.

(** Modelled from the spec: the per-bean resolution status, whose
    constants are declared outside [gs.go].  The spec names four values,
    Default, Resolving, Resolved and Deleted.  Their numeric values, which
    the guard [b.status >= Resolving] compares, are a parameter ([code])
    of the development. *)
Inductive beanStatus := Default | Resolving | Resolved | Deleted.

Global Instance beanStatus_eq_dec : EqDecision beanStatus.
Proof. solve_decision. Defined.

(** Go's [error] values and panic values are their messages. *)
Abbreviation error := string (only parsing).

(** A [*BeanDefinition] is an address in the store of descriptors. *)
Abbreviation addr := nat (only parsing).

(** [bean.Selector] is [interface{}]: what [find] looks at is whether the
    value is a Go [string] (and then which), or else its dynamic type
    (that of any value but a [string]).  The nil interface value, which
    has no dynamic type and on which [find] panics in [reflect], is left
    out: a selector is a value. *)
Inductive Selector :=
| StringValue (s : string)
| ValueOf (t : rtype).

(** [reflect.TypeOf(selector)]. *)
Definition TypeOf (selector : Selector) : rtype :=
  match selector with
  | StringValue _ => string_type
  | ValueOf t => t
  end.

(** Modelled from the spec: the condition evaluator, declared outside
    [gs.go], is a black box [matches(facade) -> bool] over a view of the
    container; it may consult the property store, and a lookup it performs
    triggers resolution of the descriptors it refers to.  A condition is
    therefore a finite dialogue with the facade: it answers, or reads a
    property, or issues a [find] query, and goes on with what it got. *)
Inductive Cond :=
| Answer (r : bool)
| AskProp (key : string) (k : option string → Cond)
| AskFind (selector : Selector) (k : list addr * option error → Cond).

(** [BeanDefinition]: the fields and getters of a descriptor that [gs.go]
    uses.  [ID], [Type'] (the source's [Type]) and [Description] are
    getters whose results refresh never changes; [status] and [exports]
    are mutated in place. *)
Record BeanDefinition := mkBean {
  ID : string;
  name : string;
  Type' : rtype;
  Description : string;
  cond : option Cond;
  exports : list rtype;
  status : beanStatus
}.

Definition with_status (s : beanStatus) (d : BeanDefinition) : BeanDefinition :=
  mkBean (ID d) (name d) (Type' d) (Description d) (cond d) (exports d) s.

Definition with_exports (es : list rtype) (d : BeanDefinition) : BeanDefinition :=
  mkBean (ID d) (name d) (Type' d) (Description d) (cond d) es (status d).

(** [Configer]: a configuration function ([fn], an opaque callable) with
    its optional condition. *)
Record Configer := mkConfiger {
  fn : nat;
  g_cond : option Cond
}.

(** A [*destroyer] is opaque to [gs.go]. *)
Abbreviation destroyer := nat (only parsing).

(** What the container does to the outside world, in order: its log lines
    and its calls to collaborators.  Kept for specification only. *)
Inductive Event :=
| LogInfo (msg : string)
| LogError (err : error)
| Cancel
| Wait
| WireBean (b : addr)
| Call (g : Configer)
| Run (d : destroyer).

(** [Container].  Besides the fields of the Go struct, the model carries
    the [store] the [*BeanDefinition] pointers refer to (descriptors are
    shared between [beans] and the three indices and mutated in place) and
    the [events] emitted so far.  [ctx] tells whether the shared context
    is done; [wg] is the wait-group counter. *)
Record Container := mkContainer {
  p : gmap string string;
  state : refreshState;
  wg : nat;
  ctx : bool;
  beans : list addr;
  beansById : gmap string addr;
  beansByName : gmap string (list addr);
  beansByType : rtype → list addr;
  configers : list Configer;
  configerList : list Configer;
  destroyerList : list destroyer;
  store : addr → BeanDefinition;
  events : list Event
}.

(** Field updates. *)
Definition set_p (v : gmap string string) (c : Container) : Container :=
  mkContainer v (state c) (wg c) (ctx c) (beans c) (beansById c)
    (beansByName c) (beansByType c) (configers c) (configerList c)
    (destroyerList c) (store c) (events c).

Definition set_state (v : refreshState) (c : Container) : Container :=
  mkContainer (p c) v (wg c) (ctx c) (beans c) (beansById c)
    (beansByName c) (beansByType c) (configers c) (configerList c)
    (destroyerList c) (store c) (events c).

Definition set_wg (v : nat) (c : Container) : Container :=
  mkContainer (p c) (state c) v (ctx c) (beans c) (beansById c)
    (beansByName c) (beansByType c) (configers c) (configerList c)
    (destroyerList c) (store c) (events c).

Definition set_ctx (v : bool) (c : Container) : Container :=
  mkContainer (p c) (state c) (wg c) v (beans c) (beansById c)
    (beansByName c) (beansByType c) (configers c) (configerList c)
    (destroyerList c) (store c) (events c).

Definition set_beans (v : list addr) (c : Container) : Container :=
  mkContainer (p c) (state c) (wg c) (ctx c) v (beansById c)
    (beansByName c) (beansByType c) (configers c) (configerList c)
    (destroyerList c) (store c) (events c).

Definition set_beansById (v : gmap string addr) (c : Container) : Container :=
  mkContainer (p c) (state c) (wg c) (ctx c) (beans c) v
    (beansByName c) (beansByType c) (configers c) (configerList c)
    (destroyerList c) (store c) (events c).

Definition set_beansByName (v : gmap string (list addr)) (c : Container) : Container :=
  mkContainer (p c) (state c) (wg c) (ctx c) (beans c) (beansById c)
    v (beansByType c) (configers c) (configerList c)
    (destroyerList c) (store c) (events c).

Definition set_beansByType (v : rtype → list addr) (c : Container) : Container :=
  mkContainer (p c) (state c) (wg c) (ctx c) (beans c) (beansById c)
    (beansByName c) v (configers c) (configerList c)
    (destroyerList c) (store c) (events c).

Definition set_configers (v : list Configer) (c : Container) : Container :=
  mkContainer (p c) (state c) (wg c) (ctx c) (beans c) (beansById c)
    (beansByName c) (beansByType c) v (configerList c)
    (destroyerList c) (store c) (events c).

Definition set_configerList (v : list Configer) (c : Container) : Container :=
  mkContainer (p c) (state c) (wg c) (ctx c) (beans c) (beansById c)
    (beansByName c) (beansByType c) (configers c) v
    (destroyerList c) (store c) (events c).

Definition set_destroyerList (v : list destroyer) (c : Container) : Container :=
  mkContainer (p c) (state c) (wg c) (ctx c) (beans c) (beansById c)
    (beansByName c) (beansByType c) (configers c) (configerList c)
    v (store c) (events c).

Definition set_store (v : addr → BeanDefinition) (c : Container) : Container :=
  mkContainer (p c) (state c) (wg c) (ctx c) (beans c) (beansById c)
    (beansByName c) (beansByType c) (configers c) (configerList c)
    (destroyerList c) v (events c).

Definition set_events (v : list Event) (c : Container) : Container :=
  mkContainer (p c) (state c) (wg c) (ctx c) (beans c) (beansById c)
    (beansByName c) (beansByType c) (configers c) (configerList c)
    (destroyerList c) (store c) v.

(** ** Computations over the container

    A method of the container either returns (with the container as it
    left it), or panics, or is cut off because the evaluation ran out of
    fuel, or blocks on the wait group (with the container as it is where
    it blocks).  A Go [error] result is an ordinary returned value. *)

Inductive outcome (A : Type) :=
| Return (a : A) (c : Container)
| Panicked (v : error)
| Blocked (c : Container)
| OutOfFuel.
Arguments Return {A}.
Arguments Panicked {A}.
Arguments Blocked {A}.
Arguments OutOfFuel {A}.

Definition M (A : Type) : Type := Container → outcome A.

Definition ret {A} (a : A) : M A := λ c, Return a c.

Definition bind {A B} (m : M A) (k : A → M B) : M B :=
  λ c, match m c with
       | Return a c' => k a c'
       | Panicked v => Panicked v
       | Blocked c' => Blocked c'
       | OutOfFuel => OutOfFuel
       end.

Definition panic {A} (v : error) : M A := λ _, Panicked v.

Definition get : M Container := λ c, Return c c.

Definition modify (f : Container → Container) : M unit := λ c, Return tt (f c).

Notation "'let*' x ':=' m 'in' k" := (bind m (λ x, k))
  (at level 10, x pattern, m at level 100, k at level 200).
Notation "m ';;' k" := (bind m (λ _, k))
  (at level 100, k at level 200, right associativity).

(** Reading the descriptor behind a pointer. *)
Definition load (b : addr) : M BeanDefinition := λ c, Return (store c b) c.

(** [b.status = s]. *)
Definition setStatus (b : addr) (s : beanStatus) : M unit :=
  modify (λ c, set_store (<[b := with_status s (store c b)]> (store c)) c).

(** Modelled from the spec: [BeanDefinition.Export], declared outside
    [gs.go], adds an interface type to the descriptor's set of exports. *)
Definition Export (b : addr) (t : rtype) : M unit :=
  modify (λ c,
    let d := store c b in
    if bool_decide (t ∈ exports d) then c
    else set_store (<[b := with_exports (exports d ++ [t]) d]> (store c)) c).

(** [delete(c.beansById, id)]. *)
Definition deleteById (id : string) : M unit :=
  modify (λ c, set_beansById (delete id (beansById c)) c).

(** [c.beansByType[t] = append(c.beansByType[t], b)]. *)
Definition appendByType (t : rtype) (b : addr) : M unit :=
  modify (λ c, set_beansByType (<[t := beansByType c t ++ [b]]> (beansByType c)) c).

(** [c.beansByName[n] = append(c.beansByName[n], b)]; a missing key reads
    as the nil slice. *)
Definition appendByName (n : string) (b : addr) : M unit :=
  modify (λ c, set_beansByName (<[n := (beansByName c !!! n) ++ [b]]> (beansByName c)) c).

(** Appending to the record of events. *)
Definition emit (e : Event) : M unit :=
  modify (λ c, set_events (events c ++ [e]) c).

(** The tags [autoExport] looks up on a field. *)
Definition has_tag (f : StructField rtype) (key : string) : bool :=
  bool_decide (is_Some (Lookup (Tag f) key)).

(** [autoExport]: collects the interfaces a bean exports through the
    fields of its struct type [t], descending into embedded structs. *)
Fixpoint autoExport (t : rtype) (b : addr) {struct t} : M (option error) :=
  match t with
  | StructOf _ fields =>
      (fix fields_loop (fs : list (StructField rtype)) : M (option error) :=
         match fs with
         | [] => ret None
         | f :: fs =>
             let export := has_tag f "export" in
             let inject := has_tag f "inject" in
             let autowire := has_tag f "autowire" in
             if negb export then
               if negb (Anonymous f) || inject || autowire then fields_loop fs
               else
                 let typ := Indirect (Type_ f) in
                 if bool_decide (Kind_ typ = Struct) then
                   let* err := autoExport typ b in
                   match err with
                   | Some e => ret (Some e)
                   | None => fields_loop fs
                   end
                 else fields_loop fs
             else if bool_decide (Kind_ (Type_ f) ≠ Interface) then
               ret (Some "export can only use on interface")
             else if export && (inject || autowire) then
               ret (Some "inject or autowire can't use with export")
             else
               Export b (Type_ f) ;; fields_loop fs
         end) fields
  | _ => panic ("reflect: NumField of non-struct type " +:+ String_ t)
  end.


(** ** A small application

    Concrete collaborators, types and descriptors, on which the
    statements below are exercised. *)

Module Example.

(** A numbering of the status constants in the order of the lifecycle. *)
Definition code (s : beanStatus) : Z :=
  match s with
  | Default => 0
  | Resolving => 1
  | Resolved => 2
  | Deleted => 3
  end.

(** Two interfaces; a struct [C] that exports [Foo] through a tagged
    field; [B], which embeds [C]; [A], which embeds a pointer to [B]; and
    [Injected], which embeds a pointer to [B] as an injected dependency. *)
Definition Foo : rtype := InterfaceOf "Foo".
Definition Bar : rtype := InterfaceOf "Bar".
Definition C_ : rtype := StructOf "C" [mkField "_" Foo [("export", "")] false].
Definition B_ : rtype := StructOf "B" [mkField "C" C_ [] true].
Definition A_ : rtype := StructOf "A" [mkField "B" (PtrTo B_) [] true].
Definition Injected : rtype :=
  StructOf "Injected" [mkField "B" (PtrTo B_) [("inject", "")] true].

(** Every type of the application implements [Foo] and none [Bar]. *)
Definition implements (t u : rtype) : bool := bool_decide (u = Foo).

Definition AssignableTo (t u : rtype) : bool :=
  if bool_decide (Kind_ u = Interface) then implements t u else bool_decide (t = u).

Definition parseSingletonTag (s : string) : string * string := ("", s).

Definition Match (d : BeanDefinition) (typeName beanName : string) : bool :=
  (bool_decide (typeName = "") || bool_decide (String_ (Type' d) = typeName))
  && (bool_decide (beanName = "") || bool_decide (name d = beanName)).

Definition rangeById (m : gmap string addr) : list string := (map_to_list m).*1.

Definition rangeExports (l : list rtype) : list rtype := l.

(** An assembly that carries nothing; wiring and configuration succeed;
    the destroyer [1] fails and every other one succeeds. *)
Definition toAssembly (c : Container) : unit := tt.
Definition stack (a : unit) : list string := [].
Definition path (l : list string) : string := String.concat "=>" l.
Definition wireBean (b : addr) (a : unit) : unit * option error := (a, None).
Definition callConfiger (g : Configer) (a : unit) : unit * option error := (a, None).
Definition run (d : destroyer) (a : unit) : unit * option error :=
  (a, if bool_decide (d = 1%nat) then Some "destroy failed" else None).
Definition sortTriple (gs : list Configer) : list Configer := gs.
Definition sortDestroyers (a : unit) : list destroyer := [].

Definition loadProperties (filename : string) (props : gmap string string)
    : gmap string string * option error := (props, None).
Definition NewBean (v : unit) (args : list unit) : Container → outcome addr :=
  λ c, Return 0%nat c.
Definition IsFuncType (v : unit) : bool := true.
Definition ReturnNothing (v : unit) : bool := true.
Definition ReturnOnlyError (v : unit) : bool := false.
Definition Bind (v : unit) (args : list unit) : nat := 0.

(** A condition that holds when no bean is named "a". *)
Definition on_missing_a : Cond :=
  AskFind (StringValue "a") (λ r, Answer (bool_decide (r.1 = []))).

(** A condition that holds when some bean is named "a". *)
Definition on_bean_a : Cond :=
  AskFind (StringValue "a") (λ r, Answer (negb (bool_decide (r.1 = [])))).

(** The descriptors: [0], named "a", is plain; [1] has a condition that
    does not hold, and declares the export [Bar]; [2] declares the exports
    [Bar] and [Foo]; [3] has the identity of [0]; [4] is already Resolved;
    [5] is conditioned on the absence of a bean named "a" and [6] on the
    presence of one; every other address holds a descriptor of a basic
    type. *)
Definition heap (b : addr) : BeanDefinition :=
  match b with
  | 0%nat => mkBean "A:a" "a" (PtrTo A_) "bean a" None [] Default
  | 1%nat => mkBean "A:off" "off" (PtrTo A_) "bean off" (Some (Answer false)) [Bar] Default
  | 2%nat => mkBean "A:bad" "bad" (PtrTo A_) "bean bad" None [Bar; Foo] Default
  | 3%nat => mkBean "A:a" "again" (PtrTo A_) "bean again" None [] Default
  | 4%nat => mkBean "A:done" "done" (PtrTo A_) "bean done" None [] Resolved
  | 5%nat => mkBean "A:cond" "cond" (PtrTo A_) "bean cond" (Some on_missing_a) [] Default
  | 6%nat => mkBean "A:with" "with" (PtrTo A_) "bean with" (Some on_bean_a) [] Default
  | _ => mkBean "int" "" (Basic Other "int") "an int" None [] Default
  end.

(** A container in the given phase, with the given registrations and
    identity index, empty otherwise. *)
Definition container (st : refreshState) (bs : list addr) (ids : gmap string addr)
    : Container :=
  mkContainer ∅ st 0 false bs ids ∅ (λ _, []) [] [] [] heap [].

(** The same with a list of destroyers. *)
Definition closing (st : refreshState) (ds : list destroyer) : Container :=
  mkContainer ∅ st 0 false [] ∅ ∅ (λ _, []) [] [] ds heap [].

(** The containers the statements are exercised on. *)
Definition c_plain : Container := container Refreshing [0%nat] {["A:a" := 0%nat]}.
Definition c_off : Container := container Refreshing [1%nat] {["A:off" := 1%nat]}.
Definition c_bad : Container := container Refreshing [2%nat] {["A:bad" := 2%nat]}.
Definition c_done : Container := container Refreshing [4%nat] {["A:done" := 4%nat]}.
Definition c_twice : Container := container Unrefreshed [0%nat; 3%nat] ∅.
Definition c_new : Container := container Unrefreshed [0%nat; 5%nat; 6%nat] ∅.
Definition c_cond : Container :=
  container Refreshing [0%nat; 5%nat] {["A:a" := 0%nat; "A:cond" := 5%nat]}.

(** A container in which nothing is registered; one with the
    descriptor [0] at Resolving; one with two configuration functions, the
    second under a condition that does not hold. *)
Definition c_empty : Container := container Unrefreshed [] ∅.
Definition c_entered : Container :=
  set_store (<[0%nat := with_status Resolving (heap 0)]> heap) c_plain.
Definition c_configs : Container :=
  set_configers [mkConfiger 0 None; mkConfiger 1 (Some (Answer false))] c_plain.

(** Fields tagged for export: of an interface type; of a type that is
    not an interface; of an interface type and tagged for injection too.
    And a struct that exports [Foo] through two fields. *)
Definition exported_Foo : StructField rtype := mkField "_" Foo [("export", "")] false.
Definition exported_int : StructField rtype :=
  mkField "n" (Basic Other "int") [("export", "")] false.
Definition exported_injected : StructField rtype :=
  mkField "f" Foo [("export", ""); ("inject", "")] false.
Definition Twice : rtype := StructOf "Twice" [exported_Foo; mkField "C" C_ [] true].

(** The container a computation returned ([c_plain] if it did not
    return), for inspection. *)
Definition after {A} (o : outcome A) : Container :=
  match o with
  | Return _ c => c
  | _ => c_plain
  end.

(** What a computation returned, if it did. *)
Definition returned {A} (o : outcome A) : option A :=
  match o with
  | Return a _ => Some a
  | _ => None
  end.

End Example.

(** ** The container's methods *)

Section gs.

(** The numeric value of each status constant. *)
Variable code : beanStatus → Z.

(** [reflect]'s [Type.Implements] (on an interface type) and
    [Type.AssignableTo], which depend on method sets. *)
Variable implements : rtype → rtype → bool.
Variable AssignableTo : rtype → rtype → bool.

(** [parseSingletonTag] and [BeanDefinition.Match], declared outside
    [gs.go]: the type name and bean name of a string selector, and
    whether a descriptor answers to them. *)
Variable parseSingletonTag : string → string * string.
Variable Match : BeanDefinition → string → string → bool.

(** The order in which a [range] over [c.beansById] visits the keys
    present when the loop starts. *)
Variable rangeById : gmap string addr → list string.

(** The order in which a [range] over a descriptor's export set visits
    its elements. *)
Variable rangeExports : list rtype → list rtype.

(** The collaborators of the refresh and shutdown sequence, declared
    outside [gs.go]: the assembly built over a container, its wiring stack
    and the rendering of that stack as a path, the injection mechanism,
    the call of a configuration function, the run of a destroyer, and the
    two ordering services.  They act on the assembly. *)
Variable beanAssembly : Type.
Variable toAssembly : Container → beanAssembly.
Variable stack : beanAssembly → list string.
Variable path : list string → string.
Variable wireBean : addr → beanAssembly → beanAssembly * option error.
Variable callConfiger : Configer → beanAssembly → beanAssembly * option error.
Variable run : destroyer → beanAssembly → beanAssembly * option error.
Variable sortTriple : list Configer → list Configer.
Variable sortDestroyers : beanAssembly → list destroyer.

(** Collaborators of the registration surface: Go values, the property
    loader, the construction of a descriptor from an object or a
    constructor ([NewBean]), the checks [Config] makes on its function
    and the binding of its arguments. *)
Variable Value : Type.
Variable loadProperties : string → gmap string string → gmap string string * option error.
Variable NewBean : Value → list Value → M addr.
Variable IsFuncType : Value → bool.
Variable ReturnNothing : Value → bool.
Variable ReturnOnlyError : Value → bool.
Variable Bind : Value → list Value → nat.
Variable pandora : Value.
Variable Pandora : rtype.

(** [Type.Implements] panics on a type that is not an interface. *)
Definition Implements (t u : rtype) : M bool :=
  if bool_decide (Kind_ u = Interface) then ret (implements t u)
  else panic "reflect: non-interface type passed to Type.Implements".

(** [callAfterRefreshing]. *)
Definition callAfterRefreshing : M unit :=
  let* c := get in
  if bool_decide (state c = Unrefreshed) then panic "should call after Refreshing"
  else ret tt.

(** [callBeforeRefreshing]. *)
Definition callBeforeRefreshing : M unit :=
  let* c := get in
  if bool_decide (state c ≠ Unrefreshed) then panic "should call before Refreshing"
  else ret tt.

(** The closure [finder] of [find]: the loop over [c.beansById].  A key
    deleted before the loop reaches it is not visited. *)
Fixpoint finder_loop (resolve : addr → M (option error)) (fn : BeanDefinition → bool)
    (keys : list string) (result : list addr) : M (list addr * option error) :=
  match keys with
  | [] => ret (result, None)
  | k :: keys =>
      let* c := get in
      match beansById c !! k with
      | None => finder_loop resolve fn keys result
      | Some b =>
          if bool_decide (status (store c b) ≠ Resolving) && fn (store c b) then
            let* err := resolve b in
            match err with
            | Some e => ret ([], Some e)
            | None =>
                let* d := load b in
                if bool_decide (status d ≠ Deleted)
                then finder_loop resolve fn keys (result ++ [b])
                else finder_loop resolve fn keys result
            end
          else finder_loop resolve fn keys result
      end
  end.

Definition finder (resolve : addr → M (option error)) (fn : BeanDefinition → bool)
    : M (list addr * option error) :=
  let* c := get in
  finder_loop resolve fn (rangeById (beansById c)) [].

(** The type a non-string selector asks for: a pointer to an interface
    stands for the interface. *)
Definition selected_type (t : rtype) : rtype :=
  match t with
  | PtrTo e => if bool_decide (Kind_ e = Interface) then e else t
  | _ => t
  end.

(** [find], over the resolution procedure it calls back. *)
Definition find_with (resolve : addr → M (option error)) (selector : Selector)
    : M (list addr * option error) :=
  callAfterRefreshing ;;
  let t := TypeOf selector in
  if bool_decide (Kind_ t = String) then
    match selector with
    | StringValue s =>
        let tag := parseSingletonTag s in
        finder resolve (λ b, Match b tag.1 tag.2)
    | ValueOf u =>
        panic ("interface conversion: interface {} is " +:+ String_ u +:+ ", not string")
    end
  else
    let t := selected_type t in
    finder resolve (λ b,
      if negb (AssignableTo (Type' b) t) then false
      else if bool_decide (Kind_ t ≠ Interface) then true
      else bool_decide (t ∈ exports b)).

(** [cond.Matches(&pandora{c})], over the facade's [find]. *)
Fixpoint Matches (find : Selector → M (list addr * option error)) (k : Cond) : M bool :=
  match k with
  | Answer r => ret r
  | AskProp key k => let* c := get in Matches find (k (p c !! key))
  | AskFind selector k => let* r := find selector in Matches find (k r)
  end.

(** The loop of [resolveBean] over [b.exports]. *)
Fixpoint indexExports (b : addr) (ts : list rtype) : M (option error) :=
  match ts with
  | [] => ret None
  | t :: ts =>
      let* d := load b in
      let* ok := Implements (Type' d) t in
      if ok then appendByType t b ;; indexExports b ts
      else ret (Some (Description d +:+ " not implement " +:+ String_ t +:+ " interface"))
  end.

(** [resolveBean].  The fuel bounds the depth of the resolutions that
    conditions trigger through [find]; the two debug log lines are left
    out. *)
Fixpoint resolveBean (fuel : nat) (b : addr) : M (option error) :=
  match fuel with
  | O => λ _, OutOfFuel
  | S fuel =>
      let* d := load b in
      if bool_decide (code Resolving ≤ code (status d))%Z then ret None
      else
        setStatus b Resolving ;;
        let* ok := match cond d with
                   | None => ret true
                   | Some k => Matches (find_with (resolveBean fuel)) k
                   end in
        if negb ok then
          (let* d := load b in deleteById (ID d)) ;;
          setStatus b Deleted ;;
          ret None
        else
          (let* d := load b in appendByType (Type' d) b) ;;
          let* d := load b in
          let typ := Indirect (Type' d) in
          let* err := (if bool_decide (Kind_ typ = Struct) then autoExport typ b
                       else ret None) in
          match err with
          | Some e => ret (Some e)
          | None =>
              let* d := load b in
              let* err := indexExports b (rangeExports (exports d)) in
              match err with
              | Some e => ret (Some e)
              | None =>
                  (let* d := load b in appendByName (name d) b) ;;
                  setStatus b Resolved ;;
                  ret None
              end
          end
  end.

(** [find]. *)
Definition find (fuel : nat) : Selector → M (list addr * option error) :=
  find_with (resolveBean fuel).

(** [util.Panic(err).When(err != nil)]. *)
Definition PanicWhen (err : option error) : M unit :=
  match err with
  | Some e => panic e
  | None => ret tt
  end.

(** [Load]. *)
Definition Load (filename : string) : M (option error) :=
  callBeforeRefreshing ;;
  let* c := get in
  let r := loadProperties filename (p c) in
  modify (set_p r.1) ;;
  ret r.2.

(** [Property]. *)
Definition Property (key value : string) : M unit :=
  callBeforeRefreshing ;;
  modify (λ c, set_p (<[key := value]> (p c)) c).

(** [Register]. *)
Definition Register (b : addr) : M addr :=
  callBeforeRefreshing ;;
  modify (λ c, set_beans (beans c ++ [b]) c) ;;
  ret b.

(** [Object]. *)
Definition Object (i : Value) : M addr :=
  callBeforeRefreshing ;;
  let* b := NewBean i [] in
  Register b.

(** [Provide]. *)
Definition Provide (ctor : Value) (args : list Value) : M addr :=
  callBeforeRefreshing ;;
  let* b := NewBean ctor args in
  Register b.

(** [Config]. *)
Definition Config (f : Value) (args : list Value) : M Configer :=
  callBeforeRefreshing ;;
  if negb (IsFuncType f) then panic "xxx"
  else if negb (ReturnNothing f) && negb (ReturnOnlyError f) then
    panic "fn should be func() or func()error"
  else
    let configer := mkConfiger (Bind f args) None in
    modify (λ c, set_configers (configers c ++ [configer]) c) ;;
    ret configer.

(** [New]: the empty container, over the descriptors [heap] holds, with
    the Pandora facade registered on demand. *)
Definition New (heap : addr → BeanDefinition) (openPandora : bool) : M unit :=
  λ _,
    let c := mkContainer ∅ Unrefreshed 0 false [] ∅ ∅ (λ _, []) [] [] [] heap [] in
    if openPandora then (let* b := Object pandora in Export b Pandora) c
    else Return tt c.

(** [registerBeans]. *)
Fixpoint registerBeans_loop (bs : list addr) : M unit :=
  match bs with
  | [] => ret tt
  | b :: bs =>
      let* c := get in
      let id := ID (store c b) in
      match beansById c !! id with
      | Some d =>
          panic ("found duplicate beans [" +:+ Description (store c b) +:+ "] ["
                 +:+ Description (store c d) +:+ "]")
      | None =>
          modify (λ c, set_beansById (<[id := b]> (beansById c)) c) ;;
          registerBeans_loop bs
      end
  end.

Definition registerBeans : M unit :=
  let* c := get in registerBeans_loop (beans c).

(** [resolveConfigers]. *)
Fixpoint resolveConfigers_loop (fuel : nat) (gs : list Configer) : M unit :=
  match gs with
  | [] => ret tt
  | g :: gs =>
      let* ok := match g_cond g with
                 | None => ret true
                 | Some k => Matches (find fuel) k
                 end in
      (if ok then modify (λ c, set_configerList (configerList c ++ [g]) c) else ret tt) ;;
      resolveConfigers_loop fuel gs
  end.

Definition resolveConfigers (fuel : nat) : M unit :=
  (let* c := get in resolveConfigers_loop fuel (configers c)) ;;
  modify (λ c, set_configerList (sortTriple (configerList c)) c).

(** [resolveBeans]. *)
Fixpoint resolveBeans_loop (fuel : nat) (keys : list string) : M (option error) :=
  match keys with
  | [] => ret None
  | k :: keys =>
      let* c := get in
      match beansById c !! k with
      | None => resolveBeans_loop fuel keys
      | Some b =>
          let* err := resolveBean fuel b in
          match err with
          | Some e => ret (Some e)
          | None => resolveBeans_loop fuel keys
          end
      end
  end.

Definition resolveBeans (fuel : nat) : M (option error) :=
  let* c := get in resolveBeans_loop fuel (rangeById (beansById c)).

(** [runConfigers]. *)
Fixpoint runConfigers_loop (gs : list Configer) (assembly : beanAssembly)
    : M (beanAssembly * option error) :=
  match gs with
  | [] => ret (assembly, None)
  | g :: gs =>
      emit (Call g) ;;
      let r := callConfiger g assembly in
      match r.2 with
      | Some e => ret (r.1, Some e)
      | None => runConfigers_loop gs r.1
      end
  end.

Definition runConfigers (assembly : beanAssembly) : M (beanAssembly * option error) :=
  let* c := get in runConfigers_loop (configerList c) assembly.

(** [wireBeans]. *)
Fixpoint wireBeans_loop (keys : list string) (assembly : beanAssembly)
    : M (beanAssembly * option error) :=
  match keys with
  | [] => ret (assembly, None)
  | k :: keys =>
      let* c := get in
      match beansById c !! k with
      | None => wireBeans_loop keys assembly
      | Some b =>
          emit (WireBean b) ;;
          let r := wireBean b assembly in
          match r.2 with
          | Some e => ret (r.1, Some e)
          | None => wireBeans_loop keys r.1
          end
      end
  end.

Definition wireBeans (assembly : beanAssembly) : M (beanAssembly * option error) :=
  let* c := get in wireBeans_loop (rangeById (beansById c)) assembly.

(** [Refresh].  The deferred report of the wiring path is modelled on
    the returning path. *)
Definition Refresh (fuel : nat) : M unit :=
  let* c := get in
  if bool_decide (state c ≠ Unrefreshed) then panic "already refreshed"
  else
    modify (set_state Refreshing) ;;
    registerBeans ;;
    resolveConfigers fuel ;;
    let* err := resolveBeans fuel in
    PanicWhen err ;;
    let* c := get in
    let assembly := toAssembly c in
    let* r := runConfigers assembly in
    PanicWhen r.2 ;;
    let* r := wireBeans r.1 in
    PanicWhen r.2 ;;
    let assembly := r.1 in
    modify (set_destroyerList (sortDestroyers assembly)) ;;
    modify (set_state Refreshed) ;;
    emit (LogInfo "container refreshed successfully") ;;
    (if bool_decide (stack assembly ≠ [])
       then emit (LogInfo ("wiring path " +:+ path (stack assembly)))
       else ret tt).

(** [runDestroyers]. *)
Fixpoint runDestroyers_loop (ds : list destroyer) (assembly : beanAssembly) : M unit :=
  match ds with
  | [] => ret tt
  | d :: ds =>
      emit (Run d) ;;
      let r := run d assembly in
      (match r.2 with
       | Some err => emit (LogError err)
       | None => ret tt
       end) ;;
      runDestroyers_loop ds r.1
  end.

Definition runDestroyers (assembly : beanAssembly) : M unit :=
  let* c := get in runDestroyers_loop (destroyerList c) assembly.

(** [c.cancel()]. *)
Definition cancel : M unit :=
  emit Cancel ;; modify (set_ctx true).

(** [c.wg.Wait()]: returns once the counter is zero, and blocks as long
    as it is not, the container staying as it is. *)
Definition wgWait : M unit :=
  λ c, if bool_decide (wg c = 0%nat) then emit Wait c else Blocked c.

(** [Close]. *)
Definition Close : M unit :=
  callAfterRefreshing ;;
  cancel ;;
  wgWait ;;
  emit (LogInfo "goroutines exited") ;;
  let* c := get in
  let assembly := toAssembly c in
  runDestroyers assembly ;;
  emit (LogInfo "container closed").

(** [Go]: the part that runs in the caller, [c.wg.Add(1)]; the goroutine
    it starts runs [fn(c.ctx)] on its own. *)
Definition Go : M unit :=
  modify (λ c, set_wg (S (wg c)) c).


(** ** Notions used by the statements *)

(** The guard at the head of [resolveBean]: the status is at or past
    Resolving. *)
Definition settled (d : BeanDefinition) : bool :=
  bool_decide (code Resolving ≤ code (status d))%Z.

(** The container right after [b.status = Resolving]. *)
Definition enter (b : addr) (c : Container) : Container :=
  set_store (<[b := with_status Resolving (store c b)]> (store c)) c.

(** The evaluation of a descriptor's condition, [true] without one. *)
Definition evalCond (fuel : nat) (d : BeanDefinition) : M bool :=
  match cond d with
  | None => ret true
  | Some k => Matches (find fuel) k
  end.

(** What [resolveBean] does once the condition has answered [ok]. *)
Definition finish (b : addr) (ok : bool) : M (option error) :=
  if negb ok then
    (let* d := load b in deleteById (ID d)) ;;
    setStatus b Deleted ;;
    ret None
  else
    (let* d := load b in appendByType (Type' d) b) ;;
    let* d := load b in
    let typ := Indirect (Type' d) in
    let* err := (if bool_decide (Kind_ typ = Struct) then autoExport typ b
                 else ret None) in
    match err with
    | Some e => ret (Some e)
    | None =>
        let* d := load b in
        let* err := indexExports b (rangeExports (exports d)) in
        match err with
        | Some e => ret (Some e)
        | None =>
            (let* d := load b in appendByName (name d) b) ;;
            setStatus b Resolved ;;
            ret None
        end
    end.

(** The effect on the container of the resolutions made on behalf of
    lookups: each one takes a descriptor of the identity index that is
    below Resolving, enters it, lets its condition trigger further ones,
    and finishes it. *)
Inductive resolution : Container → Container → Prop :=
| resolution_refl c : resolution c c
| resolution_trans c1 c2 c3 :
    resolution c1 c2 → resolution c2 c3 → resolution c1 c3
| resolution_bean c k b c2 ok r c3 :
    beansById c !! k = Some b →
    settled (store c b) = false →
    resolution (enter b c) c2 →
    finish b ok c2 = Return r c3 →
    resolution c c3.

(** The identity index is keyed by identity. *)
Definition keyed (c : Container) : Prop :=
  ∀ k b, beansById c !! k = Some b → ID (store c b) = k.

(** A descriptor under no type and under no name. *)
Definition unindexed (b : addr) (c : Container) : Prop :=
  (∀ t, b ∉ beansByType c t) ∧ (∀ n, b ∉ beansByName c !!! n).

(** A descriptor the identity index does not hold. *)
Definition unregistered (b : addr) (c : Container) : Prop :=
  ∀ k, beansById c !! k ≠ Some b.

(** One move of the status along its lifecycle. *)
Inductive advance : beanStatus → beanStatus → Prop :=
| advance_enter : advance Default Resolving
| advance_resolved : advance Resolving Resolved
| advance_deleted : advance Resolving Deleted.

(** The statuses a lifecycle can reach from a given one. *)
Definition advances : beanStatus → beanStatus → Prop := rtc advance.

(** What one descriptor's own resolution may change: nothing of another
    descriptor, none of its own identity, name, type, description and
    condition, no export withdrawn; in the identity index at most its
    own entry removed; in the other two indices only itself added. *)
Record touches (b : addr) (c c' : Container) : Prop := {
  touches_store : ∀ q, q ≠ b → store c' q = store c q;
  touches_ID : ID (store c' b) = ID (store c b);
  touches_name : name (store c' b) = name (store c b);
  touches_Type : Type' (store c' b) = Type' (store c b);
  touches_Description : Description (store c' b) = Description (store c b);
  touches_cond : cond (store c' b) = cond (store c b);
  touches_exports : exports (store c b) ⊆ exports (store c' b);
  touches_byId : ∀ k, k ≠ ID (store c b) → beansById c' !! k = beansById c !! k;
  touches_byId_sub : beansById c' ⊆ beansById c;
  touches_byType : ∀ t q, q ≠ b → q ∈ beansByType c' t ↔ q ∈ beansByType c t;
  touches_byType_own : ∀ t, b ∈ beansByType c t → b ∈ beansByType c' t;
  touches_byName : ∀ n q, q ≠ b → q ∈ beansByName c' !!! n ↔ q ∈ beansByName c !!! n;
  touches_byName_own : ∀ n, b ∈ beansByName c !!! n → b ∈ beansByName c' !!! n;
  touches_state : state c' = state c;
  touches_p : p c' = p c
}.

(** The loop of [autoExport] over the fields of a struct. *)
Definition autoExport_fields (b : addr) : list (StructField rtype) → M (option error) :=
  fix fields_loop (fs : list (StructField rtype)) : M (option error) :=
    match fs with
    | [] => ret None
    | f :: fs =>
        let export := has_tag f "export" in
        let inject := has_tag f "inject" in
        let autowire := has_tag f "autowire" in
        if negb export then
          if negb (Anonymous f) || inject || autowire then fields_loop fs
          else
            let typ := Indirect (Type_ f) in
            if bool_decide (Kind_ typ = Struct) then
              let* err := autoExport typ b in
              match err with
              | Some e => ret (Some e)
              | None => fields_loop fs
              end
            else fields_loop fs
        else if bool_decide (Kind_ (Type_ f) ≠ Interface) then
          ret (Some "export can only use on interface")
        else if export && (inject || autowire) then
          ret (Some "inject or autowire can't use with export")
        else
          Export b (Type_ f) ;; fields_loop fs
    end.

(** The container after [c.beansByType[t] = append(c.beansByType[t], b)],
    and after the same for each type of a list in turn. *)
Definition indexed_under (b : addr) (c : Container) (t : rtype) : Container :=
  set_beansByType (<[t := beansByType c t ++ [b]]> (beansByType c)) c.

Definition indexed_under_all (b : addr) (ts : list rtype) (c : Container) : Container :=
  foldl (indexed_under b) c ts.

(** An export the bean's type can be indexed under. *)
Definition exportable (d : BeanDefinition) (t : rtype) : Prop :=
  Kind_ t = Interface ∧ implements (Type' d) t = true.

(** The error of [resolveBean] for an export that is not implemented. *)
Definition not_implement (d : BeanDefinition) (t : rtype) : error :=
  Description d +:+ " not implement " +:+ String_ t +:+ " interface".

(** The container after the deletion of a descriptor whose condition
    does not hold: its entry leaves the identity index and its status
    becomes Deleted. *)
Definition removed (b : addr) (c : Container) : Container :=
  let c1 := set_beansById (delete (ID (store c b)) (beansById c)) c in
  set_store (<[b := with_status Deleted (store c1 b)]> (store c1)) c1.

(** The container after the last two steps of a resolution: the
    descriptor is indexed under its name and its status is Resolved. *)
Definition named_resolved (b : addr) (c : Container) : Container :=
  let c1 := set_beansByName (<[name (store c b) := (beansByName c !!! name (store c b)) ++ [b]]>
                               (beansByName c)) c in
  set_store (<[b := with_status Resolved (store c1 b)]> (store c1)) c1.

(** Auto-export as [resolveBean] invokes it: on the struct behind the
    bean's type, and not at all for another kind of type. *)
Definition autoExport_of (b : addr) : M (option error) :=
  let* d := load b in
  let typ := Indirect (Type' d) in
  if bool_decide (Kind_ typ = Struct) then autoExport typ b else ret None.

(** [autoExport] changes nothing but the exports of its bean. *)
Definition exports_only (b : addr) (c c' : Container) : Prop :=
  touches b c c' ∧
  beansById c' = beansById c ∧ beansByType c' = beansByType c ∧
  beansByName c' = beansByName c ∧
  ∀ q, status (store c' q) = status (store c q).

(** The ways [finish] can return. *)
Inductive finished (b : addr) (c : Container) : bool → option error → Container → Prop :=
| finished_removed : finished b c false None (removed b c)
| finished_autoExport c1 e :
    autoExport_of b (indexed_under b c (Type' (store c b))) = Return (Some e) c1 →
    finished b c true (Some e) c1
| finished_export c1 pre t post :
    autoExport_of b (indexed_under b c (Type' (store c b))) = Return None c1 →
    rangeExports (exports (store c1 b)) = pre ++ t :: post →
    Forall (exportable (store c1 b)) pre →
    Kind_ t = Interface → implements (Type' (store c1 b)) t = false →
    finished b c true (Some (not_implement (store c1 b) t)) (indexed_under_all b pre c1)
| finished_resolved c1 :
    autoExport_of b (indexed_under b c (Type' (store c b))) = Return None c1 →
    Forall (exportable (store c1 b)) (rangeExports (exports (store c1 b))) →
    finished b c true None
      (named_resolved b (indexed_under_all b (rangeExports (exports (store c1 b))) c1)).

(** What no resolution changes: the identity, name, type, description
    and condition of a descriptor, the phase and the properties; and
    what only grows (exports, the indices by type and by name) or only
    shrinks (the identity index). *)
Record stable (c c' : Container) : Prop := {
  stable_ID : ∀ q, ID (store c' q) = ID (store c q);
  stable_name : ∀ q, name (store c' q) = name (store c q);
  stable_Type : ∀ q, Type' (store c' q) = Type' (store c q);
  stable_Description : ∀ q, Description (store c' q) = Description (store c q);
  stable_cond : ∀ q, cond (store c' q) = cond (store c q);
  stable_exports : ∀ q, exports (store c q) ⊆ exports (store c' q);
  stable_byId : beansById c' ⊆ beansById c;
  stable_byType : ∀ t q, q ∈ beansByType c t → q ∈ beansByType c' t;
  stable_byName : ∀ n q, q ∈ beansByName c !!! n → q ∈ beansByName c' !!! n;
  stable_state : state c' = state c;
  stable_p : p c' = p c
}.

(** A descriptor at or past Resolving is left alone by the resolutions
    of others: its contents and its place in the indices by type and by
    name stay as they are. *)
Record frozen (b : addr) (c c' : Container) : Prop := {
  frozen_store : store c' b = store c b;
  frozen_byType : ∀ t, b ∈ beansByType c' t ↔ b ∈ beansByType c t;
  frozen_byName : ∀ n, b ∈ beansByName c' !!! n ↔ b ∈ beansByName c !!! n
}.

(** A deleted descriptor: Deleted, out of the identity index and in no
    other index. *)
Definition gone (b : addr) (c : Container) : Prop :=
  unregistered b c ∧ unindexed b c ∧ status (store c b) = Deleted.

(** The panic of [registerBeans] on a descriptor [b] whose identity the
    index already gives to [d]. *)
Definition duplicate_beans (c : Container) (b d : addr) : error :=
  "found duplicate beans [" +:+ Description (store c b) +:+ "] ["
  +:+ Description (store c d) +:+ "]".

(** Two registrations, at different places of [c.beans], with the same
    identity. *)
Definition conflict (c : Container) (i j : nat) (x y : addr) : Prop :=
  (i < j)%nat ∧ beans c !! i = Some x ∧ beans c !! j = Some y ∧
  ID (store c x) = ID (store c y).

(** [u] is the struct behind an embedded (anonymous) field of the struct
    [t], the field carrying none of the three tags. *)
Definition embedded_in (u t : rtype) : Prop :=
  ∃ n fs g, t = StructOf n fs ∧ g ∈ fs ∧
    has_tag g "export" = false ∧ has_tag g "inject" = false ∧
    has_tag g "autowire" = false ∧ Anonymous g = true ∧
    Indirect (Type_ g) = u ∧ Kind_ u = Struct.

(** The struct [t] has a field tagged for export, of type [I]. *)
Definition exports_field (t I : rtype) : Prop :=
  ∃ n fs f, t = StructOf n fs ∧ f ∈ fs ∧ has_tag f "export" = true ∧ Type_ f = I.

(** The events of a run of the destroyers [ds], in order, from the
    assembly [assembly]: each destroyer runs, and its error, if any, is
    logged before the next one runs. *)
Fixpoint teardown (ds : list destroyer) (assembly : beanAssembly) : list Event :=
  match ds with
  | [] => []
  | d :: ds =>
      let r := run d assembly in
      Run d :: (match r.2 with
                | Some err => [LogError err]
                | None => []
                end) ++ teardown ds r.1
  end.

(** The destroyers a sequence of events ran, in order. *)
Definition runs (es : list Event) : list destroyer :=
  omap (λ e, match e with Run d => Some d | _ => None end) es.

(** The assembly a destroyer finds when the ones before it have run. *)
Fixpoint assembly_after (ds : list destroyer) (assembly : beanAssembly) : beanAssembly :=
  match ds with
  | [] => assembly
  | d :: ds => assembly_after ds (run d assembly).1
  end.

(** An evaluation that came to an end: it returned or it panicked. *)
Definition terminates {A} (o : outcome A) : Prop :=
  match o with
  | Return _ _ | Panicked _ => True
  | Blocked _ | OutOfFuel => False
  end.

(** The entries of the identity index whose descriptor is not at
    Resolving: those a lookup may still hand to [resolveBean]. *)
Definition awaiting (c : Container) : gmap string addr :=
  filter (λ kb, status (store c kb.2) ≠ Resolving) (beansById c).

(** [m2] does what [m1] does wherever [m1] comes to an end. *)
Definition extends {A} (m1 m2 : M A) : Prop :=
  ∀ c, terminates (m1 c) → m2 c = m1 c.

(** The state of a descriptor when its resolution reaches the loop over
    its exports: [c] at the call, [c2] once the condition has held, [c3]
    once auto-export has succeeded. *)
Record at_exports (fuel : nat) (b : addr) (c c2 c3 : Container) : Prop := {
  at_unsettled : settled (store c b) = false;
  at_cond : evalCond fuel (store c b) (enter b c) = Return true c2;
  at_autoExport :
    autoExport_of b (indexed_under b c2 (Type' (store c2 b))) = Return None c3
}.

(** The containers refresh goes through: the identity index is keyed by
    identity and holds no Deleted descriptor, and a descriptor it holds at
    Default is in no other index yet. *)
Record consistent (c : Container) : Prop := {
  consistent_keyed : keyed c;
  consistent_live : ∀ k b, beansById c !! k = Some b → status (store c b) ≠ Deleted;
  consistent_fresh :
    ∀ k b, beansById c !! k = Some b → status (store c b) = Default → unindexed b c
}.

(** The filter of [find] for a selector. *)
Definition filter_of (selector : Selector) (fn : BeanDefinition → bool) : Prop :=
  if bool_decide (Kind_ (TypeOf selector) = String) then True
  else fn = (λ b, if negb (AssignableTo (Type' b) (selected_type (TypeOf selector)))
                  then false
                  else if bool_decide (Kind_ (selected_type (TypeOf selector)) ≠ Interface)
                       then true
                       else bool_decide (selected_type (TypeOf selector) ∈ exports b)).

(** ** Notions used by the statements about the rest of the engine *)

(** What nothing on the resolution path writes: the registrations, the
    configuration functions kept or not, the destroyers, the wait group,
    the shared context and the record of events. *)
Record untouched (c c' : Container) : Prop := {
  untouched_beans : beans c' = beans c;
  untouched_configers : configers c' = configers c;
  untouched_configerList : configerList c' = configerList c;
  untouched_destroyerList : destroyerList c' = destroyerList c;
  untouched_wg : wg c' = wg c;
  untouched_ctx : ctx c' = ctx c;
  untouched_events : events c' = events c
}.

(** The selectors [find] has an answer for: a Go [string], or a value
    whose type is not of kind String.  On a value of another type of that
    kind the conversion [selector.(string)] panics. *)
Definition answerable (selector : Selector) : Prop :=
  match selector with
  | StringValue _ => True
  | ValueOf u => Kind_ u ≠ String
  end.

(** The test [find] hands to its finder for a selector. *)
Definition selects (selector : Selector) (d : BeanDefinition) : bool :=
  match selector with
  | StringValue s => Match d (parseSingletonTag s).1 (parseSingletonTag s).2
  | ValueOf u =>
      if negb (AssignableTo (Type' d) (selected_type u)) then false
      else if bool_decide (Kind_ (selected_type u) ≠ Interface) then true
      else bool_decide (selected_type u ∈ exports d)
  end.

(** The descriptors a range over the identity index meets, in order. *)
Definition ranged (c : Container) : list addr :=
  omap (λ k, beansById c !! k) (rangeById (beansById c)).

(** Those of them a selector selects. *)
Definition selected (selector : Selector) (c : Container) : list addr :=
  filter (λ b, selects selector (store c b) = true) (ranged c).

(** The assembly after the calls of the configuration functions [gs],
    and after the wiring of the descriptors [bs]. *)
Definition configured (gs : list Configer) (assembly : beanAssembly) : beanAssembly :=
  foldl (λ a g, (callConfiger g a).1) assembly gs.

Definition wired (bs : list addr) (assembly : beanAssembly) : beanAssembly :=
  foldl (λ a b, (wireBean b a).1) assembly bs.

(** The three errors a resolution can return for a descriptor [d]: the
    two of auto-export, and the one for an export that is not
    implemented. *)
Definition resolution_error (d : BeanDefinition) (e : error) : Prop :=
  e = "export can only use on interface" ∨
  e = "inject or autowire can't use with export" ∨
  ∃ t, Kind_ t = Interface ∧ implements (Type' d) t = false ∧ e = not_implement d t.

(** The report of the wiring path that [Refresh] defers. *)
Definition wiring_report (assembly : beanAssembly) : list Event :=
  if bool_decide (stack assembly ≠ []) then [LogInfo ("wiring path " +:+ path (stack assembly))]
  else [].

(** The panics of a lookup or of a resolution made during refresh: that
    of [Type.Implements] on a declared export that is not an interface,
    and that of the conversion to [string] of a selector of kind String
    that is not a [string]. *)
Definition lookup_panic (e : error) : Prop :=
  e = "reflect: non-interface type passed to Type.Implements" ∨
  ∃ u, Kind_ u = String ∧
    e = "interface conversion: interface {} is " +:+ String_ u +:+ ", not string".

(** The evaluation of the condition of a configuration function, [true]
    without one. *)
Definition keeps (fuel : nat) (g : Configer) : M bool :=
  match g_cond g with
  | None => ret true
  | Some k => Matches (find fuel) k
  end.

(** The configuration functions of [gs] whose answer, at the same place
    in [oks], is [true]. *)
Definition answered_true (gs : list Configer) (oks : list bool) : list Configer :=
  (filter (λ x, x.2 = true) (zip gs oks)).*1.

(** ** Reasoning about computations *)

Lemma bind_Return {A B} (m : M A) (k : A → M B) c b c' :
  bind m k c = Return b c' → ∃ a c1, m c = Return a c1 ∧ k a c1 = Return b c'.
Proof.
  unfold bind. destruct (m c) as [a c1| | |]; try discriminate. eauto.
Qed.

Lemma resolveBean_unfold fuel b c :
  resolveBean (S fuel) b c =
    if settled (store c b) then Return None c
    else bind (evalCond fuel (store c b)) (finish b) (enter b c).
Proof.
  unfold settled. simpl. unfold bind at 1, load.
  destruct (bool_decide _); reflexivity.
Qed.

(** Primitive steps compute; what is left of a returning [bind] is
    split at its first component. *)
Ltac msimpl H :=
  cbv beta delta [bind ret get load modify panic setStatus deleteById appendByType
                  appendByName emit Export PanicWhen] iota zeta in H.

(** ** Every lookup is a resolution *)

Section resolution_of.

Variable resolve : addr → M (option error).
Hypothesis resolve_resolution :
  ∀ b c k r c', beansById c !! k = Some b → resolve b c = Return r c' → resolution c c'.

Lemma finder_loop_resolution fn keys result c r c' :
  finder_loop resolve fn keys result c = Return r c' → resolution c c'.
Proof.
  revert result c. induction keys as [|k keys IH]; intros result c H; simpl in H.
  - injection H as <- <-. constructor.
  - unfold bind at 1, get in H.
    destruct (beansById c !! k) as [b|] eqn:Hk; [|eauto].
    destruct (_ && _); [|eauto].
    apply bind_Return in H as ([e|] & c1 & H1 & H2).
    + injection H2 as <- <-. eauto.
    + unfold bind at 1, load in H2.
      eapply resolution_trans; [eauto|].
      destruct (bool_decide _); eauto.
Qed.

Lemma find_with_resolution selector c r c' :
  find_with resolve selector c = Return r c' → resolution c c'.
Proof.
  unfold find_with, callAfterRefreshing, finder. intros H. msimpl H.
  destruct (bool_decide (state c = Unrefreshed)); [discriminate|].
  destruct (bool_decide (Kind_ _ = String)).
  - destruct selector; [|discriminate]. eapply finder_loop_resolution, H.
  - eapply finder_loop_resolution, H.
Qed.

Lemma Matches_resolution k c r c' :
  Matches (find_with resolve) k c = Return r c' → resolution c c'.
Proof.
  revert c. induction k as [ok|key k IH|selector k IH]; intros c H; simpl in H.
  - injection H as <- <-. constructor.
  - unfold bind, get in H. eauto.
  - apply bind_Return in H as (x & c1 & H1 & H2).
    eapply resolution_trans; [eapply find_with_resolution|]; eauto.
Qed.

End resolution_of.

Lemma resolveBean_resolution fuel :
  ∀ b c k r c', beansById c !! k = Some b →
    resolveBean fuel b c = Return r c' → resolution c c'.
Proof.
  induction fuel as [|fuel IH]; intros b c k r c' Hk H; [discriminate|].
  rewrite resolveBean_unfold in H.
  destruct (settled (store c b)) eqn:Hs.
  - injection H as <- <-. constructor.
  - apply bind_Return in H as (ok & c2 & H1 & H2).
    eapply resolution_bean; eauto.
    unfold evalCond in H1. destruct (cond (store c b)) as [cnd|].
    + eapply Matches_resolution; eauto.
    + injection H1 as <- <-. constructor.
Qed.

Lemma resolveBeans_resolution fuel c r c' :
  resolveBeans fuel c = Return r c' → resolution c c'.
Proof.
  unfold resolveBeans, bind at 1, get. generalize (rangeById (beansById c)). intros keys.
  revert c. induction keys as [|k keys IH]; intros c H; simpl in H.
  - injection H as <- <-. constructor.
  - unfold bind at 1, get in H.
    destruct (beansById c !! k) as [b|] eqn:Hk; [|eauto].
    apply bind_Return in H as ([e|] & c1 & H1 & H2).
    + injection H2 as <- <-. by eapply resolveBean_resolution.
    + eapply resolution_trans; [by eapply resolveBean_resolution|eauto].
Qed.

Lemma find_resolution fuel selector c r c' :
  find fuel selector c = Return r c' → resolution c c'.
Proof. apply find_with_resolution, resolveBean_resolution. Qed.

Lemma evalCond_resolution fuel d c ok c' :
  evalCond fuel d c = Return ok c' → resolution c c'.
Proof.
  unfold evalCond. destruct (cond d).
  - apply Matches_resolution, resolveBean_resolution.
  - intros H. injection H as <- <-. constructor.
Qed.

(** ** What a resolution touches *)

Lemma touches_refl b c : touches b c c.
Proof. constructor; done. Qed.

Lemma touches_trans b c1 c2 c3 : touches b c1 c2 → touches b c2 c3 → touches b c1 c3.
Proof.
  intros [] []. constructor; intros; try congruence.
  - etrans; [apply touches_store1|apply touches_store0]; done.
  - etrans; eauto.
  - etrans; [apply touches_byId1|apply touches_byId0]; congruence.
  - etrans; eauto.
  - etrans; [apply touches_byType1|apply touches_byType0]; done.
  - auto.
  - etrans; [apply touches_byName1|apply touches_byName0]; done.
  - auto.
Qed.

Lemma touches_setStatus b s c :
  touches b c (set_store (<[b := with_status s (store c b)]> (store c)) c).
Proof.
  constructor; simpl; intros; rewrite ?fn_lookup_insert; try done.
  by rewrite fn_lookup_insert_ne.
Qed.

Lemma touches_Export b t c c' : Export b t c = Return tt c' → touches b c c'.
Proof.
  intros H. msimpl H. destruct (bool_decide _); injection H as <-.
  - apply touches_refl.
  - constructor; simpl; intros; rewrite ?fn_lookup_insert; try done.
    + by rewrite fn_lookup_insert_ne.
    + simpl. intros x Hx. apply elem_of_app. by left.
Qed.

Lemma touches_deleteById b c :
  touches b c (set_beansById (delete (ID (store c b)) (beansById c)) c).
Proof.
  constructor; simpl; intros; try done.
  - by rewrite lookup_delete_ne.
  - apply delete_subseteq.
Qed.

Lemma touches_appendByType b t c :
  touches b c (set_beansByType (<[t := beansByType c t ++ [b]]> (beansByType c)) c).
Proof.
  constructor; simpl; intros; try done.
  - destruct (decide (t = t0)) as [<-|].
    + rewrite fn_lookup_insert, elem_of_app, list_elem_of_singleton.
    split; [intros [Hq|Hq]; [exact Hq|contradiction]|by left].
    + by rewrite fn_lookup_insert_ne.
  - destruct (decide (t = t0)) as [<-|].
    + rewrite fn_lookup_insert, elem_of_app. by left.
    + by rewrite fn_lookup_insert_ne.
Qed.

Lemma touches_appendByName b n c :
  touches b c (set_beansByName (<[n := (beansByName c !!! n) ++ [b]]> (beansByName c)) c).
Proof.
  constructor; simpl; intros; try done.
  - destruct (decide (n = n0)) as [<-|].
    + rewrite lookup_total_insert_eq, elem_of_app, list_elem_of_singleton.
    split; [intros [Hq|Hq]; [exact Hq|contradiction]|by left].
    + by rewrite lookup_total_insert_ne.
  - destruct (decide (n = n0)) as [<-|].
    + rewrite lookup_total_insert_eq, elem_of_app. by left.
    + by rewrite lookup_total_insert_ne.
Qed.

Lemma autoExport_StructOf n fs b : autoExport (StructOf n fs) b = autoExport_fields b fs.
Proof. reflexivity. Qed.

Lemma exports_only_refl b c : exports_only b c c.
Proof. split; [apply touches_refl|done]. Qed.

Lemma exports_only_trans b c1 c2 c3 :
  exports_only b c1 c2 → exports_only b c2 c3 → exports_only b c1 c3.
Proof.
  intros (? & ? & ? & ? & ?) (? & ? & ? & ? & ?).
  split; [by eapply touches_trans|]. split_and!; congruence.
Qed.

Lemma Export_exports_only b t c c' : Export b t c = Return tt c' → exports_only b c c'.
Proof.
  intros H. split; [by eapply touches_Export|].
  msimpl H. destruct (bool_decide _); injection H as <-; [done|].
  split_and!; try done. intros q. simpl.
  destruct (decide (b = q)) as [<-|]; [by rewrite fn_lookup_insert|by rewrite fn_lookup_insert_ne].
Qed.

(** Induction over descriptors for statements about [autoExport],
    which descends into [Indirect] of a field's type. *)
Lemma rtype_Indirect_ind (P : rtype → Prop) :
  (∀ k n, P (Basic k n)) →
  (∀ n, P (InterfaceOf n)) →
  (∀ e, P e → P (PtrTo e)) →
  (∀ n fs, Forall (λ f, P (Indirect (Type_ f))) fs → P (StructOf n fs)) →
  ∀ t, P t.
Proof.
  intros HB HI HP HS t.
  enough (P t ∧ P (Indirect t)) as [Ht _] by exact Ht.
  induction t as [k n|n|e [IHe _]|n fs IHfs] using rtype_ind'; simpl.
  - split; apply HB.
  - split; apply HI.
  - split; [apply HP|]; exact IHe.
  - enough (P (StructOf n fs)) as Hs by (split; exact Hs).
    apply HS. eapply List.Forall_impl; [|exact IHfs]. simpl. intros f [_ Hf]. exact Hf.
Qed.

Lemma autoExport_exports_only t b c r c' :
  autoExport t b c = Return r c' → exports_only b c c'.
Proof.
  revert c r c'. induction t as [k n|n|e IHe|n fs IHfs] using rtype_Indirect_ind;
    intros c r c' H; try discriminate.
  rewrite autoExport_StructOf in H. revert c r c' H.
  induction IHfs as [|f fs Hf _ IH]; intros c r c' H; simpl in H.
  - injection H as <- <-. apply exports_only_refl.
  - destruct (negb (has_tag f "export")).
    + destruct (_ || _); [eauto|].
      destruct (bool_decide _); [|eauto].
      apply bind_Return in H as ([e|] & c1 & H1 & H2).
      * injection H2 as <- <-. eauto.
      * eapply exports_only_trans; eauto.
    + destruct (bool_decide _); [injection H as <- <-; apply exports_only_refl|].
      destruct (_ && _); [injection H as <- <-; apply exports_only_refl|].
      apply bind_Return in H as ([] & c1 & H1 & H2).
      eapply exports_only_trans; [by eapply Export_exports_only|eauto].
Qed.

(** ** The loop over the exports *)

Lemma store_indexed_under_all b ts c : store (indexed_under_all b ts c) = store c.
Proof. revert c. induction ts as [|t ts IH]; intros c; simpl; [done|]. by rewrite IH. Qed.

Lemma indexExports_ok b ts c :
  Forall (exportable (store c b)) ts →
  indexExports b ts c = Return None (indexed_under_all b ts c).
Proof.
  revert c. induction ts as [|t ts IH]; intros c Hts; simpl; [done|].
  apply Forall_cons_1 in Hts as [[Hk Hi] Hts].
  unfold bind at 1, load. unfold bind at 1, Implements.
  rewrite bool_decide_true by done. unfold ret. rewrite Hi.
  unfold bind, appendByType, modify. apply IH. exact Hts.
Qed.

Lemma indexExports_fail b pre t post c :
  Forall (exportable (store c b)) pre →
  Kind_ t = Interface → implements (Type' (store c b)) t = false →
  indexExports b (pre ++ t :: post) c =
    Return (Some (not_implement (store c b) t)) (indexed_under_all b pre c).
Proof.
  revert c. induction pre as [|u pre IH]; intros c Hpre Hk Hi; simpl.
  - unfold bind at 1, load. unfold bind at 1, Implements.
    rewrite bool_decide_true by done. unfold ret. by rewrite Hi.
  - apply Forall_cons_1 in Hpre as [[Hku Hiu] Hpre].
    unfold bind at 1, load. unfold bind at 1, Implements.
    rewrite bool_decide_true by done. unfold ret. rewrite Hiu.
    unfold bind, appendByType, modify. apply (IH (indexed_under b c u)); done.
Qed.

(** What the loop returns tells how far it went. *)
Lemma indexExports_Return b ts c r c' :
  indexExports b ts c = Return r c' →
  match r with
  | None => Forall (exportable (store c b)) ts ∧ c' = indexed_under_all b ts c
  | Some e => ∃ pre t post, ts = pre ++ t :: post ∧
      Forall (exportable (store c b)) pre ∧ Kind_ t = Interface ∧
      implements (Type' (store c b)) t = false ∧
      e = not_implement (store c b) t ∧ c' = indexed_under_all b pre c
  end.
Proof.
  revert c. induction ts as [|t ts IH]; intros c H; simpl in H.
  - injection H as <- <-. done.
  - unfold bind at 1, load in H. unfold bind at 1, Implements in H.
    destruct (bool_decide (Kind_ t = Interface)) eqn:Hk; [|discriminate].
    apply bool_decide_eq_true in Hk. unfold ret in H.
    destruct (implements (Type' (store c b)) t) eqn:Hi.
    + unfold bind, appendByType, modify in H. apply IH in H. simpl in H.
      destruct r as [e|].
      * destruct H as (pre & u & post & -> & Hpre & Hu & Hiu & -> & ->).
        exists (t :: pre), u, post. split_and!; try done. by constructor.
      * destruct H as [Hts ->]. split; [|done]. by constructor.
    + injection H as <- <-. exists [], t, ts. split_and!; done.
Qed.

Lemma touches_indexed_under_all b ts c : touches b c (indexed_under_all b ts c).
Proof.
  revert c. induction ts as [|t ts IH]; intros c; simpl; [apply touches_refl|].
  eapply touches_trans; [apply touches_appendByType|apply IH].
Qed.

Lemma indexExports_touches b ts c r c' :
  indexExports b ts c = Return r c' → touches b c c' ∧ store c' = store c.
Proof.
  intros H. apply indexExports_Return in H.
  destruct r; [destruct H as (pre & t & post & _ & _ & _ & _ & _ & ->)|destruct H as [_ ->]];
    (split; [apply touches_indexed_under_all|apply store_indexed_under_all]).
Qed.

(** ** The end of a resolution *)

Lemma finish_false b c : finish b false c = Return None (removed b c).
Proof. reflexivity. Qed.

Lemma finish_true b c :
  finish b true c =
    bind (autoExport_of b) (λ err,
      match err with
      | Some e => ret (Some e)
      | None =>
          let* d := load b in
          let* err := indexExports b (rangeExports (exports d)) in
          match err with
          | Some e => ret (Some e)
          | None => λ c, Return None (named_resolved b c)
          end
      end) (indexed_under b c (Type' (store c b))).
Proof. reflexivity. Qed.

Lemma autoExport_of_exports_only b c r c' :
  autoExport_of b c = Return r c' → exports_only b c c'.
Proof.
  unfold autoExport_of, bind, load. destruct (bool_decide _).
  - destruct (autoExport _ b c) eqn:E; try discriminate.
    intros [= -> ->]. by eapply autoExport_exports_only.
  - intros [= <- <-]. apply exports_only_refl.
Qed.

Lemma touches_removed b c : touches b c (removed b c).
Proof.
  eapply touches_trans; [apply touches_deleteById|]. apply touches_setStatus.
Qed.

Lemma touches_named_resolved b c : touches b c (named_resolved b c).
Proof.
  eapply touches_trans; [apply touches_appendByName|]. apply touches_setStatus.
Qed.

Lemma finish_finished b ok c r c' :
  finish b ok c = Return r c' → finished b c ok r c'.
Proof.
  destruct ok.
  - rewrite finish_true. intros H.
    apply bind_Return in H as ([e|] & c1 & H1 & H2).
    + injection H2 as <- <-. by constructor.
    + unfold bind at 1, load in H2.
      apply bind_Return in H2 as (err & c2 & H2 & H3).
      apply indexExports_Return in H2. destruct err as [e|].
      * destruct H2 as (pre & t & post & Hts & Hpre & Hk & Hi & -> & ->).
        injection H3 as <- <-. by econstructor.
      * destruct H2 as [Hts ->]. injection H3 as <- <-. by constructor.
  - rewrite finish_false. intros [= <- <-]. constructor.
Qed.

Lemma finish_touches b ok c r c' : finish b ok c = Return r c' → touches b c c'.
Proof.
  intros H. apply finish_finished in H.
  destruct H as [|c1 e H1|c1 pre t post H1|c1 H1];
    [apply touches_removed|apply autoExport_of_exports_only in H1 as [H1 _]..];
    (eapply touches_trans; [apply touches_appendByType|]);
    (eapply touches_trans; [exact H1|]).
  - apply touches_refl.
  - apply touches_indexed_under_all.
  - eapply touches_trans; [apply touches_indexed_under_all|apply touches_named_resolved].
Qed.

Lemma finish_status b ok c r c' :
  finish b ok c = Return r c' →
  status (store c' b) =
    if ok then (if r is None then Resolved else status (store c b)) else Deleted.
Proof.
  intros H. apply finish_finished in H.
  destruct H as [|c1 e H1|c1 pre t post H1|c1 H1];
    [|apply autoExport_of_exports_only in H1 as (_ & _ & _ & _ & H1)..].
  - simpl. by rewrite fn_lookup_insert.
  - apply H1.
  - rewrite store_indexed_under_all. apply H1.
  - simpl. by rewrite fn_lookup_insert.
Qed.

(** ** What resolutions leave stable *)

Lemma stable_refl c : stable c c.
Proof. constructor; done. Qed.

Lemma stable_trans c1 c2 c3 : stable c1 c2 → stable c2 c3 → stable c1 c3.
Proof.
  intros [] []. constructor; intros; try congruence; try (etrans; eauto; fail); auto.
Qed.

Lemma touches_stable b c c' : touches b c c' → stable c c'.
Proof.
  intros []. constructor; try done.
  1-6: intros q; destruct (decide (q = b)) as [->|Hq]; [done|by rewrite touches_store0].
  - intros t q Hq. destruct (decide (q = b)) as [->|Hne]; [auto|by apply touches_byType0].
  - intros n q Hq. destruct (decide (q = b)) as [->|Hne]; [auto|by apply touches_byName0].
Qed.

Lemma touches_enter b c : touches b c (enter b c).
Proof. apply touches_setStatus. Qed.

Lemma resolution_stable c c' : resolution c c' → stable c c'.
Proof.
  induction 1 as [c|c1 c2 c3 _ IH1 _ IH2|c k b c2 ok r c3 Hk Hs _ IH Hf].
  - apply stable_refl.
  - by eapply stable_trans.
  - eapply stable_trans; [eapply touches_stable, touches_enter|].
    eapply stable_trans; [exact IH|]. eapply touches_stable, finish_touches, Hf.
Qed.

Lemma stable_keyed c c' : stable c c' → keyed c → keyed c'.
Proof.
  intros [] Hc k b Hk. rewrite stable_ID0. apply Hc.
  eapply lookup_weaken; eauto.
Qed.

Lemma settled_Resolving d : status d = Resolving → settled d = true.
Proof. unfold settled. intros ->. by apply bool_decide_eq_true. Qed.

Lemma frozen_refl b c : frozen b c c.
Proof. constructor; done. Qed.

Lemma frozen_trans b c1 c2 c3 : frozen b c1 c2 → frozen b c2 c3 → frozen b c1 c3.
Proof.
  intros [] []. constructor; intros; try congruence; etrans; eauto.
Qed.

Lemma touches_frozen b q c c' : touches b c c' → q ≠ b → frozen q c c'.
Proof.
  intros T Hq. constructor.
  - by apply (touches_store _ _ _ T).
  - intros t. by apply (touches_byType _ _ _ T).
  - intros n. by apply (touches_byName _ _ _ T).
Qed.

Lemma frozen_unindexed b c c' : frozen b c c' → unindexed b c → unindexed b c'.
Proof.
  intros F [Ht Hn]. split.
  - intros t. rewrite (frozen_byType _ _ _ F). apply Ht.
  - intros n. rewrite (frozen_byName _ _ _ F). apply Hn.
Qed.

Lemma settled_enter b c : settled (store (enter b c) b) = true.
Proof. simpl. rewrite fn_lookup_insert. by apply settled_Resolving. Qed.

Lemma resolution_frozen c c' :
  resolution c c' → ∀ q, settled (store c q) = true → frozen q c c'.
Proof.
  induction 1 as [c|c1 c2 c3 H1 IH1 _ IH2|c k b c2 ok r c3 Hk Hs H IH Hf];
    intros q Hq.
  - apply frozen_refl.
  - pose proof (IH1 q Hq) as F1.
    eapply frozen_trans; [exact F1|]. apply IH2.
    by rewrite (frozen_store _ _ _ F1).
  - assert (q ≠ b) as Hne by (intros ->; congruence).
    eapply frozen_trans; [eapply touches_frozen; [apply touches_enter|done]|].
    eapply frozen_trans; [|eapply touches_frozen; [eapply finish_touches, Hf|done]].
    apply IH. simpl. by rewrite fn_lookup_insert_ne.
Qed.

(** A registered descriptor at or past Resolving stays registered. *)
Lemma resolution_registered c c' :
  resolution c c' → keyed c →
  ∀ q k, settled (store c q) = true → beansById c !! k = Some q → beansById c' !! k = Some q.
Proof.
  induction 1 as [c|c1 c2 c3 H1 IH1 H2 IH2|c k b c2 ok r c3 Hk Hs H IH Hf];
    intros Hc q k0 Hq Hk0.
  - done.
  - apply IH2.
    + eapply stable_keyed; [by apply resolution_stable|done].
    + by rewrite (frozen_store _ _ _ (resolution_frozen _ _ H1 _ Hq)).
    + by apply IH1.
  - assert (q ≠ b) as Hne by (intros ->; congruence).
    assert (keyed (enter b c)) as Hce.
    { eapply stable_keyed; [eapply touches_stable, touches_enter|done]. }
    assert (keyed c2) as Hc2.
    { eapply stable_keyed; [by apply resolution_stable|done]. }
    assert (beansById c2 !! k0 = Some q) as Hq2.
    { apply IH; [done| |done]. simpl. by rewrite fn_lookup_insert_ne. }
    assert (beansById c2 !! k = Some b) as Hb2.
    { apply IH; [done|apply settled_enter|done]. }
    rewrite (touches_byId _ _ _ (finish_touches _ _ _ _ _ Hf)); [done|].
    intros ->. apply Hc2 in Hb2 as E. rewrite E in Hq2. congruence.
Qed.

(** ** The status of a descriptor only advances *)

Lemma resolveBean_settled fuel b c :
  settled (store c b) = true → resolveBean (S fuel) b c = Return None c.
Proof. intros H. by rewrite resolveBean_unfold, H. Qed.

(** The two ways a call of [resolveBean] returns. *)
Lemma resolveBean_Return fuel b c r c' :
  resolveBean fuel b c = Return r c' →
  (settled (store c b) = true ∧ r = None ∧ c' = c) ∨
  (settled (store c b) = false ∧ ∃ fuel' ok c2, fuel = S fuel' ∧
     evalCond fuel' (store c b) (enter b c) = Return ok c2 ∧
     finish b ok c2 = Return r c').
Proof.
  destruct fuel as [|fuel]; [discriminate|]. rewrite resolveBean_unfold.
  destruct (settled (store c b)); [intros [= <- <-]; by left|].
  intros H. apply bind_Return in H as (ok & c2 & H1 & H2). right. eauto 10.
Qed.

Section lifecycle.

(** The numbering puts Resolved and Deleted at or past Resolving. *)
Hypothesis Resolved_past : (code Resolving ≤ code Resolved)%Z.
Hypothesis Deleted_past : (code Resolving ≤ code Deleted)%Z.

Lemma unsettled_Default d : settled d = false → status d = Default.
Proof.
  unfold settled. intros H. apply bool_decide_eq_false in H.
  destruct (status d); [done|exfalso; apply H..]; [lia|done|done].
Qed.

(** One resolution, from entering the descriptor to finishing it. *)
Lemma advances_bean b c c2 ok r c3 :
  settled (store c b) = false →
  (∀ q, advances (status (store (enter b c) q)) (status (store c2 q))) →
  frozen b (enter b c) c2 →
  finish b ok c2 = Return r c3 →
  ∀ q, advances (status (store c q)) (status (store c3 q)).
Proof.
  intros Hs Hn F Hf q. destruct (decide (q = b)) as [->|Hq].
  - rewrite (unsettled_Default _ Hs), (finish_status _ _ _ _ _ Hf).
    rewrite (frozen_store _ _ _ F). simpl. rewrite fn_lookup_insert. simpl.
    eapply rtc_l; [constructor|].
    destruct ok; [destruct r|]; [apply rtc_refl|apply rtc_once; constructor..].
  - rewrite (touches_store _ _ _ (finish_touches _ _ _ _ _ Hf)) by done.
    specialize (Hn q). simpl in Hn. by rewrite fn_lookup_insert_ne in Hn.
Qed.

Lemma resolution_advances c c' :
  resolution c c' → ∀ q, advances (status (store c q)) (status (store c' q)).
Proof.
  induction 1 as [c|c1 c2 c3 _ IH1 _ IH2|c k b c2 ok r c3 Hk Hs H IH Hf]; intros q.
  - apply rtc_refl.
  - etrans; [apply IH1|apply IH2].
  - eapply advances_bean; eauto.
    apply resolution_frozen; [done|apply settled_enter].
Qed.

Lemma resolveBean_advances fuel b c r c' :
  resolveBean fuel b c = Return r c' →
  ∀ q, advances (status (store c q)) (status (store c' q)).
Proof.
  intros H. apply resolveBean_Return in H
    as [(_ & _ & ->)|(Hs & fuel' & ok & c2 & -> & H1 & H2)].
  - intros q. apply rtc_refl.
  - apply evalCond_resolution in H1.
    eapply advances_bean; eauto.
    + by apply resolution_advances.
    + apply resolution_frozen; [done|apply settled_enter].
Qed.

Lemma advances_terminal s s' :
  s = Resolved ∨ s = Deleted → advances s s' → s' = s.
Proof.
  intros Hs H. induction H as [|s1 s2 s3 H12 _ IH]; [done|].
  destruct H12; destruct Hs; discriminate.
Qed.

End lifecycle.

(** Resolutions keep the container consistent, and move the status of
    its descriptors along the lifecycle, whatever the number of Deleted. *)
Lemma resolution_consistent c c' :
  (code Resolving ≤ code Resolved)%Z →
  resolution c c' → consistent c →
  consistent c' ∧ ∀ q, advances (status (store c q)) (status (store c' q)).
Proof.
  intros HR. induction 1 as [c|c1 c2 c3 _ IH1 _ IH2|c k b c2 ok r c3 Hk Hs H IH Hf];
    intros Hc.
  - split; [done|]. intros q. apply rtc_refl.
  - destruct (IH1 Hc) as [Hc2 A1]. destruct (IH2 Hc2) as [Hc3 A2].
    split; [done|]. intros q. etrans; [apply A1|apply A2].
  - assert (status (store c b) = Default) as Hd.
    { pose proof (consistent_live _ Hc _ _ Hk) as Hl.
      unfold settled in Hs. apply bool_decide_eq_false in Hs.
      destruct (status (store c b)); [done|exfalso; apply Hs..|done]; [lia|done]. }
    assert (consistent (enter b c)) as Hce.
    { destruct Hc as [Hc1 Hc2 Hc3]. split.
      - eapply stable_keyed; [eapply touches_stable, touches_enter|done].
      - intros k' q Hq. simpl. destruct (decide (b = q)) as [->|Hne].
        + by rewrite fn_lookup_insert.
        + rewrite fn_lookup_insert_ne by done. by eapply Hc2.
      - intros k' q Hq. simpl. destruct (decide (b = q)) as [->|Hne].
        + by rewrite fn_lookup_insert.
        + rewrite fn_lookup_insert_ne by done. intros Hqd.
          by apply (Hc3 _ _ Hq Hqd). }
    destruct (IH Hce) as [[Hk2 Hl2 Hf2] A].
    pose proof (resolution_frozen _ _ H b (settled_enter b c)) as F.
    pose proof (finish_touches _ _ _ _ _ Hf) as T.
    pose proof (finish_status _ _ _ _ _ Hf) as Hst.
    rewrite (frozen_store _ _ _ F) in Hst. simpl in Hst. rewrite fn_lookup_insert in Hst.
    simpl in Hst.
    split; [split|].
    + eapply stable_keyed; [by eapply touches_stable|done].
    + intros k' q Hq Hqd.
      pose proof (lookup_weaken _ _ _ _ Hq (touches_byId_sub _ _ _ T)) as Hq2.
      destruct (decide (q = b)) as [->|Hne].
      * rewrite Hst in Hqd. destruct ok; [by destruct r|].
        rewrite finish_false in Hf. injection Hf as <- <-. simpl in Hq.
        apply Hk2 in Hq2 as <-. by rewrite lookup_delete_eq in Hq.
      * rewrite (touches_store _ _ _ T) in Hqd by done. by eapply Hl2.
    + intros k' q Hq Hqd.
      pose proof (lookup_weaken _ _ _ _ Hq (touches_byId_sub _ _ _ T)) as Hq2.
      destruct (decide (q = b)) as [->|Hne].
      * rewrite Hst in Hqd. by destruct ok; [destruct r|].
      * rewrite (touches_store _ _ _ T) in Hqd by done.
        eapply frozen_unindexed; [by eapply touches_frozen|]. by eapply Hf2.
    + intros q. destruct (decide (q = b)) as [->|Hne].
      * rewrite Hd, Hst. eapply rtc_l; [constructor|].
        destruct ok; [destruct r|]; [apply rtc_refl|apply rtc_once; constructor..].
      * rewrite (touches_store _ _ _ T) by done.
        specialize (A q). simpl in A. by rewrite fn_lookup_insert_ne in A.
Qed.

(** [registerBeans] builds an identity index keyed by identity, out of
    the registered descriptors. *)
Lemma registerBeans_loop_keyed bs : ∀ c c',
  registerBeans_loop bs c = Return tt c' → keyed c →
  keyed c' ∧ c' = set_beansById (beansById c') c ∧
  ∀ k b, beansById c' !! k = Some b → b ∈ bs ∨ beansById c !! k = Some b.
Proof.
  induction bs as [|b bs IH]; intros c c' H Hc; simpl in H.
  - injection H as <-. split_and!; [done|by destruct c|auto].
  - unfold bind at 1, get in H. destruct (beansById c !! _) eqn:Hb; [discriminate|].
    unfold bind, modify in H. apply IH in H as (H1 & H2 & H3).
    + split_and!; [done|by rewrite H2|].
      intros k q Hq. apply H3 in Hq as [Hq|Hq].
      * left. apply elem_of_cons. by right.
      * simpl in Hq. apply lookup_insert_Some in Hq as [[_ <-]|[_ Hq]]; [|by right].
        left. apply elem_of_cons. by left.
    + intros k q Hq. simpl in *. apply lookup_insert_Some in Hq as [[<- <-]|[_ Hq]]; [done|].
      by apply Hc.
Qed.

(** The container [registerBeans] returns is consistent, when the one it
    starts from has the empty indices of a new container and none of the
    registered descriptors is marked Deleted. *)
Lemma registerBeans_consistent c c' :
  beansById c = ∅ → (∀ b, unindexed b c) →
  (∀ b, b ∈ beans c → status (store c b) ≠ Deleted) →
  registerBeans c = Return tt c' → consistent c'.
Proof.
  intros He Hi Hl H. unfold registerBeans, bind, get in H.
  apply registerBeans_loop_keyed in H as (H1 & H2 & H3).
  - split; [done| |].
    + intros k b Hk. rewrite H2. simpl. apply H3 in Hk as [Hk|Hk]; [by apply Hl|].
      by rewrite He, lookup_empty in Hk.
    + intros k b _ _. rewrite H2. apply Hi.
  - intros k b. by rewrite He, lookup_empty.
Qed.

(** C2: a call of [resolveBean] moves the status of every descriptor only
    along Default, Resolving, then Resolved or Deleted, and a status that
    is Resolved or Deleted stays what it is.  This holds, Resolved being
    numbered at or past Resolving, of every call on a descriptor of the
    identity index of a consistent container (the calls [gs.go] makes),
    and of every call at all when Deleted too is numbered at or past
    Resolving.  And, under any numbering, on a descriptor whose status is
    at or past Resolving the call returns nil at once and leaves the
    container as it was. *)
Theorem C2_status_advances_and_reentry_is_noop :
  (code Resolving ≤ code Resolved)%Z →
  (∀ fuel b c k r c', consistent c → beansById c !! k = Some b →
     resolveBean fuel b c = Return r c' →
     consistent c' ∧
     ∀ q, advances (status (store c q)) (status (store c' q)) ∧
          (status (store c q) = Resolved ∨ status (store c q) = Deleted →
           status (store c' q) = status (store c q))) ∧
  ((code Resolving ≤ code Deleted)%Z →
   ∀ fuel b c r c', resolveBean fuel b c = Return r c' →
     ∀ q, advances (status (store c q)) (status (store c' q)) ∧
          (status (store c q) = Resolved ∨ status (store c q) = Deleted →
           status (store c' q) = status (store c q))) ∧
  (∀ fuel b c, (code Resolving ≤ code (status (store c b)))%Z →
     resolveBean (S fuel) b c = Return None c).
Proof.
  intros HR. split_and!.
  - intros fuel b c k r c' Hc Hk H.
    apply (resolveBean_resolution _ _ _ _ _ _ Hk) in H.
    destruct (resolution_consistent _ _ HR H Hc) as [Hc' A].
    split; [done|]. intros q. split; [done|]. intros Hs. by eapply advances_terminal.
  - intros HD fuel b c r c' H q.
    pose proof (resolveBean_advances HR HD _ _ _ _ _ H q) as Ha.
    split; [done|]. intros Hs. by eapply advances_terminal.
  - intros fuel b c Hs. apply resolveBean_settled.
    unfold settled. by apply bool_decide_eq_true.
Qed.

(** ** What lookups return and what wiring is handed *)

Section found.

Variable resolve : addr → M (option error).
Hypothesis resolve_resolution :
  ∀ b c k r c', beansById c !! k = Some b → resolve b c = Return r c' → resolution c c'.

(** A property that resolutions keep, and that holds of a descriptor the
    filter accepted once its resolution has returned without deleting it,
    holds of all that [finder] returns. *)
Lemma finder_loop_found (Q : addr → Container → Prop) fn :
  (∀ q c1 c2, resolution c1 c2 → Q q c1 → Q q c2) →
  ∀ keys result c found err c',
    finder_loop resolve fn keys result c = Return (found, err) c' →
    (∀ q, q ∈ result → Q q c) →
    (∀ c1 k q c2, resolution c c1 → beansById c1 !! k = Some q →
       fn (store c1 q) = true → resolve q c1 = Return None c2 →
       status (store c2 q) ≠ Deleted → Q q c2) →
    ∀ q, q ∈ found → Q q c'.
Proof.
  intros HQ. induction keys as [|k keys IH]; intros result c found err c' H Hres Hfn;
    simpl in H.
  - injection H as <- <- <-. done.
  - unfold bind at 1, get in H.
    destruct (beansById c !! k) as [b|] eqn:Hk; [|eauto].
    destruct (_ && _) eqn:Hc; [|eauto].
    apply andb_true_iff in Hc as [_ Hc].
    apply bind_Return in H as ([e|] & c1 & H1 & H2).
    + injection H2 as <- <- <-. intros q Hq. by apply elem_of_nil in Hq.
    + unfold bind at 1, load in H2.
      pose proof (resolve_resolution _ _ _ _ _ Hk H1) as R.
      assert (∀ c2 k q c3, resolution c1 c2 → beansById c2 !! k = Some q →
                fn (store c2 q) = true → resolve q c2 = Return None c3 →
                status (store c3 q) ≠ Deleted → Q q c3) as Hfn1.
      { intros c2 k' q c3 R2. apply Hfn. by eapply resolution_trans. }
      destruct (bool_decide (status (store c1 b) ≠ Deleted)) eqn:Hd;
        (eapply IH; [exact H2| |exact Hfn1]).
      * apply bool_decide_eq_true in Hd.
        intros q Hq. apply elem_of_app in Hq as [Hq|Hq].
        -- eapply HQ; eauto.
        -- apply list_elem_of_singleton in Hq as ->.
           eapply Hfn; [constructor|done..].
      * intros q Hq. eapply HQ; eauto.
Qed.

Lemma find_with_found_after (Q : addr → Container → Prop) selector c found err c' :
  (∀ q c1 c2, resolution c1 c2 → Q q c1 → Q q c2) →
  find_with resolve selector c = Return (found, err) c' →
  (∀ fn c1 k q c2, resolution c c1 → beansById c1 !! k = Some q →
     filter_of selector fn → fn (store c1 q) = true →
     resolve q c1 = Return None c2 → status (store c2 q) ≠ Deleted → Q q c2) →
  ∀ q, q ∈ found → Q q c'.
Proof.
  intros HQ H Hfn. unfold find_with, callAfterRefreshing, finder in H. msimpl H.
  destruct (bool_decide (state c = Unrefreshed)); [discriminate|].
  destruct (bool_decide (Kind_ _ = String)) eqn:Hs.
  - destruct selector; [|discriminate].
    eapply finder_loop_found; [exact HQ|exact H|by intros q ?%elem_of_nil|].
    intros c1 k q c2 R Hk. eapply Hfn; [done..|]. unfold filter_of. by rewrite Hs.
  - eapply finder_loop_found; [exact HQ|exact H|by intros q ?%elem_of_nil|].
    intros c1 k q c2 R Hk. eapply Hfn; [done..|]. unfold filter_of. by rewrite Hs.
Qed.

(** The same for a property that holds as soon as the filter accepts. *)
Lemma find_with_found (Q : addr → Container → Prop) selector c found err c' :
  (∀ q c1 c2, resolution c1 c2 → Q q c1 → Q q c2) →
  find_with resolve selector c = Return (found, err) c' →
  (∀ fn c1 k q, resolution c c1 → beansById c1 !! k = Some q →
     filter_of selector fn → fn (store c1 q) = true → Q q c1) →
  ∀ q, q ∈ found → Q q c'.
Proof.
  intros HQ H Hfn. eapply find_with_found_after; [exact HQ|exact H|].
  intros fn c1 k q c2 R Hk Hf Hq Hr _. eapply HQ; [by eapply resolve_resolution|].
  by eapply Hfn.
Qed.

End found.

(** [find] returns descriptors of the identity index only. *)
Lemma find_registered fuel selector c found err c' :
  find fuel selector c = Return (found, err) c' →
  ∀ q, q ∈ found → ∃ k, beansById c !! k = Some q.
Proof.
  intros H. eapply (find_with_found _ (resolveBean_resolution fuel)
                      (λ q _, ∃ k, beansById c !! k = Some q)); [done|exact H|].
  intros fn c1 k q R Hk _ _. exists k.
  eapply lookup_weaken; [exact Hk|]. by apply resolution_stable.
Qed.

(** [find] returns no Deleted descriptor, Resolved being numbered at or
    past Resolving: what it returns is at or past Resolving and not
    Deleted when it is added to the result, and stays so. *)
Lemma find_not_Deleted fuel selector c found err c' :
  (code Resolving ≤ code Resolved)%Z →
  find fuel selector c = Return (found, err) c' →
  ∀ q, q ∈ found → status (store c' q) ≠ Deleted.
Proof.
  intros HR H q Hq.
  enough (settled (store c' q) = true ∧ status (store c' q) ≠ Deleted) as [_ Hd] by exact Hd.
  revert q Hq.
  eapply (find_with_found_after _ (resolveBean_resolution fuel)
            (λ q c1, settled (store c1 q) = true ∧ status (store c1 q) ≠ Deleted));
    [|exact H|].
  - intros q c1 c2 R [Hs Hd].
    by rewrite (frozen_store _ _ _ (resolution_frozen _ _ R q Hs)).
  - intros fn c1 k q c2 R Hk _ _ Hr Hd. split; [|done].
    apply resolveBean_Return in Hr as [(Hs & _ & ->)|(_ & fuel' & ok & c3 & _ & _ & Hf)];
      [done|].
    apply finish_status in Hf. rewrite Hf in *. unfold settled.
    destruct ok; [|done]. rewrite Hf. by apply bool_decide_eq_true.
Qed.

(** [wireBeans] hands to the injection mechanism descriptors of the
    identity index only, and changes nothing but the record of events. *)
Lemma wireBeans_loop_events keys assembly c r c' :
  wireBeans_loop keys assembly c = Return r c' →
  ∃ bs, c' = set_events (events c ++ (WireBean <$> bs)) c ∧
        ∀ q, q ∈ bs → ∃ k, beansById c !! k = Some q.
Proof.
  revert assembly c. induction keys as [|k keys IH]; intros assembly c H; simpl in H.
  - injection H as <- <-. exists []. split; [|by intros q ?%elem_of_nil].
    simpl. rewrite app_nil_r. by destruct c.
  - unfold bind at 1, get in H.
    destruct (beansById c !! k) as [b|] eqn:Hk; [|eauto].
    unfold bind at 1, emit, modify in H.
    destruct (wireBean b assembly).2.
    + injection H as <- <-. exists [b]. split; [done|].
      intros q Hq. apply list_elem_of_singleton in Hq as ->. eauto.
    + apply IH in H as (bs & -> & Hbs). exists (b :: bs). split.
      * simpl. by rewrite <- app_assoc.
      * intros q Hq. apply elem_of_cons in Hq as [->|Hq]; [eauto|]. by apply Hbs.
Qed.

Lemma wireBeans_events assembly c r c' :
  wireBeans assembly c = Return r c' →
  ∃ bs, c' = set_events (events c ++ (WireBean <$> bs)) c ∧
        ∀ q, q ∈ bs → ∃ k, beansById c !! k = Some q.
Proof. unfold wireBeans, bind, get. apply wireBeans_loop_events. Qed.

(** ** A descriptor whose condition does not hold *)

Lemma resolution_unregistered b c c' :
  resolution c c' → unregistered b c → unregistered b c' ∧ frozen b c c'.
Proof.
  intros R Hb. split.
  - intros k Hk. apply (Hb k). eapply lookup_weaken; [exact Hk|].
    by apply resolution_stable.
  - induction R as [c|c1 c2 c3 R1 IH1 _ IH2|c k b' c2 ok r c3 Hk Hs _ IH Hf].
    + apply frozen_refl.
    + eapply frozen_trans; [by apply IH1|]. apply IH2.
      intros k Hk. apply (Hb k). eapply lookup_weaken; [exact Hk|].
      by apply resolution_stable.
    + assert (b ≠ b') as Hne by (intros ->; by apply (Hb k)).
      eapply frozen_trans; [eapply touches_frozen; [apply touches_enter|done]|].
      eapply frozen_trans; [by apply IH|].
      eapply touches_frozen; [eapply finish_touches, Hf|done].
Qed.

Lemma resolution_gone b c c' : resolution c c' → gone b c → gone b c'.
Proof.
  intros R (Hr & Hi & Hs).
  destruct (resolution_unregistered _ _ _ R Hr) as [Hr' F].
  split_and!; [done|by eapply frozen_unindexed|].
  by rewrite (frozen_store _ _ _ F).
Qed.

Lemma gone_removed b c : keyed c → unindexed b c → gone b (removed b c).
Proof.
  intros Hc Hi. split_and!.
  - intros k Hk. simpl in Hk.
    destruct (decide (k = ID (store c b))) as [->|Hne].
    + by rewrite lookup_delete_eq in Hk.
    + rewrite lookup_delete_ne in Hk by done. apply Hc in Hk. done.
  - exact Hi.
  - simpl. by rewrite fn_lookup_insert.
Qed.

(** C1: when the condition of a descriptor that is yet to be resolved (and
    so far in no index by type or name) evaluates false, [resolveBean]
    returns nil having removed it from the identity index and marked it
    Deleted; from then on, through every further resolution, it stays
    Deleted, outside the identity index, under no type and under no name,
    no [find] returns it, and [wireBeans] never hands it to the injection
    mechanism.  Nor does any [find], whenever it started, return a
    descriptor that is Deleted when it returns (Resolved being numbered at
    or past Resolving). *)
Theorem C1_false_condition_deletes fuel b c k c2 :
  keyed c →
  settled (store c b) = false →
  unindexed b c →
  cond (store c b) = Some k →
  Matches (find fuel) k (enter b c) = Return false c2 →
  resolveBean (S fuel) b c = Return None (removed b c2) ∧
  gone b (removed b c2) ∧
  (∀ c3, resolution (removed b c2) c3 →
    gone b c3 ∧
    (∀ fuel' selector found err c4,
       find fuel' selector c3 = Return (found, err) c4 → b ∉ found) ∧
    (∀ assembly r c4, wireBeans assembly c3 = Return r c4 →
       ∃ bs, events c4 = events c3 ++ (WireBean <$> bs) ∧ b ∉ bs)) ∧
  ((code Resolving ≤ code Resolved)%Z →
   ∀ fuel' selector c3 found err c4,
     find fuel' selector c3 = Return (found, err) c4 →
     ∀ q, q ∈ found → status (store c4 q) ≠ Deleted).
Proof.
  intros Hc Hs Hi Hk Hm.
  assert (resolution (enter b c) c2) as R.
  { eapply Matches_resolution; [apply resolveBean_resolution|exact Hm]. }
  assert (gone b (removed b c2)) as Hg.
  { apply gone_removed.
    - eapply stable_keyed; [by apply resolution_stable|].
      eapply stable_keyed; [eapply touches_stable, touches_enter|done].
    - eapply frozen_unindexed; [apply resolution_frozen; [exact R|apply settled_enter]|].
      exact Hi. }
  split_and!; [|done| |].
  - rewrite resolveBean_unfold, Hs. unfold evalCond. rewrite Hk.
    unfold bind. by rewrite Hm.
  - intros c3 R3. pose proof (resolution_gone _ _ _ R3 Hg) as (Hr3 & Hi3 & Hs3).
    split_and!; [done| |].
    + intros fuel' selector found err c4 Hf Hb.
      destruct (find_registered _ _ _ _ _ _ Hf _ Hb) as [k' Hk']. by apply (Hr3 k').
    + intros assembly r c4 Hw. apply wireBeans_events in Hw as (bs & -> & Hbs).
      exists bs. split; [done|]. intros Hb.
      destruct (Hbs _ Hb) as [k' Hk']. by apply (Hr3 k').
  - intros HR fuel' selector c3 found err c4 Hf. by eapply find_not_Deleted.
Qed.

(** ** Exports *)

(** What [autoExport] adds to the exports are interface types. *)
Lemma autoExport_interfaces t b c r c' :
  autoExport t b c = Return r c' →
  ∀ u, u ∈ exports (store c' b) → u ∈ exports (store c b) ∨ Kind_ u = Interface.
Proof.
  revert c r c'. induction t as [k n|n|e IHe|n fs IHfs] using rtype_Indirect_ind;
    intros c r c' H; try discriminate.
  rewrite autoExport_StructOf in H. revert c r c' H.
  induction IHfs as [|f fs Hf _ IH]; intros c r c' H; simpl in H.
  - injection H as <- <-. auto.
  - destruct (negb (has_tag f "export")).
    + destruct (_ || _); [eauto|].
      destruct (bool_decide _); [|eauto].
      apply bind_Return in H as ([e|] & c1 & H1 & H2).
      * injection H2 as <- <-. eauto.
      * intros u Hu. destruct (IH _ _ _ H2 u Hu) as [Hu1|]; [|by right]. eauto.
    + destruct (bool_decide (Kind_ (Type_ f) ≠ Interface)) eqn:Hk;
        [injection H as <- <-; auto|].
      apply bool_decide_eq_false in Hk. apply dec_stable in Hk.
      destruct (_ && _); [injection H as <- <-; auto|].
      apply bind_Return in H as ([] & c1 & H1 & H2).
      intros u Hu. destruct (IH _ _ _ H2 u Hu) as [Hu1|]; [|by right].
      msimpl H1. destruct (bool_decide _); injection H1 as <-; [by left|].
      simpl in Hu1. rewrite fn_lookup_insert in Hu1. simpl in Hu1.
      apply elem_of_app in Hu1 as [Hu1|Hu1]; [by left|].
      apply list_elem_of_singleton in Hu1 as ->. by right.
Qed.

Lemma autoExport_of_interfaces b c r c' :
  autoExport_of b c = Return r c' →
  ∀ u, u ∈ exports (store c' b) → u ∈ exports (store c b) ∨ Kind_ u = Interface.
Proof.
  unfold autoExport_of, bind, load. destruct (bool_decide _).
  - destruct (autoExport _ b c) eqn:E; try discriminate.
    intros [= -> ->]. by eapply autoExport_interfaces.
  - intros [= <- <-]. auto.
Qed.

(** C9: a [find] whose selector stands for an interface type returns only
    descriptors whose export set holds that very type; in particular a
    Resolved descriptor whose exports do not hold it is not returned,
    whatever its concrete type implements (Resolved being at or past
    Resolving in the numbering of the constants). *)
Theorem C9_interface_selector_needs_export fuel selector I c found err c' :
  selected_type (TypeOf selector) = I →
  Kind_ I = Interface →
  find fuel selector c = Return (found, err) c' →
  (∀ q, q ∈ found → I ∈ exports (store c' q)) ∧
  (∀ q, (code Resolving ≤ code Resolved)%Z → status (store c q) = Resolved →
        I ∉ exports (store c q) → q ∉ found).
Proof.
  intros HI Hk H.
  assert (bool_decide (Kind_ (TypeOf selector) = String) = false) as Hns.
  { apply bool_decide_eq_false. intros Hs. destruct selector as [s|t]; simpl in *.
    - subst I. discriminate.
    - destruct t as [[] ?| | |]; simpl in *; try discriminate; subst I; discriminate. }
  assert (bool_decide (Kind_ I ≠ Interface) = false) as Hki.
  { apply bool_decide_eq_false. intros Hne. by apply Hne. }
  split.
  - eapply (find_with_found _ (resolveBean_resolution fuel)
              (λ q c1, I ∈ exports (store c1 q))); [|exact H|].
    + intros q c1 c2 R Hq. by apply (stable_exports _ _ (resolution_stable _ _ R)).
    + intros fn c1 k q R Hq Hfn. unfold filter_of in Hfn.
      rewrite Hns, HI, Hki in Hfn. subst fn. simpl.
      destruct (negb _); [discriminate|]. by intros ?%bool_decide_eq_true.
  - intros q HR Hq Hn Hin.
    assert (settled (store c q) = true) as Hs.
    { unfold settled. rewrite Hq. by apply bool_decide_eq_true. }
    eapply (find_with_found _ (resolveBean_resolution fuel) (λ q' _, q' ≠ q));
      [done|exact H| |exact Hin|done].
    intros fn c1 k q' R Hq' Hfn Ht ->. unfold filter_of in Hfn.
    rewrite Hns, HI, Hki in Hfn. subst fn.
    rewrite (frozen_store _ _ _ (resolution_frozen _ _ R _ Hs)) in Ht.
    destruct (negb _); [discriminate|]. by apply bool_decide_eq_true in Ht.
Qed.

(** ** The outcome of the export step *)

Lemma beansById_indexed_under_all b ts c :
  beansById (indexed_under_all b ts c) = beansById c.
Proof. revert c. induction ts as [|t ts IH]; intros c; simpl; [done|]. by rewrite IH. Qed.

Lemma beansByName_indexed_under_all b ts c :
  beansByName (indexed_under_all b ts c) = beansByName c.
Proof. revert c. induction ts as [|t ts IH]; intros c; simpl; [done|]. by rewrite IH. Qed.

Lemma elem_of_indexed_under b c t : b ∈ beansByType (indexed_under b c t) t.
Proof. simpl. rewrite fn_lookup_insert, elem_of_app, list_elem_of_singleton. by right. Qed.

Lemma elem_of_indexed_under_all b ts c t :
  t ∈ ts → b ∈ beansByType (indexed_under_all b ts c) t.
Proof.
  revert c. induction ts as [|u ts IH]; intros c Ht; [by apply elem_of_nil in Ht|].
  apply elem_of_cons in Ht as [->|Ht]; simpl; [|by apply IH].
  apply (touches_byType_own _ _ _ (touches_indexed_under_all b ts _)).
  apply elem_of_indexed_under.
Qed.

Section export_step.

Context {fuel : nat} {b : addr} {c c2 c3 : Container}.
Hypothesis at_step : at_exports fuel b c c2 c3.

Lemma at_exports_frozen : frozen b (enter b c) c2.
Proof.
  destruct at_step as [_ H _]. apply evalCond_resolution in H.
  apply resolution_frozen; [done|apply settled_enter].
Qed.

Lemma at_exports_store2 : store c2 b = with_status Resolving (store c b).
Proof. rewrite (frozen_store _ _ _ at_exports_frozen). simpl. by rewrite fn_lookup_insert. Qed.

Lemma at_exports_only : exports_only b (indexed_under b c2 (Type' (store c2 b))) c3.
Proof. destruct at_step as [_ _ H]. by apply autoExport_of_exports_only in H. Qed.

Lemma at_exports_status : status (store c3 b) = Resolving.
Proof.
  destruct at_exports_only as (_ & _ & _ & _ & ->). simpl. by rewrite at_exports_store2.
Qed.

Lemma at_exports_Type : Type' (store c3 b) = Type' (store c b).
Proof.
  destruct at_exports_only as (T & _). rewrite (touches_Type _ _ _ T). simpl.
  by rewrite at_exports_store2.
Qed.

Lemma at_exports_Description : Description (store c3 b) = Description (store c b).
Proof.
  destruct at_exports_only as (T & _). rewrite (touches_Description _ _ _ T). simpl.
  by rewrite at_exports_store2.
Qed.

Lemma at_exports_declared : exports (store c b) ⊆ exports (store c3 b).
Proof.
  destruct at_exports_only as (T & _). etrans; [|apply (touches_exports _ _ _ T)]. simpl.
  by rewrite at_exports_store2.
Qed.

Lemma at_exports_interfaces :
  Forall (λ t, Kind_ t = Interface) (exports (store c b)) →
  Forall (λ t, Kind_ t = Interface) (exports (store c3 b)).
Proof.
  intros Hc. apply list.Forall_forall. intros t Ht.
  destruct at_step as [_ _ H0].
  destruct (autoExport_of_interfaces _ _ _ _ H0 t Ht) as [H|H]; [|done].
  simpl in H. rewrite at_exports_store2 in H. simpl in H.
  by apply (proj1 (list.Forall_forall _ _) Hc).
Qed.

Lemma at_exports_byType : b ∈ beansByType c3 (Type' (store c b)).
Proof.
  destruct at_exports_only as (_ & _ & -> & _).
  rewrite <- (f_equal Type' at_exports_store2) at 1. simpl.
  rewrite at_exports_store2. simpl. rewrite fn_lookup_insert, elem_of_app, list_elem_of_singleton.
  by right.
Qed.

Lemma at_exports_byName n : b ∈ beansByName c3 !!! n ↔ b ∈ beansByName c !!! n.
Proof.
  destruct at_exports_only as (_ & _ & _ & -> & _). simpl.
  by rewrite (frozen_byName _ _ _ at_exports_frozen).
Qed.

Lemma at_exports_byId : keyed c →
  ∀ k, beansById c !! k = Some b → beansById c3 !! k = Some b.
Proof.
  intros Hc k Hk. destruct at_exports_only as (_ & -> & _). simpl.
  destruct at_step as [_ H _]. apply evalCond_resolution in H.
  eapply resolution_registered; [exact H| |apply settled_enter|done].
  eapply stable_keyed; [eapply touches_stable, touches_enter|done].
Qed.

(** [resolveBean] from the export step on. *)
Lemma at_exports_resolveBean :
  resolveBean (S fuel) b c =
    (let* err := indexExports b (rangeExports (exports (store c3 b))) in
     match err with
     | Some e => ret (Some e)
     | None => λ c, Return None (named_resolved b c)
     end) c3.
Proof.
  destruct at_step as [Hs Hc Ha].
  rewrite resolveBean_unfold, Hs. unfold bind at 1. rewrite Hc, finish_true.
  unfold bind at 1. rewrite Ha. reflexivity.
Qed.

End export_step.

(** The first export of a list that the type does not implement. *)
Lemma first_not_implemented (d : BeanDefinition) (l : list rtype) :
  Forall (λ t, Kind_ t = Interface) l →
  (∃ t, t ∈ l ∧ implements (Type' d) t = false) →
  ∃ pre t post, l = pre ++ t :: post ∧ Forall (exportable d) pre ∧
    Kind_ t = Interface ∧ implements (Type' d) t = false.
Proof.
  induction l as [|u l IH]; intros Hl (t & Ht & Hi); [by apply elem_of_nil in Ht|].
  apply Forall_cons_1 in Hl as [Hu Hl].
  destruct (implements (Type' d) u) eqn:Hiu.
  - apply elem_of_cons in Ht as [->|Ht]; [congruence|].
    destruct IH as (pre & t' & post & -> & Hpre & Hk & Hi'); [done|by eauto|].
    exists (u :: pre), t', post. split_and!; try done. by constructor.
  - exists [], u, l. split_and!; done.
Qed.

(** C4, as amended: take a descriptor whose resolution reaches the loop
    over its exports (it was below Resolving, its condition is absent or
    held, auto-export returned no error), all its declared exports being
    interface types, the range over the exports visiting each of them.
    If its type does not implement one of its declared exports,
    [resolveBean] returns the error made of the descriptor's description
    and of the name of an export the type does not implement.  If the type
    implements every export, [resolveBean] returns nil and the descriptor
    is indexed under each of them. *)
Theorem C4_unimplemented_export_is_an_error fuel b c c2 c3 :
  (∀ l t, t ∈ rangeExports l ↔ t ∈ l) →
  at_exports fuel b c c2 c3 →
  Forall (λ t, Kind_ t = Interface) (exports (store c b)) →
  ((∃ t, t ∈ exports (store c b) ∧ implements (Type' (store c b)) t = false) →
   ∃ t c', t ∈ exports (store c3 b) ∧ implements (Type' (store c b)) t = false ∧
     resolveBean (S fuel) b c =
       Return (Some (Description (store c b) +:+ " not implement " +:+ String_ t
                     +:+ " interface")) c') ∧
  ((∀ t, t ∈ exports (store c3 b) → implements (Type' (store c b)) t = true) →
   ∃ c', resolveBean (S fuel) b c = Return None c' ∧
     ∀ t, t ∈ exports (store c3 b) → b ∈ beansByType c' t).
Proof.
  intros Hrange Hat Hk. rewrite (at_exports_resolveBean Hat).
  pose proof (at_exports_interfaces Hat Hk) as Hk3.
  split.
  - intros (t & Ht & Hi).
    destruct (first_not_implemented (store c3 b) (rangeExports (exports (store c3 b))))
      as (pre & t' & post & Hl & Hpre & Hk' & Hi').
    { apply list.Forall_forall. intros u Hu. apply (proj1 (Hrange _ _)) in Hu.
      by apply (proj1 (list.Forall_forall _ _) Hk3). }
    { exists t. rewrite Hrange, (at_exports_Type Hat). split; [|done].
      by apply (at_exports_declared Hat). }
    exists t', (indexed_under_all b pre c3). split_and!.
    + apply Hrange. rewrite Hl, elem_of_app, elem_of_cons. auto.
    + by rewrite <- (at_exports_Type Hat).
    + unfold bind. rewrite Hl, (indexExports_fail _ _ _ _ _ Hpre Hk' Hi').
      unfold not_implement. by rewrite (at_exports_Description Hat).
  - intros Hall. eexists. unfold bind. rewrite indexExports_ok.
    + split; [reflexivity|]. intros t Ht.
      apply (touches_byType_own _ _ _ (touches_named_resolved b _)).
      apply elem_of_indexed_under_all. by apply Hrange.
    + apply list.Forall_forall. intros u Hu. apply (proj1 (Hrange _ _)) in Hu. split.
      * by apply (proj1 (list.Forall_forall _ _) Hk3).
      * rewrite (at_exports_Type Hat). by apply Hall.
Qed.

(** C10: when [resolveBean] fails on an export its bean's type does not
    implement, with [pre] the exports the loop visited before it, the
    descriptor is left at Resolving, still in the identity index, indexed
    under its concrete type and under each export of [pre], and under no
    name; it is never named later either, for it stays at Resolving
    through every further resolution, and resolving it again does
    nothing. *)
Theorem C10_failed_resolution_is_not_rolled_back fuel b c c2 c3 pre t post :
  keyed c →
  (∀ n, b ∉ beansByName c !!! n) →
  at_exports fuel b c c2 c3 →
  rangeExports (exports (store c3 b)) = pre ++ t :: post →
  Forall (exportable (store c3 b)) pre →
  Kind_ t = Interface →
  implements (Type' (store c3 b)) t = false →
  ∃ c', resolveBean (S fuel) b c = Return (Some (not_implement (store c b) t)) c' ∧
    status (store c' b) = Resolving ∧
    (∀ k, beansById c !! k = Some b → beansById c' !! k = Some b) ∧
    b ∈ beansByType c' (Type' (store c b)) ∧
    (∀ u, u ∈ pre → b ∈ beansByType c' u) ∧
    (∀ c'', resolution c' c'' →
       status (store c'' b) = Resolving ∧ ∀ n, b ∉ beansByName c'' !!! n) ∧
    (∀ fuel', resolveBean (S fuel') b c' = Return None c').
Proof.
  intros Hc Hn Hat Hl Hpre Hk Hi. exists (indexed_under_all b pre c3).
  assert (status (store (indexed_under_all b pre c3) b) = Resolving) as Hst.
  { rewrite store_indexed_under_all. apply (at_exports_status Hat). }
  split_and!.
  - rewrite (at_exports_resolveBean Hat). unfold bind.
    rewrite Hl, (indexExports_fail _ _ _ _ _ Hpre Hk Hi).
    unfold not_implement. by rewrite (at_exports_Description Hat).
  - exact Hst.
  - intros k Hk0. rewrite beansById_indexed_under_all. by apply (at_exports_byId Hat).
  - apply (touches_byType_own _ _ _ (touches_indexed_under_all b pre c3)).
    apply (at_exports_byType Hat).
  - intros u Hu. by apply elem_of_indexed_under_all.
  - intros c'' R.
    pose proof (resolution_frozen _ _ R b (settled_Resolving _ Hst)) as F.
    split; [by rewrite (frozen_store _ _ _ F)|].
    intros n. rewrite (frozen_byName _ _ _ F), beansByName_indexed_under_all.
    rewrite (at_exports_byName Hat). apply Hn.
  - intros fuel'. apply resolveBean_settled. by apply settled_Resolving.
Qed.

(** ** Building the identity index *)

Lemma registerBeans_loop_duplicate bs : ∀ seen c,
  (∀ k x, beansById c !! k = Some x → ID (store c x) = k ∧ x ∈ seen) →
  (∀ x, x ∈ seen → is_Some (beansById c !! ID (store c x))) →
  (∃ i j x y, (i < j)%nat ∧ (seen ++ bs) !! i = Some x ∧ (seen ++ bs) !! j = Some y ∧
     (length seen ≤ j)%nat ∧ ID (store c x) = ID (store c y)) →
  ∃ i j x y, (i < j)%nat ∧ (seen ++ bs) !! i = Some x ∧ (seen ++ bs) !! j = Some y ∧
    ID (store c x) = ID (store c y) ∧
    registerBeans_loop bs c = Panicked (duplicate_beans c y x).
Proof.
  induction bs as [|y bs IH];
    intros seen c Hin Hseen (i & j & x0 & y0 & Hij & Hi & Hj & Hlen & Hid).
  - rewrite app_nil_r in Hj. apply lookup_lt_Some in Hj. lia.
  - simpl. unfold bind at 1, get.
    destruct (beansById c !! ID (store c y)) as [d|] eqn:Hy.
    + destruct (Hin _ _ Hy) as [Hd Hds].
      apply list_elem_of_lookup in Hds as [i' Hi'].
      exists i', (length seen), d, y. split_and!.
      * by apply lookup_lt_Some in Hi'.
      * by apply lookup_app_l_Some.
      * by rewrite list_lookup_middle.
      * done.
      * done.
    + unfold bind, modify.
      set (c1 := set_beansById (<[ID (store c y) := y]> (beansById c)) c).
      destruct (IH (seen ++ [y]) c1) as (i' & j' & x' & y' & H1 & H2 & H3 & H4 & H5).
      * intros k x Hk. simpl in Hk. apply lookup_insert_Some in Hk as [[<- <-]|[Hne Hk]].
        -- split; [done|]. apply elem_of_app. right. by apply list_elem_of_singleton.
        -- destruct (Hin _ _ Hk). split; [done|]. apply elem_of_app. by left.
      * intros x Hx. simpl. apply elem_of_app in Hx as [Hx|Hx].
        -- apply lookup_insert_is_Some'. right. by apply Hseen.
        -- apply list_elem_of_singleton in Hx as ->. apply lookup_insert_is_Some'. by left.
      * exists i, j, x0, y0. rewrite <- app_assoc. simpl. split_and!; try done.
        rewrite length_app. simpl.
        destruct (decide (j = length seen)) as [->|]; [|lia]. exfalso.
        rewrite list_lookup_middle in Hj by done. injection Hj as <-.
        rewrite lookup_app_l in Hi by done.
        apply list_elem_of_lookup_2, Hseen in Hi. rewrite Hid, Hy in Hi.
        by destruct Hi.
      * rewrite <- app_assoc in H2, H3. simpl in H2, H3. eauto 10.
Qed.

Lemma registerBeans_loop_distinct bs : ∀ c,
  NoDup ((λ b, ID (store c b)) <$> bs) →
  (∀ b, b ∈ bs → beansById c !! ID (store c b) = None) →
  ∃ c', registerBeans_loop bs c = Return tt c' ∧ store c' = store c ∧
    (∀ b, b ∈ bs → beansById c' !! ID (store c b) = Some b) ∧
    (∀ k, (∀ b, b ∈ bs → ID (store c b) ≠ k) → beansById c' !! k = beansById c !! k).
Proof.
  induction bs as [|y bs IH]; intros c Hnd Hfree.
  - exists c. split_and!; try done. by intros b ?%elem_of_nil.
  - simpl. unfold bind at 1, get. rewrite Hfree by (apply elem_of_cons; by left).
    unfold bind, modify.
    set (c1 := set_beansById (<[ID (store c y) := y]> (beansById c)) c).
    rewrite fmap_cons in Hnd. apply list.NoDup_cons in Hnd as [Hy Hnd].
    destruct (IH c1) as (c' & H1 & H2 & H3 & H4).
    + exact Hnd.
    + intros b Hb. simpl. rewrite lookup_insert_ne.
      * apply Hfree, elem_of_cons. by right.
      * intros E. apply Hy. rewrite E. apply list_elem_of_fmap. eauto.
    + exists c'. split_and!; [done|done| |].
      * intros b Hb. apply elem_of_cons in Hb as [->|Hb]; [|by apply H3].
        rewrite H4; [simpl; by rewrite lookup_insert_eq|].
        intros b Hb E. apply Hy. simpl in E. rewrite <- E. apply list_elem_of_fmap. eauto.
      * intros k Hk. rewrite H4.
        -- simpl. rewrite lookup_insert_ne; [done|]. apply Hk, elem_of_cons. by left.
        -- intros b Hb. apply Hk, elem_of_cons. by right.
Qed.

(** C3: building the identity index, from the empty index a container has
    before refresh.  If two registrations have the same identity,
    [registerBeans] panics, and the panic message is made of the
    descriptions of two registrations with the same identity; if all
    identities are distinct, it returns, and every registered descriptor
    is in the identity index under its identity. *)
Theorem C3_duplicate_identity_is_fatal c :
  beansById c = ∅ →
  ((∃ i j x y, conflict c i j x y) →
   ∃ i j x y, conflict c i j x y ∧
     registerBeans c =
       Panicked ("found duplicate beans [" +:+ Description (store c y) +:+ "] ["
                 +:+ Description (store c x) +:+ "]")) ∧
  (NoDup ((λ b, ID (store c b)) <$> beans c) →
   ∃ c', registerBeans c = Return tt c' ∧
     ∀ b, b ∈ beans c → beansById c' !! ID (store c b) = Some b).
Proof.
  intros Hempty. unfold registerBeans, bind, get. split.
  - intros (i & j & x & y & Hij & Hi & Hj & Hid).
    destruct (registerBeans_loop_duplicate (beans c) [] c)
      as (i' & j' & x' & y' & H1 & H2 & H3 & H4 & H5).
    + intros k x0. by rewrite Hempty, lookup_empty.
    + by intros x0 ?%elem_of_nil.
    + exists i, j, x, y. simpl. split_and!; try done. lia.
    + exists i', j', x', y'. split; [done|exact H5].
  - intros Hnd. destruct (registerBeans_loop_distinct (beans c) c) as (c' & H1 & _ & H3 & _).
    + exact Hnd.
    + intros b _. by rewrite Hempty, lookup_empty.
    + eauto.
Qed.

(** ** Auto-export through embedded structs *)

Lemma autoExport_fields_surfaces b fs : ∀ c c',
  autoExport_fields b fs c = Return None c' →
  ∀ f, f ∈ fs →
    (has_tag f "export" = true → Type_ f ∈ exports (store c' b)) ∧
    (has_tag f "export" = false → has_tag f "inject" = false →
     has_tag f "autowire" = false → Anonymous f = true →
     Kind_ (Indirect (Type_ f)) = Struct →
     ∃ c1 c2, autoExport (Indirect (Type_ f)) b c1 = Return None c2 ∧
       exports (store c2 b) ⊆ exports (store c' b)).
Proof.
  induction fs as [|g fs IH]; intros c c' H f Hf; [by apply elem_of_nil in Hf|].
  simpl in H.
  assert (∀ c1, autoExport_fields b fs c1 = Return None c' →
            exports (store c1 b) ⊆ exports (store c' b)) as Hmono'.
  { intros c1 H1. change (autoExport_fields b fs) with (autoExport (StructOf "" fs) b) in H1.
    apply autoExport_exports_only in H1 as [T _]. apply (touches_exports _ _ _ T). }
  apply elem_of_cons in Hf as [->|Hf].
  - destruct (has_tag g "export") eqn:He; simpl in H.
    + split; [intros _|discriminate].
      destruct (bool_decide _); [discriminate|].
      destruct (has_tag g "inject" || has_tag g "autowire"); [discriminate|].
      apply bind_Return in H as ([] & c1 & H1 & H2).
      apply Hmono' in H2. apply H2. msimpl H1.
      destruct (bool_decide (Type_ g ∈ _)) eqn:Hin; injection H1 as <-.
      * by apply bool_decide_eq_true in Hin.
      * simpl. rewrite fn_lookup_insert. simpl. apply elem_of_app. right.
        by apply list_elem_of_singleton.
    + split; [discriminate|]. intros _ Hi Ha Han Hk.
      rewrite Hi, Ha, Han in H. simpl in H. rewrite bool_decide_true in H by done.
      apply bind_Return in H as ([e|] & c1 & H1 & H2); [discriminate|].
      exists c, c1. split; [done|]. by apply Hmono'.
  - destruct (negb (has_tag g "export")).
    + destruct (_ || _); [by eapply IH|].
      destruct (bool_decide _); [|by eapply IH].
      apply bind_Return in H as ([e|] & c1 & H1 & H2); [discriminate|]. by eapply IH.
    + destruct (bool_decide _); [discriminate|].
      destruct (_ && _); [discriminate|].
      apply bind_Return in H as ([] & c1 & H1 & H2). by eapply IH.
Qed.

Lemma autoExport_surfaces t b c c' :
  autoExport t b c = Return None c' →
  (∀ I, exports_field t I → I ∈ exports (store c' b)) ∧
  (∀ u, embedded_in u t → ∃ c1 c2, autoExport u b c1 = Return None c2 ∧
          exports (store c2 b) ⊆ exports (store c' b)).
Proof.
  intros H. split.
  - intros I (n & fs & f & -> & Hf & He & <-).
    rewrite autoExport_StructOf in H.
    by apply (autoExport_fields_surfaces _ _ _ _ H f Hf).
  - intros u (n & fs & g & -> & Hg & He & Hi & Ha & Han & <- & Hk).
    rewrite autoExport_StructOf in H.
    by apply (autoExport_fields_surfaces _ _ _ _ H g Hg).
Qed.

(** A field with an injection tag and no export tag counts for nothing. *)
Lemma autoExport_fields_skip b pre g post c :
  has_tag g "export" = false →
  has_tag g "inject" = true ∨ has_tag g "autowire" = true →
  autoExport_fields b (pre ++ g :: post) c = autoExport_fields b (pre ++ post) c.
Proof.
  intros He Hi. revert c. induction pre as [|f pre IH]; intros c; simpl.
  - rewrite He. simpl. destruct Hi as [-> | ->]; by rewrite ?orb_true_r.
  - destruct (negb (has_tag f "export")).
    + destruct (_ || _); [apply IH|].
      destruct (bool_decide _); [|apply IH].
      unfold bind. destruct (autoExport _ b c) as [[e|] c1| | |]; try done; apply IH.
    + destruct (bool_decide _); [done|].
      destruct (_ && _); [done|].
      unfold bind. destruct (Export b (Type_ f) c) as [[] c1| | |]; try done; apply IH.
Qed.

(** C5: when auto-export over the struct [A] returns without error, the
    interface of an export-tagged field of [C], where [C] is embedded in
    [B] and [B] in [A] through anonymous, untagged struct fields, is among
    the exports of the bean; so it is after the auto-export step of
    [resolveBean] on a bean whose type is [A] or a pointer to [A].  And an
    embedded field that carries an [inject] or [autowire] tag (and no
    [export] tag) is passed over, so that auto-export does what it would
    do if the field were not there: nothing below it is exported. *)
Theorem C5_auto_export_through_embedding b :
  (∀ A B C I c c',
     embedded_in B A → embedded_in C B → exports_field C I →
     autoExport A b c = Return None c' →
     I ∈ exports (store c' b)) ∧
  (∀ A B C I c c',
     embedded_in B A → embedded_in C B → exports_field C I →
     Indirect (Type' (store c b)) = A →
     autoExport_of b c = Return None c' →
     I ∈ exports (store c' b)) ∧
  (∀ n pre g post c,
     has_tag g "export" = false →
     has_tag g "inject" = true ∨ has_tag g "autowire" = true →
     autoExport (StructOf n (pre ++ g :: post)) b c =
     autoExport (StructOf n (pre ++ post)) b c).
Proof.
  assert (∀ A B C I c c',
     embedded_in B A → embedded_in C B → exports_field C I →
     autoExport A b c = Return None c' → I ∈ exports (store c' b)) as Hchain.
  { intros A B C I c c' HBA HCB HI H.
    apply autoExport_surfaces in H as [_ H].
    destruct (H B HBA) as (c1 & c2 & HB & Hsub).
    apply autoExport_surfaces in HB as [_ HB].
    destruct (HB C HCB) as (c3 & c4 & HC & Hsub').
    apply autoExport_surfaces in HC as [HC _].
    apply Hsub, Hsub'. by apply HC. }
  split_and!.
  - exact Hchain.
  - intros A B C I c c' HBA HCB HI HA H. unfold autoExport_of, bind, load in H.
    rewrite HA in H. destruct HBA as (n & fs & g & -> & HBA). simpl in H.
    eapply (Hchain (StructOf n fs) B C I); [by eexists _, _, _|done..].
  - intros n pre g post c He Hi. rewrite !autoExport_StructOf.
    by apply autoExport_fields_skip.
Qed.

(** ** Phase gating *)

Lemma callBeforeRefreshing_panics {A} (k : unit → M A) c :
  state c ≠ Unrefreshed →
  bind callBeforeRefreshing k c = Panicked "should call before Refreshing".
Proof.
  intros H. unfold callBeforeRefreshing, bind, get. by rewrite bool_decide_true.
Qed.

Lemma callAfterRefreshing_panics {A} (k : unit → M A) c :
  state c = Unrefreshed →
  bind callAfterRefreshing k c = Panicked "should call after Refreshing".
Proof.
  intros H. unfold callAfterRefreshing, bind, get. by rewrite bool_decide_true.
Qed.

Lemma callAfterRefreshing_passes {A} (k : unit → M A) c :
  state c ≠ Unrefreshed → bind callAfterRefreshing k c = k tt c.
Proof.
  intros H. unfold callAfterRefreshing, bind, get. by rewrite bool_decide_false.
Qed.

Lemma Refresh_refreshed fuel c c' : Refresh fuel c = Return tt c' → state c' = Refreshed.
Proof.
  unfold Refresh. unfold bind at 1, get.
  destruct (bool_decide _); [discriminate|]. intros H.
  do 10 (apply bind_Return in H as (? & ? & _ & H)).
  msimpl H. destruct (bool_decide _); by injection H as <-.
Qed.

(** C6: while the container is not Unrefreshed, each of [Object],
    [Provide], [Register], [Config], [Load] and [Property] panics with
    "should call before Refreshing", and [Refresh] panics with "already
    refreshed"; while it is Unrefreshed, [find] panics with "should call
    after Refreshing"; and after a [Refresh] that returned, a second
    [Refresh] panics with "already refreshed". *)
Theorem C6_phase_gating c :
  (state c ≠ Unrefreshed →
     (∀ i, Object i c = Panicked "should call before Refreshing") ∧
     (∀ ctor args, Provide ctor args c = Panicked "should call before Refreshing") ∧
     (∀ b, Register b c = Panicked "should call before Refreshing") ∧
     (∀ f args, Config f args c = Panicked "should call before Refreshing") ∧
     (∀ filename, Load filename c = Panicked "should call before Refreshing") ∧
     (∀ key value, Property key value c = Panicked "should call before Refreshing") ∧
     (∀ fuel, Refresh fuel c = Panicked "already refreshed")) ∧
  (state c = Unrefreshed →
     ∀ fuel selector, find fuel selector c = Panicked "should call after Refreshing") ∧
  (∀ fuel c', Refresh fuel c = Return tt c' →
     ∀ fuel', Refresh fuel' c' = Panicked "already refreshed").
Proof.
  assert (∀ c0 fuel, state c0 ≠ Unrefreshed → Refresh fuel c0 = Panicked "already refreshed")
    as Hrefresh.
  { intros c0 fuel H. unfold Refresh, bind, get. by rewrite bool_decide_true. }
  split_and!.
  - intros H. split_and!; intros; try by apply callBeforeRefreshing_panics.
    by apply Hrefresh.
  - intros H fuel selector. by apply callAfterRefreshing_panics.
  - intros fuel c' H fuel'. apply Hrefresh. by rewrite (Refresh_refreshed _ _ _ H).
Qed.

(** ** Shutdown *)

Lemma runDestroyers_loop_events ds assembly c :
  runDestroyers_loop ds assembly c = Return tt (set_events (events c ++ teardown ds assembly) c).
Proof.
  revert assembly c. induction ds as [|d ds IH]; intros assembly c; simpl.
  - unfold ret. rewrite app_nil_r. by destruct c.
  - unfold bind at 1, emit, modify. unfold bind at 1.
    destruct (run d assembly).2 as [err|]; simpl; unfold modify, ret; rewrite IH; simpl;
      by rewrite <- !app_assoc.
Qed.

Lemma runs_teardown ds assembly : runs (teardown ds assembly) = ds.
Proof.
  revert assembly. induction ds as [|d ds IH]; intros assembly; [done|].
  simpl. unfold runs in *. simpl. destruct (run d assembly).2; simpl; by rewrite IH.
Qed.

Lemma teardown_app ds1 ds2 assembly :
  teardown (ds1 ++ ds2) assembly =
  teardown ds1 assembly ++ teardown ds2 (assembly_after ds1 assembly).
Proof.
  revert assembly. induction ds1 as [|d ds1 IH]; intros assembly; [done|].
  simpl. by rewrite IH, <- app_assoc.
Qed.

Lemma Cancel_not_in_teardown ds assembly : Cancel ∉ teardown ds assembly.
Proof.
  revert assembly. induction ds as [|d ds IH]; intros a; simpl; [apply not_elem_of_nil|].
  intros Hin. apply elem_of_cons in Hin as [E|Hin]; [discriminate E|].
  apply elem_of_app in Hin as [Hin|Hin]; [|by eapply IH].
  destruct (run d a).2; [|by apply elem_of_nil in Hin].
  apply list_elem_of_singleton in Hin. discriminate Hin.
Qed.

(** C7: [runDestroyers] returns, having added to the events those of the
    teardown of the destroyer list: the destroyers run are the whole
    list, in its order, whatever each returned; and a destroyer that
    returns an error has it logged right after its run, the destroyers
    that follow running after that. *)
Theorem C7_destroyers_run_in_order_despite_failures assembly c :
  ∃ c', runDestroyers assembly c = Return tt c' ∧
    events c' = events c ++ teardown (destroyerList c) assembly ∧
    runs (teardown (destroyerList c) assembly) = destroyerList c ∧
    ∀ ds1 d ds2 err, destroyerList c = ds1 ++ d :: ds2 →
      (run d (assembly_after ds1 assembly)).2 = Some err →
      teardown (destroyerList c) assembly =
        teardown ds1 assembly ++ Run d :: LogError err ::
          teardown ds2 (assembly_after (ds1 ++ [d]) assembly) ∧
      runs (teardown ds2 (assembly_after (ds1 ++ [d]) assembly)) = ds2.
Proof.
  eexists. split_and!.
  - unfold runDestroyers, bind, get. apply runDestroyers_loop_events.
  - done.
  - apply runs_teardown.
  - intros ds1 d ds2 err Hds Herr. split; [|apply runs_teardown].
    rewrite Hds, teardown_app. simpl. rewrite Herr. simpl. f_equal. f_equal. f_equal.
    clear. revert assembly. induction ds1 as [|d1 ds1 IH]; intros assembly; [done|].
    simpl. apply IH.
Qed.

Lemma runs_app es1 es2 : runs (es1 ++ es2) = runs es1 ++ runs es2.
Proof. apply omap_app. Qed.

(** C8, as amended: [Close] panics exactly when the container is still
    Unrefreshed, so it is accepted while Refreshing as well as once
    Refreshed.  When accepted it cancels the shared context, once, and
    waits on the wait group: with the counter at zero it goes on to run
    the destroyers, all of them and after the wait, and returns; with a
    task spawned by [Go] still counted it blocks there, the context
    cancelled and the cancel emitted, and nothing else done: no destroyer
    has run. *)
Theorem C8_close_cancels_waits_then_destroys c :
  (state c = Unrefreshed → Close c = Panicked "should call after Refreshing") ∧
  (state c ≠ Unrefreshed → wg c ≠ 0%nat →
     Close c = Blocked (set_ctx true (set_events (events c ++ [Cancel]) c)) ∧
     runs (events c ++ [Cancel]) = runs (events c)) ∧
  (state c ≠ Unrefreshed → ∀ c1, Go c = Return tt c1 →
     Close c1 = Blocked (set_ctx true (set_events (events c ++ [Cancel]) c1)) ∧
     wg c1 = S (wg c) ∧
     runs (events c ++ [Cancel]) = runs (events c)) ∧
  (state c ≠ Unrefreshed → wg c = 0%nat →
     ∃ c' assembly, Close c = Return tt c' ∧ ctx c' = true ∧
       events c' = events c ++ [Cancel; Wait; LogInfo "goroutines exited"]
                   ++ teardown (destroyerList c) assembly
                   ++ [LogInfo "container closed"] ∧
       runs (teardown (destroyerList c) assembly) = destroyerList c ∧
       Cancel ∉ teardown (destroyerList c) assembly).
Proof.
  assert (runs (events c ++ [Cancel]) = runs (events c)) as Hruns.
  { rewrite runs_app. simpl. apply app_nil_r. }
  split_and!.
  - intros H. by apply callAfterRefreshing_panics.
  - intros H Hwg. split; [|done]. unfold Close. rewrite callAfterRefreshing_passes by done.
    unfold bind, cancel, bind, emit, modify, wgWait. simpl. by rewrite bool_decide_false.
  - intros H c1 [= <-]. split_and!; [|done..]. unfold Close.
    rewrite callAfterRefreshing_passes by done. reflexivity.
  - intros H Hwg. unfold Close. rewrite callAfterRefreshing_passes by done.
    unfold bind, cancel, bind, emit, modify, wgWait, get, runDestroyers, bind, get. simpl.
    rewrite bool_decide_true by done. unfold emit, modify. simpl.
    rewrite runDestroyers_loop_events. simpl.
    eexists _, _. split_and!; [reflexivity|done| |apply runs_teardown|].
    + simpl. by rewrite <- !app_assoc.
    + apply Cancel_not_in_teardown.
Qed.

(** ** Enough fuel

    Resolutions nest only through descriptors at Resolving, which the
    lookups skip, so the nesting is no deeper than the identity index is
    large, and fuel beyond that is never used up. *)

Lemma terminates_bind {A B} (m : M A) (k : A → M B) c :
  terminates (m c) → (∀ a c1, m c = Return a c1 → terminates (k a c1)) →
  terminates (bind m k c).
Proof. unfold bind. destruct (m c); simpl; try done. eauto. Qed.

Lemma autoExport_terminates t b c : terminates (autoExport t b c).
Proof.
  revert c. induction t as [k n|n|e IHe|n fs IHfs] using rtype_Indirect_ind;
    intros c; try done.
  rewrite autoExport_StructOf. revert c.
  induction IHfs as [|f fs Hf _ IH]; intros c; simpl; [done|].
  destruct (negb (has_tag f "export")).
  - destruct (_ || _); [apply IH|].
    destruct (bool_decide _); [|apply IH].
    apply terminates_bind; [apply Hf|]. intros [e|] c1 _; [done|apply IH].
  - destruct (bool_decide _); [done|].
    destruct (_ && _); [done|].
    apply terminates_bind; [unfold Export, modify; by destruct (bool_decide _)|].
    intros _ c1 _. apply IH.
Qed.

Lemma indexExports_terminates b ts c : terminates (indexExports b ts c).
Proof.
  revert c. induction ts as [|t ts IH]; intros c; simpl; [done|].
  unfold bind at 1, load. apply terminates_bind.
  - unfold Implements. by destruct (bool_decide _).
  - intros [] c1 _; [|done]. unfold bind, appendByType, modify. apply IH.
Qed.

Lemma finish_terminates b ok c : terminates (finish b ok c).
Proof.
  destruct ok; [|done]. rewrite finish_true. apply terminates_bind.
  - unfold autoExport_of, bind, load. destruct (bool_decide _); [|done].
    set (c1 := indexed_under b c (Type' (store c b))).
    pose proof (autoExport_terminates (Indirect (Type' (store c1 b))) b c1) as H.
    by destruct (autoExport _ _ _).
  - intros [e|] c1 _; [done|]. unfold bind at 1, load. apply terminates_bind.
    + apply indexExports_terminates.
    + by intros [e|] c2 _.
Qed.

Section terminates_of.

Variable resolve : addr → M (option error).
Variable c0 : Container.
Hypothesis resolve_resolution :
  ∀ b c k r c', beansById c !! k = Some b → resolve b c = Return r c' → resolution c c'.
Hypothesis resolve_terminates :
  ∀ b c k, resolution c0 c → beansById c !! k = Some b → terminates (resolve b c).

Lemma finder_loop_terminates fn keys result c :
  resolution c0 c → terminates (finder_loop resolve fn keys result c).
Proof.
  revert result c. induction keys as [|k keys IH]; intros result c R; simpl; [done|].
  unfold bind at 1, get.
  destruct (beansById c !! k) as [b|] eqn:Hk; [|by apply IH].
  destruct (_ && _); [|by apply IH].
  apply terminates_bind; [by eapply resolve_terminates|].
  intros [e|] c1 H1; [done|]. unfold bind, load.
  assert (resolution c0 c1) as R1.
  { eapply resolution_trans; [exact R|]. by eapply resolve_resolution. }
  destruct (bool_decide _); by apply IH.
Qed.

Lemma find_with_terminates selector c :
  resolution c0 c → terminates (find_with resolve selector c).
Proof.
  intros R. unfold find_with, callAfterRefreshing, finder, bind at 1, bind at 1, get.
  destruct (bool_decide (state c = Unrefreshed)); [done|]. unfold ret.
  destruct (bool_decide (Kind_ _ = String)).
  - destruct selector; [|done]. unfold bind, get. by apply finder_loop_terminates.
  - unfold bind, get. by apply finder_loop_terminates.
Qed.

Lemma Matches_terminates k c :
  resolution c0 c → terminates (Matches (find_with resolve) k c).
Proof.
  revert c. induction k as [ok|key k IH|selector k IH]; intros c R; simpl; [done| |].
  - unfold bind, get. by apply IH.
  - apply terminates_bind; [by apply find_with_terminates|].
    intros x c1 H1. apply IH. eapply resolution_trans; [exact R|].
    by eapply find_with_resolution.
Qed.

End terminates_of.

Lemma resolution_awaiting c c' : resolution c c' → awaiting c' ⊆ awaiting c.
Proof.
  intros R. apply map_subseteq_spec. intros k b Hk.
  apply map_lookup_filter_Some in Hk as [Hk Hs]. simpl in Hs.
  apply map_lookup_filter_Some. split.
  - eapply lookup_weaken; [exact Hk|]. by apply resolution_stable.
  - simpl. intros Hr. apply Hs.
    by rewrite (frozen_store _ _ _ (resolution_frozen _ _ R b (settled_Resolving _ Hr))).
Qed.

Lemma enter_awaiting b c : awaiting (enter b c) ⊆ awaiting c.
Proof.
  apply map_subseteq_spec. intros k x Hk.
  apply map_lookup_filter_Some in Hk as [Hk Hs]. simpl in Hk, Hs.
  apply map_lookup_filter_Some. split; [done|]. simpl.
  destruct (decide (b = x)) as [->|Hne].
  - by rewrite fn_lookup_insert in Hs.
  - by rewrite fn_lookup_insert_ne in Hs.
Qed.

Lemma enter_awaiting_size b c k :
  beansById c !! k = Some b → settled (store c b) = false →
  (size (awaiting (enter b c)) < size (awaiting c))%nat.
Proof.
  intros Hk Hs. apply map_subset_size. split; [apply enter_awaiting|].
  intros Hsub. rewrite map_subseteq_spec in Hsub.
  assert (awaiting (enter b c) !! k = Some b) as Hin.
  { apply Hsub, map_lookup_filter_Some. split; [done|]. simpl.
    intros Hr. by rewrite settled_Resolving in Hs. }
  apply map_lookup_filter_Some in Hin as [_ Hin]. simpl in Hin.
  by rewrite fn_lookup_insert in Hin.
Qed.

Lemma resolveBean_registered_terminates fuel : ∀ b c k,
  beansById c !! k = Some b → (size (awaiting c) < fuel)%nat →
  terminates (resolveBean fuel b c).
Proof.
  induction fuel as [|fuel IH]; intros b c k Hk Hsize; [lia|].
  rewrite resolveBean_unfold. destruct (settled (store c b)) eqn:Hs; [done|].
  pose proof (enter_awaiting_size _ _ _ Hk Hs) as Hlt.
  apply terminates_bind; [|intros; apply finish_terminates].
  unfold evalCond. destruct (cond (store c b)); [|done].
  apply (Matches_terminates _ (enter b c)); [apply resolveBean_resolution| |constructor].
  intros b' c1 k' R Hk'. eapply IH; [exact Hk'|].
  apply resolution_awaiting, map_subseteq_size in R. lia.
Qed.

(** With more fuel than the identity index has entries whose descriptor
    is not at Resolving, [find] and [resolveBean], on any descriptor, come
    to an end. *)
Theorem find_terminates fuel selector c :
  (size (awaiting c) < fuel)%nat → terminates (find fuel selector c).
Proof.
  intros Hsize. apply (find_with_terminates _ c); [apply resolveBean_resolution| |constructor].
  intros b c1 k R Hk. eapply resolveBean_registered_terminates; [exact Hk|].
  apply resolution_awaiting, map_subseteq_size in R. lia.
Qed.

Theorem resolveBean_terminates fuel b c :
  (size (awaiting c) < fuel)%nat → terminates (resolveBean (S fuel) b c).
Proof.
  intros Hsize. rewrite resolveBean_unfold. destruct (settled (store c b)); [done|].
  apply terminates_bind; [|intros; apply finish_terminates].
  unfold evalCond. destruct (cond (store c b)); [|done].
  apply (Matches_terminates _ (enter b c)); [apply resolveBean_resolution| |constructor].
  intros b' c1 k' R Hk'. eapply resolveBean_registered_terminates; [exact Hk'|].
  apply resolution_awaiting, map_subseteq_size in R.
  pose proof (map_subseteq_size _ _ (enter_awaiting b c)). lia.
Qed.

(** ** More fuel changes nothing *)

Lemma extends_bind {A B} (m1 m2 : M A) (k1 k2 : A → M B) :
  extends m1 m2 → (∀ a, extends (k1 a) (k2 a)) → extends (bind m1 k1) (bind m2 k2).
Proof.
  intros Hm Hk c. unfold bind. destruct (m1 c) as [a c1| | |] eqn:E; simpl; try done.
  - intros Ht. rewrite (Hm c) by (by rewrite E). rewrite E. by apply Hk.
  - intros _. rewrite (Hm c) by (by rewrite E). by rewrite E.
Qed.

Lemma extends_refl {A} (m : M A) : extends m m.
Proof. by intros c _. Qed.

Section extends_of.

Variables resolve1 resolve2 : addr → M (option error).
Hypothesis resolve_extends : ∀ b, extends (resolve1 b) (resolve2 b).

Lemma finder_loop_extends fn keys result :
  extends (finder_loop resolve1 fn keys result) (finder_loop resolve2 fn keys result).
Proof.
  revert result. induction keys as [|k keys IH]; intros result; simpl; [apply extends_refl|].
  apply extends_bind; [apply extends_refl|]. intros c.
  destruct (beansById c !! k) as [b|]; [|apply IH].
  destruct (_ && _); [|apply IH].
  apply extends_bind; [apply resolve_extends|]. intros [e|]; [apply extends_refl|].
  apply extends_bind; [apply extends_refl|]. intros d.
  destruct (bool_decide _); apply IH.
Qed.

Lemma find_with_extends selector :
  extends (find_with resolve1 selector) (find_with resolve2 selector).
Proof.
  unfold find_with. apply extends_bind; [apply extends_refl|]. intros _.
  destruct (bool_decide _).
  - destruct selector; [|apply extends_refl]. unfold finder.
    apply extends_bind; [apply extends_refl|]. intros c. apply finder_loop_extends.
  - unfold finder. apply extends_bind; [apply extends_refl|]. intros c.
    apply finder_loop_extends.
Qed.

Lemma Matches_extends k :
  extends (Matches (find_with resolve1) k) (Matches (find_with resolve2) k).
Proof.
  induction k as [ok|key k IH|selector k IH]; simpl; [apply extends_refl| |].
  - apply extends_bind; [apply extends_refl|]. intros c. apply IH.
  - apply extends_bind; [apply find_with_extends|]. intros r. apply IH.
Qed.

End extends_of.

Lemma resolveBean_extends fuel : ∀ b, extends (resolveBean fuel b) (resolveBean (S fuel) b).
Proof.
  induction fuel as [|fuel IH]; intros b c Ht; [done|].
  rewrite 2!resolveBean_unfold in *. destruct (settled (store c b)); [done|].
  apply extends_bind; [|intros; apply extends_refl|exact Ht].
  unfold evalCond. destruct (cond (store c b)); [|apply extends_refl].
  by apply Matches_extends.
Qed.

(** What [resolveBean] returns with some fuel, it returns with any
    greater fuel. *)
Theorem resolveBean_fuel fuel fuel' b c r c' :
  (fuel ≤ fuel')%nat → resolveBean fuel b c = Return r c' →
  resolveBean fuel' b c = Return r c'.
Proof.
  induction 1 as [|fuel' _ IH]; [done|]. intros H.
  rewrite resolveBean_extends; [by apply IH|]. by rewrite (IH H).
Qed.

(** * The rest of the engine

    Statements about what the code does besides: the frame of a
    resolution, the answers of [find], the errors of [resolveBean] and
    [autoExport], the phases of [Refresh] and the shutdown. *)

(** ** What resolution leaves alone *)

Lemma untouched_refl c : untouched c c.
Proof. by split. Qed.

Lemma untouched_trans c1 c2 c3 : untouched c1 c2 → untouched c2 c3 → untouched c1 c3.
Proof. intros [] []. split; congruence. Qed.

Lemma Export_untouched b t c c' : Export b t c = Return tt c' → untouched c c'.
Proof.
  intros H. msimpl H. destruct (bool_decide _); injection H as <-; by split.
Qed.

Lemma autoExport_untouched t b c r c' :
  autoExport t b c = Return r c' → untouched c c'.
Proof.
  revert c r c'. induction t as [k n|n|e IHe|n fs IHfs] using rtype_Indirect_ind;
    intros c r c' H; try discriminate.
  rewrite autoExport_StructOf in H. revert c r c' H.
  induction IHfs as [|f fs Hf _ IH]; intros c r c' H; simpl in H.
  - injection H as <- <-. apply untouched_refl.
  - destruct (negb (has_tag f "export")).
    + destruct (_ || _); [eauto|].
      destruct (bool_decide _); [|eauto].
      apply bind_Return in H as ([e|] & c1 & H1 & H2).
      * injection H2 as <- <-. eauto.
      * eapply untouched_trans; eauto.
    + destruct (bool_decide _); [injection H as <- <-; apply untouched_refl|].
      destruct (_ && _); [injection H as <- <-; apply untouched_refl|].
      apply bind_Return in H as ([] & c1 & H1 & H2).
      eapply untouched_trans; [by eapply Export_untouched|eauto].
Qed.

Lemma autoExport_of_untouched b c r c' :
  autoExport_of b c = Return r c' → untouched c c'.
Proof.
  unfold autoExport_of, bind, load. destruct (bool_decide _).
  - apply autoExport_untouched.
  - intros [= <- <-]. apply untouched_refl.
Qed.

Lemma untouched_indexed_under_all b ts c : untouched c (indexed_under_all b ts c).
Proof.
  revert c. induction ts as [|t ts IH]; intros c; simpl; [apply untouched_refl|].
  eapply untouched_trans; [|apply IH]. by split.
Qed.

Lemma finish_untouched b ok c r c' : finish b ok c = Return r c' → untouched c c'.
Proof.
  intros H. apply finish_finished in H.
  assert (untouched c (indexed_under b c (Type' (store c b)))) as H0 by (by split).
  destruct H as [|c1 e H1|c1 pre t post H1 _ _ _ _|c1 H1 _].
  - by split.
  - apply autoExport_of_untouched in H1. by eapply untouched_trans.
  - apply autoExport_of_untouched in H1.
    apply (untouched_trans _ c1); [by eapply untouched_trans|].
    apply untouched_indexed_under_all.
  - apply autoExport_of_untouched in H1.
    apply (untouched_trans _ c1); [by eapply untouched_trans|].
    apply (untouched_trans _ (indexed_under_all b (rangeExports (exports (store c1 b))) c1));
      [apply untouched_indexed_under_all|by split].
Qed.

Lemma resolution_untouched c c' : resolution c c' → untouched c c'.
Proof.
  induction 1 as [c|c1 c2 c3 _ IH1 _ IH2|c k b c2 ok r c3 Hk Hs H IH Hf].
  - apply untouched_refl.
  - by eapply untouched_trans.
  - apply (untouched_trans _ c2); [|by eapply finish_untouched].
    apply (untouched_trans _ (enter b c)); [by split|exact IH].
Qed.

(** A call of [resolveBean], on a descriptor of the identity index or
    not, changes what a resolution changes. *)
Lemma resolveBean_frame fuel b c r c' :
  resolveBean fuel b c = Return r c' → untouched c c' ∧ stable c c'.
Proof.
  intros H. apply resolveBean_Return in H
    as [(_ & _ & ->)|(Hs & fuel' & ok & c2 & -> & H1 & H2)].
  - split; [apply untouched_refl|apply stable_refl].
  - apply evalCond_resolution in H1. split.
    + apply (untouched_trans _ c2); [|by eapply finish_untouched].
      apply (untouched_trans _ (enter b c)); [by split|by apply resolution_untouched].
    + apply (stable_trans _ c2); [|by eapply touches_stable, finish_touches].
      apply (stable_trans _ (enter b c)); [|by apply resolution_stable].
      eapply touches_stable, touches_enter.
Qed.

(** X1: [resolveBean], [find] and [resolveBeans] write only to the
    store of descriptors and to the three indices.  When one of them
    returns, the registrations, the configuration functions, the list of
    destroyers, the wait group, the shared context, the events, the phase
    and the properties are what they were; no descriptor has changed
    identity, name, type, description or condition, or lost an export; the
    identity index has gained no entry, and the indices by type and by name
    have lost none. *)
Theorem resolution_writes_only_descriptors_and_indices fuel c c' :
  (∀ b r, resolveBean fuel b c = Return r c' → untouched c c' ∧ stable c c') ∧
  (∀ selector r, find fuel selector c = Return r c' → untouched c c' ∧ stable c c') ∧
  (∀ r, resolveBeans fuel c = Return r c' → untouched c c' ∧ stable c c').
Proof.
  split_and!.
  - intros b r. apply resolveBean_frame.
  - intros selector r H. apply find_resolution in H.
    split; [by apply resolution_untouched|by apply resolution_stable].
  - intros r H. apply resolveBeans_resolution in H.
    split; [by apply resolution_untouched|by apply resolution_stable].
Qed.

(** ** The answers of [find] *)

Lemma find_selects fuel selector c :
  answerable selector →
  find fuel selector c =
    (callAfterRefreshing ;; finder (resolveBean fuel) (selects selector)) c.
Proof.
  intros Ha. unfold find, find_with. destruct selector as [s|u]; simpl.
  - reflexivity.
  - simpl in Ha. by rewrite bool_decide_false.
Qed.

(** Where the descriptors a finder returns come from, and where its
    error comes from. *)
Lemma finder_loop_provenance fuel fn keys : ∀ result c found err c',
  finder_loop (resolveBean fuel) fn keys result c = Return (found, err) c' →
  resolution c c' ∧
  (∀ q, q ∈ found → q ∈ result ∨
     ∃ k c1 c2, k ∈ keys ∧ resolution c c1 ∧ beansById c1 !! k = Some q ∧
       status (store c1 q) ≠ Resolving ∧ fn (store c1 q) = true ∧
       resolveBean fuel q c1 = Return None c2 ∧ status (store c2 q) ≠ Deleted ∧
       resolution c2 c') ∧
  (∀ e, err = Some e → found = [] ∧
     ∃ k q c1, k ∈ keys ∧ resolution c c1 ∧ beansById c1 !! k = Some q ∧
       status (store c1 q) ≠ Resolving ∧ fn (store c1 q) = true ∧
       resolveBean fuel q c1 = Return (Some e) c').
Proof.
  induction keys as [|k keys IH]; intros result c found err c' H; simpl in H.
  - injection H as <- <- <-. split_and!; [constructor|auto|discriminate].
  - assert (∀ c1 result, resolution c c1 →
              finder_loop (resolveBean fuel) fn keys result c1 = Return (found, err) c' →
              resolution c c' ∧
              (∀ q, q ∈ found → q ∈ result ∨
                 ∃ k' c2 c3, k' ∈ k :: keys ∧ resolution c c2 ∧ beansById c2 !! k' = Some q ∧
                   status (store c2 q) ≠ Resolving ∧ fn (store c2 q) = true ∧
                   resolveBean fuel q c2 = Return None c3 ∧ status (store c3 q) ≠ Deleted ∧
                   resolution c3 c') ∧
              (∀ e, err = Some e → found = [] ∧
                 ∃ k' q c2, k' ∈ k :: keys ∧ resolution c c2 ∧ beansById c2 !! k' = Some q ∧
                   status (store c2 q) ≠ Resolving ∧ fn (store c2 q) = true ∧
                   resolveBean fuel q c2 = Return (Some e) c')) as Hrest.
    { intros c1 result' R H'. apply IH in H' as (R' & P & E). split_and!.
      - by eapply resolution_trans.
      - intros q Hq. destruct (P q Hq) as [?|(k' & c2 & c3 & ? & ? & ?)]; [by left|right].
        exists k', c2, c3.
        split; [by apply elem_of_cons; right|]. split; [by eapply resolution_trans|done].
      - intros e He. destruct (E e He) as (? & k' & q & c2 & ? & ? & ?). split; [done|].
        exists k', q, c2.
        split; [by apply elem_of_cons; right|]. split; [by eapply resolution_trans|done]. }
    unfold bind at 1, get in H.
    destruct (beansById c !! k) as [b|] eqn:Hk; [|by apply (Hrest c result); [constructor|]].
    destruct (bool_decide (status (store c b) ≠ Resolving)) eqn:Hst; simpl in H;
      [|by apply (Hrest c result); [constructor|]].
    apply bool_decide_eq_true in Hst.
    destruct (fn (store c b)) eqn:Hfn; [|by apply (Hrest c result); [constructor|]].
    apply bind_Return in H as ([e|] & c1 & H1 & H2).
    + injection H2 as <- <- <-.
      split_and!; [by eapply resolveBean_resolution| |].
      * intros q Hq. by apply elem_of_nil in Hq.
      * intros e' [= <-]. split; [done|].
        exists k, b, c. split_and!; try done; [by apply elem_of_cons; left|constructor].
    + pose proof (resolveBean_resolution _ _ _ _ _ _ Hk H1) as R1.
      unfold bind at 1, load in H2.
      destruct (bool_decide (status (store c1 b) ≠ Deleted)) eqn:Hd.
      * apply bool_decide_eq_true in Hd.
        pose proof H2 as H2'. apply IH in H2' as (R2 & _).
        apply (Hrest c1 _ R1) in H2 as (R' & P & E). split_and!; [done| |done].
        intros q Hq. destruct (P q Hq) as [Hin|?]; [|by right].
        apply elem_of_app in Hin as [?|Hin]; [by left|].
        apply list_elem_of_singleton in Hin as ->. right.
        exists k, c, c1. split_and!; try done; [by apply elem_of_cons; left|constructor].
      * by apply (Hrest c1 result R1).
Qed.

Lemma find_provenance fuel selector c found err c' :
  find fuel selector c = Return (found, err) c' →
  answerable selector ∧ state c ≠ Unrefreshed ∧ resolution c c' ∧
  (∀ q, q ∈ found →
     ∃ k c1 c2, resolution c c1 ∧ beansById c1 !! k = Some q ∧
       status (store c1 q) ≠ Resolving ∧ selects selector (store c1 q) = true ∧
       resolveBean fuel q c1 = Return None c2 ∧ status (store c2 q) ≠ Deleted ∧
       resolution c2 c') ∧
  (∀ e, err = Some e → found = [] ∧
     ∃ k q c1, resolution c c1 ∧ beansById c1 !! k = Some q ∧
       status (store c1 q) ≠ Resolving ∧ selects selector (store c1 q) = true ∧
       resolveBean fuel q c1 = Return (Some e) c').
Proof.
  intros H.
  assert (answerable selector ∧ state c ≠ Unrefreshed) as [Ha Hs].
  { unfold find, find_with, callAfterRefreshing in H. msimpl H.
    destruct (bool_decide (state c = Unrefreshed)) eqn:E; [discriminate|].
    apply bool_decide_eq_false in E. split; [|done].
    destruct selector as [s|u]; simpl; [done|]. simpl in H.
    intros Hu. by rewrite bool_decide_true in H. }
  rewrite find_selects in H by done.
  unfold callAfterRefreshing, finder in H. msimpl H.
  rewrite bool_decide_false in H by done.
  apply finder_loop_provenance in H as (R & P & E). split_and!; try done.
  - intros q Hq. destruct (P q Hq) as [Hin|(k & c1 & c2 & _ & ?)]; [by apply elem_of_nil in Hin|].
    by exists k, c1, c2.
  - intros e He. destruct (E e He) as (? & k & q & c1 & _ & ?). split; [done|].
    by exists k, q, c1.
Qed.

Lemma finder_loop_on_resolved fuel fn c :
  (code Resolving ≤ code Resolved)%Z →
  (∀ k b, beansById c !! k = Some b → status (store c b) = Resolved) →
  ∀ keys result,
    finder_loop (resolveBean (S fuel)) fn keys result c =
      Return (result ++ filter (λ b, fn (store c b) = true)
                          (omap (λ k, beansById c !! k) keys), None) c.
Proof.
  intros HR Hall. induction keys as [|k keys IH]; intros result.
  - simpl. by rewrite app_nil_r.
  - cbn [finder_loop omap list_omap]. unfold bind at 1, get.
    destruct (beansById c !! k) as [b|] eqn:Hk; [|apply IH].
    pose proof (Hall _ _ Hk) as Hb.
    rewrite filter_cons, bool_decide_true by (by rewrite Hb).
    destruct (fn (store c b)) eqn:Hfn; cbn [andb].
    + rewrite decide_True by done.
      unfold bind at 1. rewrite resolveBean_settled
        by (unfold settled; rewrite Hb; by apply bool_decide_eq_true).
      unfold bind at 1, load. rewrite bool_decide_true by (by rewrite Hb).
      rewrite IH. by rewrite <- app_assoc.
    + rewrite decide_False by done. apply IH.
Qed.

(** X2: on a container whose identity index holds only Resolved
    descriptors (what a resolution phase that met no error leaves), [find]
    reads and does not write: it returns, with no error and leaving the
    container as it is, the descriptors of the identity index that pass the
    selector's test, in the order the range over the index meets them. *)
Theorem find_on_resolved_container_is_exact fuel selector c :
  (code Resolving ≤ code Resolved)%Z →
  state c ≠ Unrefreshed →
  answerable selector →
  (∀ k b, beansById c !! k = Some b → status (store c b) = Resolved) →
  find (S fuel) selector c = Return (selected selector c, None) c.
Proof.
  intros HR Hs Ha Hall. rewrite find_selects by done.
  unfold callAfterRefreshing, finder, bind, get.
  rewrite bool_decide_false by done. unfold ret.
  by rewrite finder_loop_on_resolved.
Qed.

(** ** Entries leave the identity index only Deleted *)

Lemma consistent_enter b c : consistent c → consistent (enter b c).
Proof.
  intros [Hc1 Hc2 Hc3]. split.
  - eapply stable_keyed; [eapply touches_stable, touches_enter|done].
  - intros k' q Hq. simpl. destruct (decide (b = q)) as [->|Hne].
    + by rewrite fn_lookup_insert.
    + rewrite fn_lookup_insert_ne by done. by eapply Hc2.
  - intros k' q Hq. simpl. destruct (decide (b = q)) as [->|Hne].
    + by rewrite fn_lookup_insert.
    + rewrite fn_lookup_insert_ne by done. intros Hqd.
      by apply (Hc3 _ _ Hq Hqd).
Qed.

Lemma finish_true_byId b c r c' :
  finish b true c = Return r c' → beansById c' = beansById c.
Proof.
  intros H. apply finish_finished in H.
  inversion H as [|c1 e H1|c1 pre t post H1 _ _ _ _|c1 H1 _]; subst.
  - by apply autoExport_of_exports_only in H1 as (_ & -> & _).
  - rewrite beansById_indexed_under_all.
    by apply autoExport_of_exports_only in H1 as (_ & -> & _).
  - simpl. rewrite beansById_indexed_under_all.
    by apply autoExport_of_exports_only in H1 as (_ & -> & _).
Qed.

Lemma resolution_live c c' :
  (code Resolving ≤ code Resolved)%Z →
  resolution c c' → consistent c →
  ∀ k q, beansById c !! k = Some q → status (store c' q) ≠ Deleted →
    beansById c' !! k = Some q.
Proof.
  intros HR. induction 1 as [c|c1 c2 c3 R1 IH1 R2 IH2|c k0 b c2 ok r c3 Hk Hs H IH Hf];
    intros Hc k q Hq Hn.
  - done.
  - destruct (resolution_consistent _ _ HR R1 Hc) as [Hc2 _].
    destruct (decide (status (store c2 q) = Deleted)) as [Hd|Hd].
    + exfalso. apply Hn.
      assert (unregistered q c2) as Hu.
      { intros k' Hk'. by apply (consistent_live _ Hc2 _ _ Hk'). }
      destruct (resolution_unregistered _ _ _ R2 Hu) as [_ F].
      by rewrite (frozen_store _ _ _ F).
    + apply IH2; [done| |done]. by apply IH1.
  - pose proof (consistent_enter b _ Hc) as Hce.
    destruct (resolution_consistent _ _ HR H Hce) as [Hc2 _].
    pose proof (finish_touches _ _ _ _ _ Hf) as T.
    assert (beansById c2 !! k0 = Some b) as Hb2.
    { eapply resolution_registered; [exact H|apply Hce|apply settled_enter|exact Hk]. }
    destruct (decide (q = b)) as [->|Hne].
    + assert (k = k0) as ->.
      { rewrite <- (consistent_keyed _ Hc _ _ Hq). by apply (consistent_keyed _ Hc). }
      destruct ok.
      * by rewrite (finish_true_byId _ _ _ _ Hf).
      * exfalso. apply Hn. by rewrite (finish_status _ _ _ _ _ Hf).
    + rewrite (touches_store _ _ _ T) in Hn by done.
      rewrite (touches_byId _ _ _ T); [by apply IH|].
      intros ->. apply Hne.
      assert (beansById c2 !! ID (store c2 b) = Some q) as Hq2 by (by apply IH).
      rewrite (consistent_keyed _ Hc2 _ _ Hb2) in Hq2. congruence.
Qed.

(** X3: during refresh a resolution takes an entry out of the identity
    index only for a descriptor it marks Deleted.  In a consistent
    container (Resolved numbered at or past Resolving), a descriptor that
    is in the identity index when [resolveBean], [find] or [resolveBeans]
    is called, and that is not Deleted when the call returns, is still in
    the identity index, under the same key. *)
Theorem only_deleted_descriptors_leave_the_identity_index fuel c c' k q :
  (code Resolving ≤ code Resolved)%Z →
  consistent c →
  beansById c !! k = Some q →
  status (store c' q) ≠ Deleted →
  (∀ k0 b r, beansById c !! k0 = Some b → resolveBean fuel b c = Return r c' →
     beansById c' !! k = Some q) ∧
  (∀ selector r, find fuel selector c = Return r c' → beansById c' !! k = Some q) ∧
  (∀ r, resolveBeans fuel c = Return r c' → beansById c' !! k = Some q).
Proof.
  intros HR Hc Hq Hn. split_and!.
  - intros k0 b r Hb H. apply (resolveBean_resolution _ _ _ _ _ _ Hb) in H.
    by eapply resolution_live.
  - intros selector r H. apply find_resolution in H. by eapply resolution_live.
  - intros r H. apply resolveBeans_resolution in H. by eapply resolution_live.
Qed.

Lemma resolveBean_None_status fuel q c c' :
  (code Default < code Resolving)%Z →
  resolveBean fuel q c = Return None c' →
  status (store c q) ≠ Resolving → status (store c' q) ≠ Deleted →
  status (store c' q) = Resolved.
Proof.
  intros HD H Hr Hn. apply resolveBean_Return in H
    as [(Hs & _ & ->)|(Hs & fuel' & ok & c2 & -> & H1 & H2)].
  - unfold settled in Hs. apply bool_decide_eq_true in Hs.
    destruct (status (store c q)); [lia|done..].
  - rewrite (finish_status _ _ _ _ _ H2) in Hn |- *. by destruct ok.
Qed.

(** X4: what [find] returns.  In a consistent container (Default
    numbered below Resolving, Resolved at or past it), every descriptor
    [find] returns is Resolved and in the identity index when [find]
    returns; it passes the selector's test then, the test by name of a
    string selector looking only at the name and the type of a
    descriptor. *)
Theorem find_returns_resolved_registered_matches fuel selector c found err c' :
  (code Default < code Resolving)%Z →
  (code Resolving ≤ code Resolved)%Z →
  consistent c →
  find fuel selector c = Return (found, err) c' →
  ∀ q, q ∈ found →
    status (store c' q) = Resolved ∧
    (∃ k, beansById c' !! k = Some q) ∧
    ((∀ d d' tn bn, name d = name d' → Type' d = Type' d' →
        Match d tn bn = Match d' tn bn) →
     selects selector (store c' q) = true).
Proof.
  intros HD HR Hc H q Hq.
  apply find_provenance in H as (_ & _ & _ & P & _).
  destruct (P q Hq) as (k & c1 & c2 & R1 & Hk & Hr & Hsel & Hres & Hn & R2).
  pose proof (resolveBean_None_status _ _ _ _ HD Hres Hr Hn) as Hst.
  pose proof (resolveBean_resolution _ _ _ _ _ _ Hk Hres) as R12.
  assert (settled (store c2 q) = true) as Hset.
  { unfold settled. rewrite Hst. by apply bool_decide_eq_true. }
  pose proof (resolution_frozen _ _ R2 q Hset) as F.
  assert (status (store c' q) = Resolved) as Hst'.
  { by rewrite (frozen_store _ _ _ F). }
  split_and!; [done| |].
  - exists k. destruct (resolution_consistent _ _ HR R1 Hc) as [Hc1 _].
    eapply (resolution_live c1 c'); [done|by eapply resolution_trans|done..|].
    by rewrite Hst'.
  - intros HM. pose proof (resolution_trans _ _ _ R12 R2) as R.
    apply resolution_stable in R.
    destruct selector as [s|u]; simpl in *.
    + rewrite <- Hsel. apply HM; [apply (stable_name _ _ R)|apply (stable_Type _ _ R)].
    + rewrite (stable_Type _ _ R).
      destruct (negb (AssignableTo _ _)); [done|].
      destruct (bool_decide (Kind_ _ ≠ Interface)); [done|].
      apply bool_decide_eq_true in Hsel. apply bool_decide_eq_true.
      by apply (stable_exports _ _ R).
Qed.

(** X5: the mark Resolving cuts cycles.  A descriptor that is at
    Resolving when [find] is called (its own resolution is under way,
    further up) is not among the descriptors [find] returns, whatever the
    selector, and [find] leaves it as it is. *)
Theorem find_skips_descriptors_being_resolved fuel selector c found err c' q :
  status (store c q) = Resolving →
  find fuel selector c = Return (found, err) c' →
  store c' q = store c q ∧ q ∉ found.
Proof.
  intros Hq H.
  pose proof (settled_Resolving _ Hq) as Hs.
  apply find_provenance in H as (_ & _ & R & P & _). split.
  - apply (resolution_frozen _ _ R q Hs).
  - intros Hin. destruct (P q Hin) as (k & c1 & c2 & R1 & _ & Hr & _).
    apply Hr. by rewrite (frozen_store _ _ _ (resolution_frozen _ _ R1 q Hs)).
Qed.

Lemma finder_loop_complete fuel fn c0 k q :
  (code Resolving ≤ code Resolved)%Z →
  keyed c0 →
  beansById c0 !! k = Some q → status (store c0 q) = Resolved →
  fn (store c0 q) = true →
  ∀ keys result c found c',
    resolution c0 c →
    finder_loop (resolveBean fuel) fn keys result c = Return (found, None) c' →
    q ∈ result ∨ k ∈ keys → q ∈ found.
Proof.
  intros HR Hkeyed Hk Hq Hfn.
  assert (settled (store c0 q) = true) as Hset.
  { unfold settled. rewrite Hq. by apply bool_decide_eq_true. }
  induction keys as [|k0 keys IH]; intros result c found c' R H Hin; simpl in H.
  - injection H as <- <-. destruct Hin as [?|Hin]; [done|by apply elem_of_nil in Hin].
  - pose proof (resolution_registered _ _ R Hkeyed _ _ Hset Hk) as Hkc.
    pose proof (frozen_store _ _ _ (resolution_frozen _ _ R q Hset)) as Hsc.
    assert (k0 ≠ k → q ∈ result ∨ k ∈ keys) as Hin'.
    { intros Hne. destruct Hin as [?|Hin]; [by left|right].
      apply elem_of_cons in Hin as [->|?]; done. }
    unfold bind at 1, get in H.
    destruct (beansById c !! k0) as [b|] eqn:Hk0.
    2:{ apply (IH _ _ _ _ R H), Hin'. intros ->. by rewrite Hkc in Hk0. }
    destruct (bool_decide (status (store c b) ≠ Resolving) && fn (store c b)) eqn:Htest.
    2:{ apply (IH _ _ _ _ R H), Hin'. intros ->.
        rewrite Hkc in Hk0. injection Hk0 as <-.
        rewrite Hsc, Hfn, Hq, bool_decide_true in Htest; done. }
    apply bind_Return in H as ([e|] & c1 & H1 & H2); [discriminate|].
    pose proof (resolveBean_resolution _ _ _ _ _ _ Hk0 H1) as R1.
    pose proof (resolution_trans _ _ _ R R1) as R01.
    unfold bind at 1, load in H2.
    destruct (bool_decide (status (store c1 b) ≠ Deleted)) eqn:Hd.
    + apply (IH _ _ _ _ R01 H2). destruct (decide (k0 = k)) as [->|Hne].
      * rewrite Hkc in Hk0. injection Hk0 as <-. left.
        apply elem_of_app. right. by apply list_elem_of_singleton.
      * destruct (Hin' Hne); [left|by right]. apply elem_of_app. by left.
    + apply (IH _ _ _ _ R01 H2), Hin'. intros ->.
      rewrite Hkc in Hk0. injection Hk0 as <-.
      apply bool_decide_eq_false in Hd. apply Hd.
      by rewrite (frozen_store _ _ _ (resolution_frozen _ _ R01 q Hset)), Hq.
Qed.

(** X6: what [find] does not miss.  When [find] returns without error,
    the descriptors it returns include every descriptor of the identity
    index that was Resolved at the call and passes the selector's test
    (the identity index being keyed by identity, the range over it meeting
    every key, and Resolved numbered at or past Resolving). *)
Theorem find_returns_every_resolved_match fuel selector c found c' :
  (code Resolving ≤ code Resolved)%Z →
  (∀ m k, is_Some (m !! k) → k ∈ rangeById m) →
  keyed c →
  find fuel selector c = Return (found, None) c' →
  ∀ k q, beansById c !! k = Some q → status (store c q) = Resolved →
    selects selector (store c q) = true → q ∈ found.
Proof.
  intros HR Hrange Hkeyed H k q Hk Hq Hsel.
  pose proof (find_provenance _ _ _ _ _ _ H) as (Ha & Hs & _).
  rewrite find_selects in H by done.
  unfold callAfterRefreshing, finder, bind, get in H.
  rewrite bool_decide_false in H by done. unfold ret in H.
  eapply (finder_loop_complete _ _ c k q); try done; [constructor|].
  right. apply Hrange. by rewrite Hk.
Qed.

Lemma finder_loop_NoDup fuel fn c0 :
  keyed c0 →
  ∀ keys result c found err c',
    resolution c0 c → NoDup keys → NoDup result →
    (∀ q k, q ∈ result → k ∈ keys → beansById c !! k ≠ Some q) →
    finder_loop (resolveBean fuel) fn keys result c = Return (found, err) c' →
    NoDup found.
Proof.
  intros Hkeyed. induction keys as [|k0 keys IH];
    intros result c found err c' R Hkeys Hres Hinv H; simpl in H.
  - by injection H as <- <- <-.
  - apply list.NoDup_cons in Hkeys as [Hk0 Hkeys].
    assert (∀ q k, q ∈ result → k ∈ keys → beansById c !! k ≠ Some q) as Hinv'.
    { intros q k Hq Hk. apply Hinv; [done|]. apply elem_of_cons. by right. }
    unfold bind at 1, get in H.
    destruct (beansById c !! k0) as [b|] eqn:Hb; [|by eapply (IH result c)].
    destruct (_ && _); [|by eapply (IH result c)].
    apply bind_Return in H as ([e|] & c1 & H1 & H2).
    { injection H2 as <- <- <-. constructor. }
    pose proof (resolveBean_resolution _ _ _ _ _ _ Hb H1) as R1.
    pose proof (stable_byId _ _ (resolution_stable _ _ R1)) as Hsub.
    unfold bind at 1, load in H2.
    destruct (bool_decide _).
    + eapply (IH (result ++ [b]) c1); [by eapply resolution_trans|done| | |exact H2].
      * apply list.NoDup_app. split_and!; [done| |apply list.NoDup_singleton].
        intros q Hq Hq'. apply list_elem_of_singleton in Hq' as ->.
        apply (Hinv b k0); [done|by apply elem_of_cons; left|done].
      * intros q k Hq Hk Hk1. pose proof (lookup_weaken _ _ _ _ Hk1 Hsub) as Hkc.
        apply elem_of_app in Hq as [Hq|Hq]; [by apply (Hinv' q k)|].
        apply list_elem_of_singleton in Hq as ->.
        pose proof (stable_keyed _ _ (resolution_stable _ _ R) Hkeyed) as Hkeyed'.
        apply Hk0. by rewrite <- (Hkeyed' _ _ Hb), (Hkeyed' _ _ Hkc).
    + eapply (IH result c1); [by eapply resolution_trans|done|done| |exact H2].
      intros q k Hq Hk Hk1. apply (Hinv' q k); [done..|].
      by apply (lookup_weaken _ _ _ _ Hk1 Hsub).
Qed.

(** X7: [find] returns no descriptor twice, the identity index being
    keyed by identity and the range over it meeting no key twice. *)
Theorem find_returns_no_descriptor_twice fuel selector c found err c' :
  keyed c →
  NoDup (rangeById (beansById c)) →
  find fuel selector c = Return (found, err) c' →
  NoDup found.
Proof.
  intros Hkeyed Hrange H.
  pose proof (find_provenance _ _ _ _ _ _ H) as (Ha & Hs & _).
  rewrite find_selects in H by done.
  unfold callAfterRefreshing, finder, bind, get in H.
  rewrite bool_decide_false in H by done. unfold ret in H.
  eapply (finder_loop_NoDup _ _ c); try exact H; try done; [constructor|constructor|].
  intros q k Hq. by apply elem_of_nil in Hq.
Qed.

(** ** The errors of [autoExport] and of [resolveBean] *)

Lemma autoExport_fields_app b pre post c :
  autoExport_fields b (pre ++ post) c =
    match autoExport_fields b pre c with
    | Return None c1 => autoExport_fields b post c1
    | o => o
    end.
Proof.
  revert c. induction pre as [|f pre IH]; intros c; [done|].
  cbn [app autoExport_fields].
  destruct (negb (has_tag f "export")).
  - destruct (_ || _); [apply IH|].
    destruct (bool_decide _); [|apply IH].
    unfold bind. destruct (autoExport _ b c) as [[e|] c1| | |]; first [done|apply IH].
  - destruct (bool_decide _); [done|].
    destruct (_ && _); [done|].
    unfold bind, Export, modify. apply IH.
Qed.

Lemma autoExport_struct t b :
  Kind_ t = Struct →
  ∀ c, ∃ r c', autoExport t b c = Return r c' ∧
    (r = None ∨ r = Some "export can only use on interface" ∨
     r = Some "inject or autowire can't use with export").
Proof.
  induction t as [k n|n|e IHe|n fs IHfs] using rtype_Indirect_ind;
    intros Hk; try discriminate; [by destruct k|].
  clear Hk. intros c. rewrite autoExport_StructOf. revert c.
  induction IHfs as [|f fs Hf _ IH]; intros c; simpl; [by eauto|].
  destruct (negb (has_tag f "export")).
  - destruct (_ || _); [apply IH|].
    destruct (bool_decide (Kind_ (Indirect (Type_ f)) = Struct)) eqn:Hs; [|apply IH].
    apply bool_decide_eq_true in Hs.
    destruct (Hf Hs c) as ([e|] & c1 & H1 & Hr); unfold bind; rewrite H1.
    + unfold ret. eauto.
    + apply IH.
  - destruct (bool_decide _); [unfold ret; by eauto 6|].
    destruct (_ && _); [unfold ret; by eauto 6|].
    unfold bind, Export, modify. apply IH.
Qed.

(** X8: what [autoExport] returns.  Whenever it returns, the type it
    was given is a struct, its result is nil or one of its two errors, and
    it has changed nothing but the exports of its descriptor, to which it
    has added only types of kind Interface.  On a type that is not a
    struct it panics (in [NumField]); [resolveBean] calls it on structs
    only.  Nothing is said here of whether it returns: on a struct that
    embeds itself the recursion of the source has no end, and such a type
    is not among the finite descriptors of the model. *)
Theorem autoExport_returns_on_structs_only t b c :
  (∀ r c', autoExport t b c = Return r c' →
     Kind_ t = Struct ∧ exports_only b c c' ∧
     (∀ u, u ∈ exports (store c' b) → u ∈ exports (store c b) ∨ Kind_ u = Interface) ∧
     (r = None ∨ r = Some "export can only use on interface" ∨
      r = Some "inject or autowire can't use with export")) ∧
  (Kind_ t ≠ Struct →
     autoExport t b c = Panicked ("reflect: NumField of non-struct type " +:+ String_ t)).
Proof.
  split.
  - intros r c' H.
    assert (Kind_ t = Struct) as Hk by (by destruct t as [[] ?| | |]).
    destruct (autoExport_struct t b Hk c) as (r' & c'' & H' & Hr).
    rewrite H in H'. injection H' as <- <-.
    split_and!; [done| | |done].
    + by eapply autoExport_exports_only.
    + by eapply autoExport_interfaces.
  - intros Hk. by destruct t.
Qed.

(** X9: the two errors of [autoExport], and what is left of the fields
    before.  When the fields before a field are gone through without error,
    a field tagged for export whose type is not an interface makes
    [autoExport] return the first error, whatever its other tags; one whose
    type is an interface and which is also tagged for injection makes it
    return the second; and the error of the auto-export of an embedded
    struct is returned as it is.  In each case the exports collected
    before the error stay. *)
Theorem autoExport_rejects_a_field n pre f post b c c1 :
  autoExport (StructOf n pre) b c = Return None c1 →
  (has_tag f "export" = true → Kind_ (Type_ f) ≠ Interface →
     autoExport (StructOf n (pre ++ f :: post)) b c =
       Return (Some "export can only use on interface") c1) ∧
  (has_tag f "export" = true → Kind_ (Type_ f) = Interface →
     has_tag f "inject" = true ∨ has_tag f "autowire" = true →
     autoExport (StructOf n (pre ++ f :: post)) b c =
       Return (Some "inject or autowire can't use with export") c1) ∧
  (∀ e c2, has_tag f "export" = false → has_tag f "inject" = false →
     has_tag f "autowire" = false → Anonymous f = true →
     Kind_ (Indirect (Type_ f)) = Struct →
     autoExport (Indirect (Type_ f)) b c1 = Return (Some e) c2 →
     autoExport (StructOf n (pre ++ f :: post)) b c = Return (Some e) c2).
Proof.
  rewrite !autoExport_StructOf. intros Hpre.
  rewrite autoExport_fields_app, Hpre. split_and!.
  - intros He Hk. cbn [autoExport_fields]. rewrite He. cbn [negb].
    by rewrite bool_decide_true.
  - intros He Hk Hi. cbn [autoExport_fields]. rewrite He. cbn [negb].
    rewrite bool_decide_false by (by intros []).
    by destruct Hi as [-> | ->]; [|rewrite orb_true_r].
  - intros e c2 He Hi Ha Hn Hk H. cbn [autoExport_fields].
    rewrite He, Hi, Ha, Hn. cbn [negb orb].
    rewrite bool_decide_true by done. unfold bind. by rewrite H.
Qed.

Lemma autoExport_of_error b c e c' :
  autoExport_of b c = Return (Some e) c' →
  e = "export can only use on interface" ∨
  e = "inject or autowire can't use with export".
Proof.
  unfold autoExport_of, bind, load.
  destruct (bool_decide _) eqn:Hk; [|discriminate].
  apply bool_decide_eq_true in Hk. intros H.
  destruct (autoExport_struct _ b Hk c) as (r & c1 & H1 & Hr).
  rewrite H1 in H. injection H as -> ->.
  destruct Hr as [?|[[= ->]|[= ->]]]; [done|by left|by right].
Qed.

Lemma resolution_error_same d d' e :
  Type' d' = Type' d → Description d' = Description d →
  resolution_error d e → resolution_error d' e.
Proof.
  intros HT HD [->|[->|(t & Hk & Hi & ->)]]; [by left|by right; left|].
  right; right. exists t. rewrite HT. split_and!; [done..|].
  unfold not_implement. by rewrite HD.
Qed.

Lemma resolveBean_error fuel b c e c' :
  resolveBean fuel b c = Return (Some e) c' → resolution_error (store c b) e.
Proof.
  intros H. apply resolveBean_Return in H
    as [(_ & [=] & _)|(Hs & fuel' & ok & c2 & -> & H1 & H2)].
  apply evalCond_resolution in H1.
  pose proof (resolution_frozen _ _ H1 b (settled_enter b c)) as F.
  pose proof (frozen_store _ _ _ F) as Hb. simpl in Hb. rewrite fn_lookup_insert in Hb.
  destruct ok; [|by rewrite finish_false in H2].
  apply finish_finished in H2.
  inversion H2 as [|c1 e' E|c1 pre t post E Hts Hpre Hk Hi|]; subst.
  - apply autoExport_of_error in E as [->| ->]; [by left|by right; left].
  - pose proof (autoExport_of_exports_only _ _ _ _ E) as (T & _).
    apply (resolution_error_same (store c1 b)).
    + rewrite (touches_Type _ _ _ T). simpl. by rewrite Hb.
    + rewrite (touches_Description _ _ _ T). simpl. by rewrite Hb.
    + right; right. by exists t.
Qed.

Lemma resolveBean_error_status fuel b c e c' :
  resolveBean fuel b c = Return (Some e) c' → status (store c' b) = Resolving.
Proof.
  intros H. apply resolveBean_Return in H
    as [(_ & [=] & _)|(Hs & fuel' & ok & c2 & -> & H1 & H2)].
  apply evalCond_resolution in H1.
  pose proof (resolution_frozen _ _ H1 b (settled_enter b c)) as F.
  pose proof (frozen_store _ _ _ F) as Hb. simpl in Hb. rewrite fn_lookup_insert in Hb.
  pose proof (finish_status _ _ _ _ _ H2) as Hst.
  destruct ok; [|by rewrite finish_false in H2].
  by rewrite Hb in Hst.
Qed.

(** X10: the errors of [resolveBean].  An error it returns is one of
    three: the two of auto-export, or the one that names the descriptor
    and an interface it declares and does not implement.  The descriptor
    was below Resolving at the call; it is left at Resolving, indexed
    under its own type and still under no name it was not under. *)
Theorem resolveBean_returns_one_of_three_errors fuel b c e c' :
  resolveBean fuel b c = Return (Some e) c' →
  resolution_error (store c b) e ∧
  (code (status (store c b)) < code Resolving)%Z ∧
  status (store c' b) = Resolving ∧
  b ∈ beansByType c' (Type' (store c b)) ∧
  (∀ n, b ∈ beansByName c' !!! n → b ∈ beansByName c !!! n).
Proof.
  intros H. apply resolveBean_Return in H
    as [(_ & [=] & _)|(Hs & fuel' & ok & c2 & -> & H1 & H2)].
  apply evalCond_resolution in H1.
  assert (code (status (store c b)) < code Resolving)%Z as Hlt.
  { unfold settled in Hs. apply bool_decide_eq_false in Hs. lia. }
  pose proof (resolution_frozen _ _ H1 b (settled_enter b c)) as F.
  pose proof (frozen_store _ _ _ F) as Hb. simpl in Hb. rewrite fn_lookup_insert in Hb.
  pose proof (finish_status _ _ _ _ _ H2) as Hst.
  destruct ok; [|by rewrite finish_false in H2].
  rewrite Hb in Hst. simpl in Hst.
  assert (∀ n, b ∈ beansByName c2 !!! n → b ∈ beansByName c !!! n) as Hn.
  { intros n Hin. by apply (frozen_byName _ _ _ F) in Hin. }
  apply finish_finished in H2.
  inversion H2 as [|c1 e' E|c1 pre t post E Hts Hpre Hk Hi|]; subst.
  - pose proof (autoExport_of_exports_only _ _ _ _ E) as (_ & _ & Ht & Hm & _).
    split_and!; [|done|done| |].
    + apply autoExport_of_error in E as [->| ->]; [by left|by right; left].
    + rewrite Ht, Hb. apply elem_of_indexed_under.
    + intros n. rewrite Hm. apply Hn.
  - pose proof (autoExport_of_exports_only _ _ _ _ E) as (T & _ & Ht & Hm & _).
    assert (Type' (store c1 b) = Type' (store c b)) as HT.
    { rewrite (touches_Type _ _ _ T). simpl. by rewrite Hb. }
    assert (Description (store c1 b) = Description (store c b)) as HD.
    { rewrite (touches_Description _ _ _ T). simpl. by rewrite Hb. }
    split_and!; [|done|done| |].
    + right; right. exists t. rewrite <- HT. split_and!; [done..|].
      unfold not_implement. by rewrite HD.
    + apply (touches_byType_own _ _ _ (touches_indexed_under_all b pre c1)).
      rewrite Ht, Hb. apply elem_of_indexed_under.
    + intros n. rewrite beansByName_indexed_under_all, Hm. apply Hn.
Qed.

(** ** What a resolution that returns nil leaves *)

(** X11: when [resolveBean] returns nil for a descriptor of the
    identity index that was below Resolving, the descriptor is either
    Deleted and out of the identity index (it has a condition, which did
    not hold), or Resolved and still in the identity index; then it is
    indexed under its own type, under its name and under each of its
    exports, declared or collected by auto-export, each of which is an
    interface its type implements. *)
Theorem resolveBean_nil_means_deleted_or_fully_indexed fuel b c k c' :
  keyed c →
  (∀ l t, t ∈ rangeExports l ↔ t ∈ l) →
  beansById c !! k = Some b →
  (code (status (store c b)) < code Resolving)%Z →
  resolveBean fuel b c = Return None c' →
  (status (store c' b) = Deleted ∧ beansById c' !! k = None ∧
   is_Some (cond (store c b))) ∨
  (status (store c' b) = Resolved ∧ beansById c' !! k = Some b ∧
   b ∈ beansByType c' (Type' (store c b)) ∧
   b ∈ beansByName c' !!! name (store c b) ∧
   ∀ t, t ∈ exports (store c' b) →
     Kind_ t = Interface ∧ implements (Type' (store c b)) t = true ∧
     b ∈ beansByType c' t).
Proof.
  intros Hkeyed Hrange Hk Hlt H. apply resolveBean_Return in H
    as [(Hs & _ & _)|(Hs & fuel' & ok & c2 & -> & H1 & H2)].
  { unfold settled in Hs. apply bool_decide_eq_true in Hs. lia. }
  assert (ok = false → is_Some (cond (store c b))) as Hcond.
  { intros ->. unfold evalCond in H1. destruct (cond (store c b)); [by eauto|discriminate]. }
  apply evalCond_resolution in H1.
  pose proof (resolution_frozen _ _ H1 b (settled_enter b c)) as F.
  pose proof (frozen_store _ _ _ F) as Hb. simpl in Hb. rewrite fn_lookup_insert in Hb.
  assert (keyed (enter b c)) as Hkeyed'.
  { eapply stable_keyed; [eapply touches_stable, touches_enter|done]. }
  pose proof (resolution_registered _ _ H1 Hkeyed' _ _ (settled_enter b c) Hk) as Hk2.
  pose proof (stable_keyed _ _ (resolution_stable _ _ H1) Hkeyed' _ _ Hk2) as Hid.
  apply finish_finished in H2.
  inversion H2 as [| | |c1 E Hts]; subst.
  - left. split_and!; [|by simpl; rewrite lookup_delete_eq|by apply Hcond].
    simpl. by rewrite fn_lookup_insert.
  - right.
    pose proof (autoExport_of_exports_only _ _ _ _ E) as (T & Hi & Ht & Hm & _).
    assert (Type' (store c1 b) = Type' (store c b)) as HT.
    { rewrite (touches_Type _ _ _ T). simpl. by rewrite Hb. }
    assert (name (store c1 b) = name (store c b)) as HN.
    { rewrite (touches_name _ _ _ T). simpl. by rewrite Hb. }
    split_and!.
    + simpl. by rewrite fn_lookup_insert.
    + simpl. by rewrite beansById_indexed_under_all, Hi.
    + simpl. apply (touches_byType_own _ _ _ (touches_indexed_under_all b _ c1)).
      rewrite Ht, Hb. apply elem_of_indexed_under.
    + simpl. rewrite store_indexed_under_all, HN, lookup_total_insert, decide_True by done.
      apply elem_of_app. right. by apply list_elem_of_singleton.
    + intros t Ht'. simpl in Ht'. rewrite fn_lookup_insert in Ht'. simpl in Ht'.
      rewrite store_indexed_under_all in Ht'. apply Hrange in Ht'.
      pose proof (proj1 (list.Forall_forall _ _) Hts t Ht') as [Hki Him].
      rewrite HT in Him. split_and!; [done..|].
      simpl. by apply elem_of_indexed_under_all.
Qed.



(** ** Registration *)

Lemma callBeforeRefreshing_passes {A} (k : unit → M A) c :
  state c = Unrefreshed → bind callBeforeRefreshing k c = k tt c.
Proof.
  intros H. unfold callBeforeRefreshing, bind, get.
  rewrite bool_decide_false; [done|]. intros Hn. by apply Hn.
Qed.

Lemma set_beans_id c : set_beans (beans c) c = c.
Proof. by destruct c. Qed.

(** X13: registration before refresh.  On a container that is
    Unrefreshed, [Register] returns the descriptor it is given and appends
    it to the registrations, leaving the rest of the container, its phase
    included, as it is; so registrations can go on, and the descriptors are
    kept in the order of their registration.  [Object] and [Provide]
    register the descriptor [NewBean] makes. *)
Theorem Register_keeps_the_order_of_registration c :
  state c = Unrefreshed →
  (∀ b, Register b c = Return b (set_beans (beans c ++ [b]) c)) ∧
  (∀ bs, foldr (λ b m, Register b ;; m) (ret tt) bs c
         = Return tt (set_beans (beans c ++ bs) c)) ∧
  (∀ i b c1, NewBean i [] c = Return b c1 → state c1 = Unrefreshed →
     Object i c = Return b (set_beans (beans c1 ++ [b]) c1)) ∧
  (∀ ctor args b c1, NewBean ctor args c = Return b c1 → state c1 = Unrefreshed →
     Provide ctor args c = Return b (set_beans (beans c1 ++ [b]) c1)).
Proof.
  intros Hs.
  assert (∀ c b, state c = Unrefreshed →
            Register b c = Return b (set_beans (beans c ++ [b]) c)) as HR.
  { intros c0 b H0. unfold Register. by rewrite callBeforeRefreshing_passes. }
  split_and!.
  - intros b. by apply HR.
  - intros bs. revert c Hs. induction bs as [|b bs IH]; intros c Hs; simpl.
    + by rewrite app_nil_r, set_beans_id.
    + unfold bind at 1. rewrite HR by done. rewrite IH by done.
      simpl. by rewrite <- app_assoc.
  - intros i b c1 HN H1. unfold Object. rewrite callBeforeRefreshing_passes by done.
    unfold bind. rewrite HN. by apply HR.
  - intros ctor args b c1 HN H1. unfold Provide. rewrite callBeforeRefreshing_passes by done.
    unfold bind. rewrite HN. by apply HR.
Qed.

(** X14: the checks of [Config].  On a container that is Unrefreshed,
    [Config] panics on a value that is not a function, panics on a function
    that returns something other than nothing or one error, and otherwise
    registers, after the configuration functions there are, a function
    bound to its arguments, with no condition, and returns it. *)
Theorem Config_checks_the_function f args c :
  state c = Unrefreshed →
  (IsFuncType f = false → Config f args c = Panicked "xxx") ∧
  (IsFuncType f = true → ReturnNothing f = false → ReturnOnlyError f = false →
     Config f args c = Panicked "fn should be func() or func()error") ∧
  (IsFuncType f = true → ReturnNothing f = true ∨ ReturnOnlyError f = true →
     Config f args c =
       Return (mkConfiger (Bind f args) None)
              (set_configers (configers c ++ [mkConfiger (Bind f args) None]) c)).
Proof.
  intros Hs. unfold Config. rewrite callBeforeRefreshing_passes by done.
  split_and!.
  - by intros ->.
  - by intros -> -> ->.
  - intros -> [-> | ->]; [done|]. by destruct (ReturnNothing f).
Qed.

(** ** The phases of [Refresh] *)

Lemma registerBeans_loop_writes_byId bs : ∀ c c',
  registerBeans_loop bs c = Return tt c' → c' = set_beansById (beansById c') c.
Proof.
  induction bs as [|b bs IH]; intros c c' H; simpl in H.
  - injection H as <-. by destruct c.
  - unfold bind at 1, get in H. destruct (beansById c !! _); [discriminate|].
    unfold bind, modify in H. apply IH in H. by rewrite H.
Qed.

(** What the evaluation of a condition changes, [c'] being the container
    it leaves. *)
Lemma Matches_find_resolution fuel k c r c' :
  Matches (find fuel) k c = Return r c' → resolution c c'.
Proof. apply Matches_resolution, resolveBean_resolution. Qed.

Lemma resolveConfigers_loop_kept fuel gs : ∀ c c',
  resolveConfigers_loop fuel gs c = Return tt c' →
  ∃ kept, configerList c' = configerList c ++ kept ∧
    kept `sublist_of` gs ∧
    (∀ g, g ∈ gs → g_cond g = None → g ∈ kept) ∧
    (∀ g, g ∈ kept → g_cond g = None ∨
       ∃ k c1 c2, g_cond g = Some k ∧ Matches (find fuel) k c1 = Return true c2) ∧
    configers c' = configers c ∧ events c' = events c ∧ beans c' = beans c ∧
    state c' = state c ∧ beansById c' ⊆ beansById c ∧ awaiting c' ⊆ awaiting c.
Proof.
  induction gs as [|g gs IH]; intros c c' H; simpl in H.
  - injection H as <-. exists []. rewrite app_nil_r. split_and!; try done.
    intros g Hg. by apply elem_of_nil in Hg.
  - apply bind_Return in H as (ok & c1 & H1 & H2).
    assert (resolution c c1) as R.
    { destruct (g_cond g); [by eapply Matches_find_resolution|].
      injection H1 as <- <-. constructor. }
    pose proof (resolution_untouched _ _ R) as U.
    pose proof (resolution_stable _ _ R) as S.
    pose proof (resolution_awaiting _ _ R) as A.
    apply bind_Return in H2 as ([] & c2 & H2 & H3).
    apply IH in H3 as (kept & E1 & E2 & E3 & E4 & E5 & E6 & E7 & E8 & E9 & E10).
    destruct ok.
    + injection H2 as <-. exists (g :: kept). simpl in *. split_and!.
      * by rewrite E1, (untouched_configerList _ _ U), <- app_assoc.
      * by constructor.
      * intros g' Hg' Hn. apply elem_of_cons in Hg' as [->|Hg'];
          apply elem_of_cons; [by left|right; by apply E3].
      * intros g' Hg'. apply elem_of_cons in Hg' as [->|Hg']; [|by apply E4].
        destruct (g_cond g) as [k|]; [right|by left]. by exists k, c, c1.
      * by rewrite E5, (untouched_configers _ _ U).
      * by rewrite E6, (untouched_events _ _ U).
      * by rewrite E7, (untouched_beans _ _ U).
      * by rewrite E8, (stable_state _ _ S).
      * etrans; [exact E9|apply S].
      * etrans; [exact E10|exact A].
    + injection H2 as <-. exists kept. split_and!.
      * by rewrite E1, (untouched_configerList _ _ U).
      * by constructor.
      * intros g' Hg' Hn. apply elem_of_cons in Hg' as [->|Hg']; [|by apply E3].
        rewrite Hn in H1. discriminate.
      * done.
      * by rewrite E5, (untouched_configers _ _ U).
      * by rewrite E6, (untouched_events _ _ U).
      * by rewrite E7, (untouched_beans _ _ U).
      * by rewrite E8, (stable_state _ _ S).
      * etrans; [exact E9|apply S].
      * etrans; [exact E10|exact A].
Qed.

Lemma resolveConfigers_loop_cons fuel g gs c :
  resolveConfigers_loop fuel (g :: gs) c =
    match keeps fuel g c with
    | Return ok c1 =>
        resolveConfigers_loop fuel gs
          (if ok then set_configerList (configerList c1 ++ [g]) c1 else c1)
    | Panicked v => Panicked v
    | Blocked c1 => Blocked c1
    | OutOfFuel => OutOfFuel
    end.
Proof.
  cbn [resolveConfigers_loop]. unfold bind at 1.
  change (match g_cond g with
          | Some k => Matches (find fuel) k
          | None => ret true
          end c) with (keeps fuel g c).
  destruct (keeps fuel g c) as [[] c1| | |]; reflexivity.
Qed.

Lemma answered_true_cons g gs ok oks :
  answered_true (g :: gs) (ok :: oks) = (if ok then [g] else []) ++ answered_true gs oks.
Proof.
  unfold answered_true. cbn [zip zip_with]. rewrite filter_cons. simpl.
  destruct ok; [by rewrite decide_True|by rewrite decide_False].
Qed.

Lemma keeps_resolution fuel g c ok c1 :
  keeps fuel g c = Return ok c1 → resolution c c1.
Proof.
  unfold keeps. destruct (g_cond g); [apply Matches_find_resolution|].
  intros [= <- <-]. constructor.
Qed.

Lemma resolveConfigers_loop_answers fuel gs : ∀ c c',
  resolveConfigers_loop fuel gs c = Return tt c' →
  ∃ oks, length oks = length gs ∧
    configerList c' = configerList c ++ answered_true gs oks ∧
    ∀ i g ok, gs !! i = Some g → oks !! i = Some ok →
      ∃ c1 c2, resolveConfigers_loop fuel (take i gs) c = Return tt c1 ∧
        keeps fuel g c1 = Return ok c2 ∧ (g_cond g = None → ok = true).
Proof.
  induction gs as [|g gs IH]; intros c c' H.
  - injection H as <-. exists []. split_and!; [done|by rewrite app_nil_r|].
    intros i g ok Hg. by rewrite lookup_nil in Hg.
  - rewrite resolveConfigers_loop_cons in H.
    destruct (keeps fuel g c) as [ok c1| | |] eqn:Hk; try discriminate.
    pose proof (untouched_configerList _ _ (resolution_untouched _ _ (keeps_resolution _ _ _ _ _ Hk)))
      as Hl.
    destruct (IH _ _ H) as (oks & Hlen & Hlist & Hrun).
    exists (ok :: oks). split_and!.
    + simpl. by rewrite Hlen.
    + rewrite Hlist, answered_true_cons. destruct ok; simpl; rewrite Hl; [|done].
      by rewrite <- app_assoc.
    + intros [|i] g' ok' Hg Hok; simpl in Hg, Hok.
      * injection Hg as <-. injection Hok as <-. exists c, c1. split_and!; [done..|].
        intros Hn. unfold keeps in Hk. rewrite Hn in Hk. by injection Hk as <- _.
      * destruct (Hrun i g' ok' Hg Hok) as (c2 & c3 & H2 & H3 & H4).
        exists c2, c3. split_and!; [|done..].
        cbn [take]. by rewrite resolveConfigers_loop_cons, Hk.
Qed.

(** X15: which configuration functions are kept.  When
    [resolveConfigers] returns, each registered configuration function has
    had its condition evaluated once, in the order of the registrations, in
    the container the loop had reached when it came to it (the one the loop
    returns on the registrations before it), a function without a condition
    counting as answering true.  The list handed to the sorter is the list
    there was followed by the functions that answered true, in the order of
    their registration: every one that has no condition is among them.
    The registered functions and the events are what they were. *)
Theorem resolveConfigers_keeps_unconditional_and_matching fuel c c' :
  resolveConfigers fuel c = Return tt c' →
  ∃ oks, length oks = length (configers c) ∧
    configerList c' = sortTriple (configerList c ++ answered_true (configers c) oks) ∧
    (∀ i g ok, configers c !! i = Some g → oks !! i = Some ok →
       ∃ c1 c2, resolveConfigers_loop fuel (take i (configers c)) c = Return tt c1 ∧
         keeps fuel g c1 = Return ok c2 ∧ (g_cond g = None → ok = true)) ∧
    answered_true (configers c) oks `sublist_of` configers c ∧
    (∀ g, g ∈ configers c → g_cond g = None → g ∈ answered_true (configers c) oks) ∧
    configers c' = configers c ∧ events c' = events c.
Proof.
  unfold resolveConfigers. intros H.
  apply bind_Return in H as ([] & c1 & H1 & H2).
  unfold bind, get in H1.
  destruct (resolveConfigers_loop_answers _ _ _ _ H1) as (oks & Hlen & Hlist & Hrun).
  apply resolveConfigers_loop_kept in H1
    as (kept & E1 & E2 & E3 & _ & E5 & E6 & _).
  assert (kept = answered_true (configers c) oks) as ->.
  { rewrite Hlist in E1. by apply app_inv_head in E1. }
  injection H2 as <-. exists oks. simpl. by rewrite Hlist.
Qed.

Lemma configured_snoc gs g assembly :
  configured (gs ++ [g]) assembly = (callConfiger g (configured gs assembly)).1.
Proof. unfold configured. by rewrite foldl_app. Qed.

Lemma wired_snoc bs b assembly :
  wired (bs ++ [b]) assembly = (wireBean b (wired bs assembly)).1.
Proof. unfold wired. by rewrite foldl_app. Qed.

Lemma set_events_id c : set_events (events c) c = c.
Proof. by destruct c. Qed.

Lemma runConfigers_loop_calls gs : ∀ done_ assembly c,
  ∃ called err,
    runConfigers_loop gs (configured done_ assembly) c =
      Return (configured (done_ ++ called) assembly, err)
             (set_events (events c ++ (Call <$> called)) c) ∧
    (∀ pre g post, called = pre ++ g :: post → post ≠ [] →
       (callConfiger g (configured (done_ ++ pre) assembly)).2 = None) ∧
    match err with
    | None => called = gs ∧
        ∀ pre g post, gs = pre ++ g :: post →
          (callConfiger g (configured (done_ ++ pre) assembly)).2 = None
    | Some e => ∃ pre g post, gs = pre ++ g :: post ∧ called = pre ++ [g] ∧
        (callConfiger g (configured (done_ ++ pre) assembly)).2 = Some e
    end.
Proof.
  induction gs as [|g gs IH]; intros done_ assembly c.
  - exists [], None. simpl. rewrite !app_nil_r, set_events_id. split_and!; try done.
    + by intros [] ??.
    + by intros [] ??.
  - simpl. unfold bind at 1, emit, modify.
    destruct (callConfiger g (configured done_ assembly)) as [a1 [e|]] eqn:Hg; simpl.
    + exists [g], (Some e). rewrite configured_snoc, Hg. split_and!; [done| |].
      * intros [|? [|? ?]] g' post [=]; by subst.
      * exists [], g, gs. by rewrite app_nil_r, Hg.
    + assert (a1 = configured (done_ ++ [g]) assembly) as ->
        by (by rewrite configured_snoc, Hg).
      destruct (IH (done_ ++ [g]) assembly (set_events (events c ++ [Call g]) c))
        as (called & err & H1 & H2 & H3).
      exists (g :: called), err. rewrite H1. split_and!.
      * simpl. by rewrite <- !app_assoc.
      * intros [|g0 pre] g' post [= <- Hc] Hp.
        -- by rewrite app_nil_r, Hg.
        -- subst called. specialize (H2 pre g' post eq_refl Hp).
           by rewrite <- app_assoc in H2.
      * destruct err as [e|].
        -- destruct H3 as (pre & g' & post & -> & -> & H3).
           exists (g :: pre), g', post. by rewrite <- app_assoc in H3.
        -- destruct H3 as [-> H3]. split; [done|].
           intros [|g0 pre] g' post [= <- Hc].
           ++ by rewrite app_nil_r, Hg.
           ++ specialize (H3 pre g' post Hc). by rewrite <- app_assoc in H3.
Qed.

(** X16: [runConfigers] stops at the first failure.  It always
    returns, having changed nothing but the record of events; it has called
    the kept configuration functions in their order, each on the assembly
    the ones before have left, up to the first one that fails, whose error
    it returns, the ones after being not called; when it returns nil all of
    them have been called and none has failed. *)
Theorem runConfigers_stops_at_the_first_failure assembly c :
  ∃ called err,
    runConfigers assembly c =
      Return (configured called assembly, err)
             (set_events (events c ++ (Call <$> called)) c) ∧
    (∀ pre g post, called = pre ++ g :: post → post ≠ [] →
       (callConfiger g (configured pre assembly)).2 = None) ∧
    match err with
    | None => called = configerList c ∧
        ∀ pre g post, configerList c = pre ++ g :: post →
          (callConfiger g (configured pre assembly)).2 = None
    | Some e => ∃ pre g post, configerList c = pre ++ g :: post ∧ called = pre ++ [g] ∧
        (callConfiger g (configured pre assembly)).2 = Some e
    end.
Proof.
  unfold runConfigers, bind, get.
  destruct (runConfigers_loop_calls (configerList c) [] assembly c)
    as (called & err & H1 & H2 & H3).
  by exists called, err.
Qed.

Lemma omap_cons_Some {A B} (f : A → option B) x y l :
  f x = Some y → omap f (x :: l) = y :: omap f l.
Proof. intros H. simpl. by rewrite H. Qed.

Lemma omap_cons_None {A B} (f : A → option B) x l :
  f x = None → omap f (x :: l) = omap f l.
Proof. intros H. simpl. by rewrite H. Qed.

Lemma wireBeans_loop_wires keys : ∀ done_ assembly c,
  ∃ bs err,
    wireBeans_loop keys (wired done_ assembly) c =
      Return (wired (done_ ++ bs) assembly, err)
             (set_events (events c ++ (WireBean <$> bs)) c) ∧
    match err with
    | None => bs = omap (λ k, beansById c !! k) keys ∧
        ∀ pre b post, bs = pre ++ b :: post →
          (wireBean b (wired (done_ ++ pre) assembly)).2 = None
    | Some e => ∃ pre b post,
        omap (λ k, beansById c !! k) keys = pre ++ b :: post ∧ bs = pre ++ [b] ∧
        (wireBean b (wired (done_ ++ pre) assembly)).2 = Some e
    end.
Proof.
  induction keys as [|k keys IH]; intros done_ assembly c.
  - exists [], None. simpl. rewrite !app_nil_r, set_events_id. split_and!; try done.
    by intros [] ??.
  - cbn [wireBeans_loop]. unfold bind at 1, get.
    destruct (beansById c !! k) as [b|] eqn:Hk.
    2:{ rewrite (omap_cons_None (λ k, beansById c !! k) k keys Hk). apply IH. }
    rewrite (omap_cons_Some (λ k, beansById c !! k) k b keys Hk).
    unfold bind at 1, emit, modify.
    destruct (wireBean b (wired done_ assembly)) as [a1 [e|]] eqn:Hb; simpl.
    + exists [b], (Some e). rewrite wired_snoc, Hb. split; [done|].
      exists [], b, (omap (λ k, beansById c !! k) keys). by rewrite app_nil_r, Hb.
    + assert (a1 = wired (done_ ++ [b]) assembly) as ->
        by (by rewrite wired_snoc, Hb).
      destruct (IH (done_ ++ [b]) assembly (set_events (events c ++ [WireBean b]) c))
        as (bs & err & H1 & H3).
      exists (b :: bs), err. rewrite H1. split.
      * simpl. by rewrite <- !app_assoc.
      * simpl in H3. destruct err as [e|].
        -- destruct H3 as (pre & b' & post & -> & -> & H3).
           exists (b :: pre), b', post. by rewrite <- app_assoc in H3.
        -- destruct H3 as [-> H3]. split; [done|].
           intros [|b0 pre] b' post [= <- Hc].
           ++ by rewrite app_nil_r, Hb.
           ++ specialize (H3 pre b' post Hc). by rewrite <- app_assoc in H3.
Qed.



(** X18: a [Refresh] that returns.  It started from a container that
    was Unrefreshed and leaves it Refreshed, with the registrations and
    the registered configuration functions as they were.  Between the
    resolution of the descriptors, which emits nothing, and the end, it has
    called every kept configuration function, in the sorted order, then
    wired every descriptor the range over the identity index meets, none of
    these calls failing; the destroyers are those the assembly gives once
    the wiring is done; the success is logged after the last wiring, and
    the report of the wiring path, if there is one, comes last. *)
Theorem Refresh_calls_the_configers_then_wires fuel c c' :
  Refresh fuel c = Return tt c' →
  ∃ c3,
    let configured_ := configured (configerList c3) (toAssembly c3) in
    let assembly := wired (ranged c3) configured_ in
    state c = Unrefreshed ∧ state c3 = Refreshing ∧ state c' = Refreshed ∧
    beans c' = beans c ∧ configers c' = configers c ∧ events c3 = events c ∧
    store c' = store c3 ∧ beansById c' = beansById c3 ∧
    configerList c' = configerList c3 ∧
    destroyerList c' = sortDestroyers assembly ∧
    events c' = events c ++ (Call <$> configerList c') ++ (WireBean <$> ranged c')
                ++ LogInfo "container refreshed successfully" :: wiring_report assembly ∧
    (∀ pre g post, configerList c3 = pre ++ g :: post →
       (callConfiger g (configured pre (toAssembly c3))).2 = None) ∧
    (∀ pre b post, ranged c3 = pre ++ b :: post →
       (wireBean b (wired pre configured_)).2 = None).
Proof.
  intros H. unfold Refresh in H. unfold bind at 1, get in H.
  destruct (bool_decide (state c ≠ Unrefreshed)) eqn:Hs; [discriminate|].
  apply bool_decide_eq_false in Hs.
  assert (state c = Unrefreshed) as Hs'
    by (destruct (decide (state c = Unrefreshed)); [done|by destruct Hs]).
  apply bind_Return in H as ([] & c0 & H0 & H). injection H0 as <-.
  apply bind_Return in H as ([] & c1 & H1 & H).
  unfold registerBeans, bind, get in H1. apply registerBeans_loop_writes_byId in H1.
  apply bind_Return in H as ([] & c2 & H2 & H).
  unfold resolveConfigers in H2. apply bind_Return in H2 as ([] & c2' & H2 & H2').
  unfold bind, get in H2. apply resolveConfigers_loop_kept in H2
    as (kept & _ & _ & _ & _ & E5 & E6 & E7 & E8 & _).
  injection H2' as <-.
  apply bind_Return in H as (err & c3 & H3 & H).
  apply resolveBeans_resolution in H3.
  pose proof (resolution_untouched _ _ H3) as U.
  pose proof (resolution_stable _ _ H3) as S.
  apply bind_Return in H as ([] & c3' & H4 & H).
  destruct err as [e|]; [discriminate|]. injection H4 as <-.
  unfold bind at 1, get in H.
  apply bind_Return in H as ([a1 err1] & c4 & H5 & H).
  unfold runConfigers, bind, get in H5.
  destruct (runConfigers_loop_calls (configerList c3) [] (toAssembly c3) c3)
    as (called & err & F1 & _ & F3).
  change (configured [] (toAssembly c3)) with (toAssembly c3) in F1.
  rewrite F1 in H5. injection H5 as <- <- <-.
  apply bind_Return in H as ([] & c4' & H6 & H).
  destruct err as [e|]; [discriminate|]. injection H6 as <-.
  destruct F3 as [-> F3]. cbn [app fst] in H.
  apply bind_Return in H as ([a2 err2] & c5 & H7 & H).
  unfold wireBeans, bind, get in H7.
  destruct (wireBeans_loop_wires
              (rangeById (beansById (set_events (events c3 ++ (Call <$> configerList c3)) c3)))
              [] (configured (configerList c3) (toAssembly c3))
              (set_events (events c3 ++ (Call <$> configerList c3)) c3))
    as (bs & err & G1 & G3).
  change (wired [] ?a) with a in G1.
  rewrite G1 in H7. injection H7 as <- <- <-.
  apply bind_Return in H as ([] & c5' & H8 & H).
  destruct err as [e|]; [discriminate|]. injection H8 as <-.
  destruct G3 as [-> G3]. cbn [app fst] in H.
  unfold bind, modify, emit in H. cbn in H.
  change (omap (λ k, beansById c3 !! k) (rangeById (beansById c3))) with (ranged c3) in *.
  exists c3. cbn zeta.
  assert (events c3 = events c) as He.
  { rewrite (untouched_events _ _ U). simpl. rewrite E6, H1. done. }
  assert (state c3 = Refreshing) as Hst.
  { rewrite (stable_state _ _ S). simpl. rewrite E8, H1. done. }
  unfold wiring_report.
  destruct (bool_decide (stack _ ≠ [])); injection H as <-; simpl;
    (split_and!; try done;
     [by rewrite (untouched_beans _ _ U); simpl; rewrite E7, H1
     |by rewrite (untouched_configers _ _ U); simpl; rewrite E5, H1
     |rewrite He, <- !app_assoc; try done..]).
Qed.

Lemma resolveConfigers_loop_descriptors fuel gs : ∀ c c',
  resolveConfigers_loop fuel gs c = Return tt c' →
  ∀ q, Type' (store c' q) = Type' (store c q) ∧
       Description (store c' q) = Description (store c q).
Proof.
  induction gs as [|g gs IH]; intros c c' H q; simpl in H.
  - by injection H as <-.
  - apply bind_Return in H as (ok & c1 & H1 & H2).
    assert (resolution c c1) as R.
    { destruct (g_cond g); [by eapply Matches_find_resolution|].
      injection H1 as <- <-. constructor. }
    apply resolution_stable in R.
    apply bind_Return in H2 as ([] & c2 & H2 & H3).
    destruct (IH _ _ H3 q) as [E1 E2].
    rewrite E1, E2. destruct ok; injection H2 as <-; simpl;
      by rewrite (stable_Type _ _ R), (stable_Description _ _ R).
Qed.

(** ** [Refresh] comes to an end *)

Lemma registerBeans_loop_size bs : ∀ c c',
  registerBeans_loop bs c = Return tt c' →
  size (beansById c') = (size (beansById c) + length bs)%nat.
Proof.
  induction bs as [|b bs IH]; intros c c' H; simpl in H.
  - injection H as <-. simpl. lia.
  - unfold bind at 1, get in H. destruct (beansById c !! _) eqn:Hb; [discriminate|].
    unfold bind, modify in H. apply IH in H. rewrite H. simpl.
    rewrite map_size_insert_None by done. lia.
Qed.

Lemma registerBeans_loop_terminates bs c : terminates (registerBeans_loop bs c).
Proof.
  revert c. induction bs as [|b bs IH]; intros c; simpl; [done|].
  unfold bind at 1, get. destruct (beansById c !! _); [done|].
  unfold bind, modify. apply IH.
Qed.

Lemma registerBeans_loop_entries bs : ∀ c c',
  registerBeans_loop bs c = Return tt c' →
  ∀ k b, beansById c' !! k = Some b → b ∈ bs ∨ beansById c !! k = Some b.
Proof.
  induction bs as [|b bs IH]; intros c c' H k q Hq; simpl in H.
  - injection H as <-. by right.
  - unfold bind at 1, get in H. destruct (beansById c !! _) eqn:Hb; [discriminate|].
    unfold bind, modify in H. destruct (IH _ _ H k q Hq) as [?|Hq']; [left; by right|].
    simpl in Hq'. apply lookup_insert_Some in Hq' as [[_ <-]|[_ Hq']]; [left; by left|by right].
Qed.

Lemma awaiting_size c : (size (awaiting c) ≤ size (beansById c))%nat.
Proof. apply map_subseteq_size, map_filter_subseteq. Qed.

(** The resolutions come to an end where auto-export does: on the
    descriptors [registered] in [c0], whose types no resolution changes. *)
Section ends_of.

Variable registered : addr → Prop.
Variable c0 : Container.
Hypothesis autoExport_ends :
  ∀ b, registered b →
    ∀ q c1, terminates (autoExport (Indirect (Type' (store c0 b))) q c1).

Lemma finish_ends b ok c :
  registered b → Type' (store c b) = Type' (store c0 b) → terminates (finish b ok c).
Proof.
  intros Hb HT. destruct ok; [|done]. rewrite finish_true. apply terminates_bind.
  - unfold autoExport_of, bind, load. destruct (bool_decide _); [|done].
    set (c1 := indexed_under b c (Type' (store c b))).
    change (store c1 b) with (store c b). rewrite HT.
    pose proof (autoExport_ends b Hb b c1) as H.
    by destruct (autoExport _ _ _).
  - intros [e|] c2 _; [done|]. unfold bind at 1, load. apply terminates_bind.
    + apply indexExports_terminates.
    + by intros [e|] c3 _.
Qed.

Lemma resolveBean_ends fuel : ∀ b c k,
  (∀ q, Type' (store c q) = Type' (store c0 q)) →
  (∀ k b, beansById c !! k = Some b → registered b) →
  beansById c !! k = Some b → (size (awaiting c) < fuel)%nat →
  terminates (resolveBean fuel b c).
Proof.
  induction fuel as [|fuel IH]; intros b c k HT HP Hk Hsize; [lia|].
  rewrite resolveBean_unfold. destruct (settled (store c b)) eqn:Hs; [done|].
  pose proof (enter_awaiting_size _ _ _ Hk Hs) as Hlt.
  assert (∀ c1, resolution (enter b c) c1 →
            (∀ q, Type' (store c1 q) = Type' (store c0 q)) ∧
            (∀ k b, beansById c1 !! k = Some b → registered b)) as Hinv.
  { intros c1 R. apply resolution_stable in R. split.
    - intros q. rewrite (stable_Type _ _ R), <- HT. simpl.
      destruct (decide (b = q)) as [->|Hne];
        [by rewrite fn_lookup_insert|by rewrite fn_lookup_insert_ne].
    - intros k' b' Hk'. eapply HP, lookup_weaken; [exact Hk'|apply R]. }
  apply terminates_bind.
  - unfold evalCond. destruct (cond (store c b)) as [kc|]; [|done].
    apply (Matches_terminates _ (enter b c)); [apply resolveBean_resolution| |constructor].
    intros b' c1 k' R Hk'. destruct (Hinv c1 R) as [HT1 HP1].
    eapply IH; [exact HT1|exact HP1|exact Hk'|].
    apply resolution_awaiting, map_subseteq_size in R. lia.
  - intros ok c2 H2. apply evalCond_resolution in H2.
    apply finish_ends; [by eapply HP|]. apply (Hinv c2 H2).
Qed.

Lemma keeps_ends fuel g c :
  (∀ q, Type' (store c q) = Type' (store c0 q)) →
  (∀ k b, beansById c !! k = Some b → registered b) →
  (size (awaiting c) < fuel)%nat → terminates (keeps fuel g c).
Proof.
  intros HT HP Hsize. unfold keeps. destruct (g_cond g) as [kc|]; [|done].
  apply (Matches_terminates _ c); [apply resolveBean_resolution| |constructor].
  intros b c1 k R Hk. pose proof (resolution_stable _ _ R) as S.
  eapply resolveBean_ends; [| |exact Hk|].
  - intros q. by rewrite (stable_Type _ _ S).
  - intros k' b' Hk'. eapply HP, lookup_weaken; [exact Hk'|apply S].
  - apply resolution_awaiting, map_subseteq_size in R. lia.
Qed.

Lemma resolveConfigers_loop_ends fuel gs : ∀ c,
  (∀ q, Type' (store c q) = Type' (store c0 q)) →
  (∀ k b, beansById c !! k = Some b → registered b) →
  (size (awaiting c) < fuel)%nat → terminates (resolveConfigers_loop fuel gs c).
Proof.
  induction gs as [|g gs IH]; intros c HT HP Hsize; [done|].
  rewrite resolveConfigers_loop_cons.
  pose proof (keeps_ends fuel g c HT HP Hsize) as Hk.
  destruct (keeps fuel g c) as [ok c1| | |] eqn:E; try done.
  pose proof (keeps_resolution _ _ _ _ _ E) as R.
  pose proof (resolution_stable _ _ R) as S.
  apply resolution_awaiting, map_subseteq_size in R.
  apply IH.
  - intros q. destruct ok; simpl; by rewrite (stable_Type _ _ S).
  - intros k b Hb. eapply HP, lookup_weaken; [|apply S]. by destruct ok.
  - destruct ok; [|lia].
    change (awaiting (set_configerList (configerList c1 ++ [g]) c1)) with (awaiting c1). lia.
Qed.

Lemma resolveBeans_loop_ends fuel keys : ∀ c,
  (∀ q, Type' (store c q) = Type' (store c0 q)) →
  (∀ k b, beansById c !! k = Some b → registered b) →
  (size (awaiting c) < fuel)%nat → terminates (resolveBeans_loop fuel keys c).
Proof.
  induction keys as [|k keys IH]; intros c HT HP Hsize; simpl; [done|].
  unfold bind at 1, get. destruct (beansById c !! k) as [b|] eqn:Hk; [|by apply IH].
  apply terminates_bind; [by eapply resolveBean_ends|].
  intros [e|] c1 H1; [done|].
  apply (resolveBean_resolution _ _ _ _ _ _ Hk) in H1.
  pose proof (resolution_stable _ _ H1) as S.
  apply resolution_awaiting, map_subseteq_size in H1.
  apply IH.
  - intros q. by rewrite (stable_Type _ _ S).
  - intros k' b' Hb. eapply HP, lookup_weaken; [exact Hb|apply S].
  - lia.
Qed.

End ends_of.

(** X19: [Refresh] comes to an end, if auto-export does.  Provided
    the auto-export of the struct behind the type of each registered
    descriptor comes to an end (it does not, in the source, on a struct
    that embeds itself, a type the finite descriptors of the model leave
    out), and from a container whose identity index is empty, as that of a
    container before its refresh is: the resolutions that conditions
    trigger through [find] nest no deeper than there are registrations, so
    with more fuel than that [Refresh] returns or panics, and is never cut
    off. *)
Theorem Refresh_comes_to_an_end fuel c :
  (∀ b, b ∈ beans c →
     ∀ q c1, terminates (autoExport (Indirect (Type' (store c b))) q c1)) →
  beansById c = ∅ →
  (length (beans c) < fuel)%nat →
  terminates (Refresh fuel c).
Proof.
  intros Hends He Hfuel. unfold Refresh. unfold bind at 1, get.
  destruct (bool_decide (state c ≠ Unrefreshed)); [done|].
  apply terminates_bind; [done|]. intros [] c0 [= <-].
  apply terminates_bind; [apply registerBeans_loop_terminates|].
  intros [] c1 H1. unfold registerBeans, bind, get in H1.
  pose proof (registerBeans_loop_writes_byId _ _ _ H1) as Hc1.
  pose proof (registerBeans_loop_entries _ _ _ H1) as Hentries. simpl in Hentries.
  apply registerBeans_loop_size in H1. simpl in H1.
  rewrite He, map_size_empty in H1.
  pose proof (awaiting_size c1) as Ha.
  assert (∀ q, Type' (store c1 q) = Type' (store c q)) as HT1 by (intros q; by rewrite Hc1).
  assert (∀ k b, beansById c1 !! k = Some b → b ∈ beans c) as HP1.
  { intros k b Hb. destruct (Hentries k b Hb) as [?|Hb']; [done|].
    by rewrite He, lookup_empty in Hb'. }
  apply terminates_bind.
  { unfold resolveConfigers. apply terminates_bind; [|done].
    unfold bind, get.
    apply (resolveConfigers_loop_ends (λ b, b ∈ beans c) c Hends); [done..|lia]. }
  intros [] c2 H2.
  unfold resolveConfigers in H2. apply bind_Return in H2 as ([] & c2' & H2 & H2').
  unfold bind, get in H2.
  pose proof (resolveConfigers_loop_descriptors _ _ _ _ H2) as Hd.
  apply resolveConfigers_loop_kept in H2
    as (kept & _ & _ & _ & _ & _ & _ & _ & _ & E9 & E10).
  injection H2' as <-. apply map_subseteq_size in E10.
  apply terminates_bind.
  { unfold resolveBeans, bind, get.
    apply (resolveBeans_loop_ends (λ b, b ∈ beans c) c Hends).
    - intros q. simpl. by rewrite (proj1 (Hd q)).
    - intros k b Hb. simpl in Hb. eapply HP1, lookup_weaken; [exact Hb|exact E9].
    - change (awaiting (set_configerList (sortTriple (configerList c2')) c2'))
        with (awaiting c2'). lia. }
  intros err c3 _.
  apply terminates_bind; [by destruct err|]. intros [] c3' _.
  unfold bind at 1, get.
  destruct (runConfigers_loop_calls (configerList c3') [] (toAssembly c3') c3')
    as (called & err1 & F1 & _).
  change (configured [] (toAssembly c3')) with (toAssembly c3') in F1.
  apply terminates_bind; [unfold runConfigers, bind, get; by rewrite F1|].
  intros r c4 _.
  apply terminates_bind; [by destruct (r.2)|]. intros [] c4' _.
  apply terminates_bind.
  { unfold wireBeans, bind, get.
    destruct (wireBeans_loop_wires (rangeById (beansById c4')) [] r.1 c4')
      as (bs & err2 & G1 & _).
    change (wired [] r.1) with r.1 in G1. by rewrite G1. }
  intros r' c5 _.
  apply terminates_bind; [by destruct (r'.2)|]. intros [] c5' _.
  unfold bind, modify, emit. by destruct (bool_decide _).
Qed.

(** ** Shutdown *)

Lemma Close_returns c :
  state c ≠ Unrefreshed → wg c = 0%nat →
  let c1 := set_events (events c ++ [Cancel; Wait; LogInfo "goroutines exited"])
              (set_ctx true c) in
  Close c =
    Return tt (set_events (events c ++ [Cancel; Wait; LogInfo "goroutines exited"]
                           ++ teardown (destroyerList c) (toAssembly c1)
                           ++ [LogInfo "container closed"])
                 (set_ctx true c)).
Proof.
  intros H Hwg. unfold Close. rewrite callAfterRefreshing_passes by done.
  unfold bind, cancel, bind, emit, modify, wgWait, get, runDestroyers, bind, get. simpl.
  rewrite bool_decide_true by done. unfold emit, modify. simpl.
  rewrite runDestroyers_loop_events. simpl.
  by rewrite <- !app_assoc.
Qed.

(** X20: [Close] can be called again.  A [Close] that returns leaves
    the phase, the list of destroyers, the descriptors and the indices as
    they are, and the wait group at zero; so a second [Close] is accepted
    too, and runs every destroyer a second time, in the same order. *)
Theorem Close_runs_the_destroyers_again c :
  state c ≠ Unrefreshed → wg c = 0%nat →
  ∃ c1 c2 a1 a2,
    Close c = Return tt c1 ∧ Close c1 = Return tt c2 ∧
    state c1 = state c ∧ destroyerList c1 = destroyerList c ∧
    store c1 = store c ∧ beansById c1 = beansById c ∧
    beansByName c1 = beansByName c ∧ beansByType c1 = beansByType c ∧
    events c2 = events c
      ++ ([Cancel; Wait; LogInfo "goroutines exited"] ++ teardown (destroyerList c) a1
          ++ [LogInfo "container closed"])
      ++ ([Cancel; Wait; LogInfo "goroutines exited"] ++ teardown (destroyerList c) a2
          ++ [LogInfo "container closed"]) ∧
    runs (teardown (destroyerList c) a1) = destroyerList c ∧
    runs (teardown (destroyerList c) a2) = destroyerList c.
Proof.
  intros Hs Hwg. pose proof (Close_returns c Hs Hwg) as H1. cbn zeta in H1.
  match type of H1 with
  | _ = Return tt ?c1 => pose proof (Close_returns c1 Hs Hwg) as H2
  end.
  cbn zeta in H2.
  eexists _, _, _, _. split; [exact H1|]. split; [exact H2|].
  do 6 (split; [reflexivity|]). split; [|split; apply runs_teardown].
  cbn [events set_events set_ctx destroyerList]. rewrite <- !app_assoc. reflexivity.
Qed.


(** ** Auto-export again *)

Lemma Export_present b t c :
  t ∈ exports (store c b) → Export b t c = Return tt c.
Proof. intros H. unfold Export, modify. by rewrite bool_decide_true. Qed.

Lemma Export_adds b t c c' :
  Export b t c = Return tt c' → t ∈ exports (store c' b).
Proof.
  unfold Export, modify. destruct (bool_decide _) eqn:E; intros [= <-].
  - by apply bool_decide_eq_true in E.
  - simpl. rewrite fn_lookup_insert. simpl. apply elem_of_app. right.
    by apply list_elem_of_singleton.
Qed.

Lemma autoExport_again t b : ∀ c r c',
  autoExport t b c = Return r c' →
  ∀ c2, exports (store c' b) ⊆ exports (store c2 b) →
    autoExport t b c2 = Return r c2.
Proof.
  induction t as [k n|n|e IHe|n fs IHfs] using rtype_Indirect_ind;
    intros c r c' H; try discriminate.
  pose proof (autoExport_StructOf n fs b) as Hn. rewrite Hn in *. clear Hn.
  assert (∀ fs c r c', autoExport_fields b fs c = Return r c' →
            exports (store c b) ⊆ exports (store c' b)) as Hmono.
  { intros fs0 c0 r0 c0' H0. rewrite <- (autoExport_StructOf n) in H0.
    by apply autoExport_exports_only in H0 as [[] _]. }
  revert c r c' H.
  induction IHfs as [|f fs Hf _ IH]; intros c r c' H c2 Hsub; simpl in H |- *.
  - by injection H as <- <-.
  - destruct (negb (has_tag f "export")).
    + destruct (_ || _); [by eapply IH|].
      destruct (bool_decide (Kind_ (Indirect (Type_ f)) = Struct)); [|by eapply IH].
      apply bind_Return in H as ([e|] & c1 & H1 & H2).
      * injection H2 as <- <-. unfold bind. by rewrite (Hf _ _ _ H1 c2 Hsub).
      * unfold bind. rewrite (Hf _ _ _ H1 c2); [by eapply IH|].
        etrans; [by eapply Hmono|done].
    + destruct (bool_decide _); [by injection H as <- <-|].
      destruct (_ && _); [by injection H as <- <-|].
      apply bind_Return in H as ([] & c1 & H1 & H2).
      unfold bind. rewrite Export_present; [by eapply IH|].
      apply Hsub. eapply Hmono; [exact H2|]. by eapply Export_adds.
Qed.

(** X22: auto-export collects a set.  Once [autoExport] has gone
    through a type for a descriptor, going through it again, at once or
    after other exports have been added to the descriptor, changes nothing
    and gives the same result, nil or the same error: an interface a
    struct exports through several fields, or through a struct embedded more
    than once, is exported once. *)
Theorem autoExport_twice_is_autoExport_once t b c r c' :
  autoExport t b c = Return r c' →
  autoExport t b c' = Return r c' ∧
  ∀ c2, exports (store c' b) ⊆ exports (store c2 b) → autoExport t b c2 = Return r c2.
Proof.
  intros H. split.
  - by eapply autoExport_again.
  - by eapply autoExport_again.
Qed.

(** ** A refresh with nothing registered *)

Lemma resolveBeans_loop_empty fuel keys c :
  beansById c = ∅ → resolveBeans_loop fuel keys c = Return None c.
Proof.
  intros He. induction keys as [|k keys IH]; simpl; [done|].
  unfold bind, get. by rewrite He, lookup_empty.
Qed.

Lemma wireBeans_loop_empty keys assembly c :
  beansById c = ∅ → wireBeans_loop keys assembly c = Return (assembly, None) c.
Proof.
  intros He. induction keys as [|k keys IH]; simpl; [done|].
  unfold bind, get. by rewrite He, lookup_empty.
Qed.

(** X23: the refresh of a container in which nothing is registered.
    [New] without the Pandora facade gives a container that is Unrefreshed
    and empty; and on an Unrefreshed container with no registration, no
    configuration function and empty indices, [Refresh] returns whatever
    the fuel: it calls nothing and wires nothing, takes the destroyers of
    the assembly as built, logs its success and leaves the container
    Refreshed (the sorter giving the empty list for the empty list). *)
Theorem Refresh_with_nothing_registered fuel c :
  sortTriple [] = [] →
  (∀ heap c0, New heap false c0 =
     Return tt (mkContainer ∅ Unrefreshed 0 false [] ∅ ∅ (λ _, []) [] [] [] heap [])) ∧
  (state c = Unrefreshed → beans c = [] → configers c = [] → configerList c = [] →
   beansById c = ∅ →
   let assembly := toAssembly (set_state Refreshing c) in
   Refresh fuel c =
     Return tt (set_events (events c ++ LogInfo "container refreshed successfully"
                                       :: wiring_report assembly)
                  (set_state Refreshed
                     (set_destroyerList (sortDestroyers assembly) c)))).
Proof.
  intros Hsort. split; [done|].
  intros Hs Hb Hg Hl He. destruct c as [p0 st w x bs ids names types gs gl ds sto evs].
  simpl in *. subst. unfold Refresh, bind, get. simpl.
  unfold registerBeans, resolveConfigers, resolveBeans, runConfigers, wireBeans,
    bind, get, modify. simpl.
  rewrite Hsort, resolveBeans_loop_empty by done. simpl.
  rewrite wireBeans_loop_empty by done. simpl.
  unfold emit, modify, wiring_report. simpl.
  destruct (bool_decide _); simpl; by rewrite <- ?app_assoc.
Qed.

(** ** The panics of [Refresh] *)

Lemma bind_Panicked {A B} (m : M A) (k : A → M B) c e :
  bind m k c = Panicked e →
  m c = Panicked e ∨ ∃ a c1, m c = Return a c1 ∧ k a c1 = Panicked e.
Proof.
  unfold bind. destruct (m c) as [a c1|v| |]; try discriminate; [by eauto|].
  intros [= ->]. by left.
Qed.

Lemma indexExports_Panicked b ts c e :
  indexExports b ts c = Panicked e →
  e = "reflect: non-interface type passed to Type.Implements".
Proof.
  revert c. induction ts as [|t ts IH]; intros c H; simpl in H; [discriminate|].
  unfold bind at 1, load in H. unfold bind at 1, Implements in H.
  destruct (bool_decide _); [|by injection H as <-].
  unfold ret in H. destruct (implements _ _); [|discriminate].
  unfold bind, appendByType, modify in H. eauto.
Qed.

Lemma finish_Panicked b ok c e :
  finish b ok c = Panicked e →
  e = "reflect: non-interface type passed to Type.Implements".
Proof.
  destruct ok; [|by rewrite finish_false]. rewrite finish_true. intros H.
  apply bind_Panicked in H as [H|([e'|] & c1 & H1 & H)].
  - unfold autoExport_of, bind, load in H.
    destruct (bool_decide _) eqn:Hk; [|discriminate].
    apply bool_decide_eq_true in Hk.
    destruct (autoExport_struct _ b Hk (indexed_under b c (Type' (store c b))))
      as (r & c1 & H1 & _).
    rewrite H1 in H. discriminate.
  - discriminate.
  - unfold bind at 1, load in H.
    apply bind_Panicked in H as [H|([e'|] & c2 & H2 & H)];
      [by eapply indexExports_Panicked|discriminate..].
Qed.

Section panics_of.

Variable resolve : addr → M (option error).
Hypothesis resolve_resolution :
  ∀ b c k r c', beansById c !! k = Some b → resolve b c = Return r c' → resolution c c'.
Hypothesis resolve_panics :
  ∀ b c e, state c ≠ Unrefreshed → resolve b c = Panicked e → lookup_panic e.

Lemma finder_loop_Panicked fn keys : ∀ result c e,
  state c ≠ Unrefreshed →
  finder_loop resolve fn keys result c = Panicked e → lookup_panic e.
Proof.
  induction keys as [|k keys IH]; intros result c e Hs H; simpl in H; [discriminate|].
  unfold bind at 1, get in H.
  destruct (beansById c !! k) as [b|] eqn:Hk; [|by eapply IH].
  destruct (_ && _); [|by eapply IH].
  apply bind_Panicked in H as [H|([e'|] & c1 & H1 & H)];
    [by eapply resolve_panics|discriminate|].
  assert (state c1 ≠ Unrefreshed) as Hs1.
  { by rewrite (stable_state _ _ (resolution_stable _ _ (resolve_resolution _ _ _ _ _ Hk H1))). }
  unfold bind at 1, load in H. destruct (bool_decide _); by eapply IH.
Qed.

Lemma find_with_Panicked selector c e :
  state c ≠ Unrefreshed →
  find_with resolve selector c = Panicked e → lookup_panic e.
Proof.
  intros Hs H. unfold find_with, callAfterRefreshing, bind at 1, bind at 1, get in H.
  rewrite bool_decide_false in H by done. unfold ret in H.
  destruct (bool_decide (Kind_ _ = String)) eqn:Hk.
  - destruct selector as [s|u]; [unfold finder, bind, get in H; by eapply finder_loop_Panicked|].
    apply bool_decide_eq_true in Hk. injection H as <-. right. by exists u.
  - unfold finder, bind, get in H. by eapply finder_loop_Panicked.
Qed.

Lemma Matches_Panicked k : ∀ c e,
  state c ≠ Unrefreshed →
  Matches (find_with resolve) k c = Panicked e → lookup_panic e.
Proof.
  induction k as [ok|key k IH|selector k IH]; intros c e Hs H; simpl in H; [discriminate| |].
  - unfold bind, get in H. by eapply IH.
  - apply bind_Panicked in H as [H|(x & c1 & H1 & H)]; [by eapply find_with_Panicked|].
    eapply IH; [|exact H].
    by rewrite (stable_state _ _ (resolution_stable _ _
                  (find_with_resolution _ resolve_resolution _ _ _ _ H1))).
Qed.

End panics_of.

Lemma resolveBean_Panicked fuel : ∀ b c e,
  state c ≠ Unrefreshed → resolveBean fuel b c = Panicked e → lookup_panic e.
Proof.
  induction fuel as [|fuel IH]; intros b c e Hs H; [discriminate|].
  rewrite resolveBean_unfold in H. destruct (settled (store c b)); [discriminate|].
  apply bind_Panicked in H as [H|(ok & c2 & H1 & H)].
  - unfold evalCond in H. destruct (cond (store c b)); [|discriminate].
    eapply (Matches_Panicked (resolveBean fuel)); [apply resolveBean_resolution|exact IH| |exact H].
    done.
  - left. by eapply finish_Panicked.
Qed.

Lemma registerBeans_loop_Panicked bs : ∀ c e,
  registerBeans_loop bs c = Panicked e →
  ∃ b d, b ∈ bs ∧ (d ∈ bs ∨ ∃ k, beansById c !! k = Some d) ∧
    e = duplicate_beans c b d.
Proof.
  induction bs as [|b bs IH]; intros c e H; simpl in H; [discriminate|].
  unfold bind at 1, get in H. destruct (beansById c !! _) as [d|] eqn:Hb.
  - injection H as <-. exists b, d. split_and!; [by left|right; by eauto|done].
  - unfold bind, modify in H. apply IH in H as (b' & d' & Hin & Hd & ->).
    exists b', d'. split_and!; [by right| |done].
    destruct Hd as [?|[k Hk]]; [left; by right|]. simpl in Hk.
    apply lookup_insert_Some in Hk as [[_ <-]|[_ Hk]]; [left; by left|right; by eauto].
Qed.

Lemma resolveConfigers_loop_Panicked fuel gs : ∀ c e,
  state c ≠ Unrefreshed →
  resolveConfigers_loop fuel gs c = Panicked e → lookup_panic e.
Proof.
  induction gs as [|g gs IH]; intros c e Hs H; simpl in H; [discriminate|].
  apply bind_Panicked in H as [H|(ok & c1 & H1 & H)].
  - destruct (g_cond g); [|discriminate].
    eapply (Matches_Panicked (resolveBean fuel));
      [apply resolveBean_resolution|apply resolveBean_Panicked|exact Hs|exact H].
  - assert (state c1 ≠ Unrefreshed) as Hs1.
    { destruct (g_cond g); [|by injection H1 as <- <-].
      by rewrite (stable_state _ _ (resolution_stable _ _ (Matches_find_resolution _ _ _ _ _ H1))). }
    apply bind_Panicked in H as [H|([] & c2 & H2 & H)]; [by destruct ok|].
    eapply IH; [|exact H]. by destruct ok; injection H2 as <-.
Qed.

Lemma resolveBeans_loop_outcome fuel keys : ∀ c,
  state c ≠ Unrefreshed →
  (∀ e, resolveBeans_loop fuel keys c = Panicked e → lookup_panic e) ∧
  (∀ e c', resolveBeans_loop fuel keys c = Return (Some e) c' →
     ∃ k q, beansById c !! k = Some q ∧ resolution_error (store c q) e).
Proof.
  induction keys as [|k keys IH]; intros c Hs; [by split|].
  split.
  - intros e H. simpl in H. unfold bind at 1, get in H.
    destruct (beansById c !! k) as [b|] eqn:Hk; [|by eapply IH].
    apply bind_Panicked in H as [H|([e'|] & c1 & H1 & H)];
      [by eapply resolveBean_Panicked|discriminate|].
    eapply IH; [|exact H].
    by rewrite (stable_state _ _ (resolution_stable _ _ (resolveBean_resolution _ _ _ _ _ _ Hk H1))).
  - intros e c' H. simpl in H. unfold bind at 1, get in H.
    destruct (beansById c !! k) as [b|] eqn:Hk; [|by eapply IH].
    apply bind_Return in H as ([e'|] & c1 & H1 & H).
    + injection H as <- <-. exists k, b. split; [done|]. by eapply resolveBean_error.
    + pose proof (resolution_stable _ _ (resolveBean_resolution _ _ _ _ _ _ Hk H1)) as S.
      assert (state c1 ≠ Unrefreshed) as Hs1 by (by rewrite (stable_state _ _ S)).
      destruct (proj2 (IH c1 Hs1) e c' H) as (k' & q & Hq & He).
      exists k', q. split; [by eapply lookup_weaken, stable_byId|].
      eapply resolution_error_same; [| |exact He].
      * symmetry. apply (stable_Type _ _ S).
      * symmetry. apply (stable_Description _ _ S).
Qed.

(** X24: why [Refresh] panics.  The conditions and the collaborators
    returning, and the lookups made with selectors that are values (the
    model has no nil selector, on which the source panics in [reflect]), a
    panic of [Refresh] has one of six reasons, each one a fact of the run:
    the container was not Unrefreshed; or [registerBeans] panicked on two
    registrations with one identity; or the evaluation of the conditions in
    [resolveConfigers], or [resolveBeans], panicked in a lookup or a
    resolution (on a declared export that is not an interface, or on a
    selector of a string kind that is not a string); or [resolveBeans]
    returned an error, one of the three of [resolveBean], about a
    registered descriptor; or, the resolution done, a kept configuration
    function returned an error on the assembly the ones before it had
    left; or, the configuration done, the wiring of a descriptor met by
    the range over the identity index returned an error.  In the last
    three cases the panic value is that error. *)
Theorem Refresh_panics_for_one_of_six_reasons fuel c e :
  Refresh fuel c = Panicked e →
  (state c ≠ Unrefreshed ∧ e = "already refreshed") ∨
  (state c = Unrefreshed ∧
   ((registerBeans (set_state Refreshing c) = Panicked e ∧
     ∃ b d, b ∈ beans c ∧ (d ∈ beans c ∨ ∃ k, beansById c !! k = Some d) ∧
       e = duplicate_beans c b d) ∨
    ∃ c1, registerBeans (set_state Refreshing c) = Return tt c1 ∧
      ((resolveConfigers fuel c1 = Panicked e ∧ lookup_panic e) ∨
       ∃ c2, resolveConfigers fuel c1 = Return tt c2 ∧
         ((resolveBeans fuel c2 = Panicked e ∧ lookup_panic e) ∨
          (∃ c3 q, resolveBeans fuel c2 = Return (Some e) c3 ∧
             (q ∈ beans c ∨ ∃ k, beansById c !! k = Some q) ∧
             resolution_error (store c q) e) ∨
          ∃ c3, resolveBeans fuel c2 = Return None c3 ∧
            ((∃ pre g post, configerList c3 = pre ++ g :: post ∧
                (callConfiger g (configured pre (toAssembly c3))).2 = Some e) ∨
             ((∀ pre g post, configerList c3 = pre ++ g :: post →
                 (callConfiger g (configured pre (toAssembly c3))).2 = None) ∧
              ∃ pre b post, ranged c3 = pre ++ b :: post ∧
                (wireBean b (wired pre (configured (configerList c3) (toAssembly c3)))).2
                = Some e)))))).
Proof.
  intros H. unfold Refresh in H. unfold bind at 1, get in H.
  destruct (bool_decide (state c ≠ Unrefreshed)) eqn:Hs.
  { apply bool_decide_eq_true in Hs. injection H as <-. by left. }
  apply bool_decide_eq_false in Hs.
  assert (state c = Unrefreshed) as Hs'
    by (destruct (decide (state c = Unrefreshed)); [done|by destruct Hs]).
  right. split; [done|]. clear Hs.
  apply bind_Panicked in H as [H|([] & c0 & H0 & H)]; [discriminate|]. injection H0 as <-.
  apply bind_Panicked in H as [H|([] & c1 & H1 & H)].
  { left. split; [done|]. unfold registerBeans, bind, get in H.
    apply registerBeans_loop_Panicked in H as (b & d & Hin & Hd & ->). by exists b, d. }
  right. exists c1. split; [done|].
  unfold registerBeans, bind, get in H1.
  pose proof (registerBeans_loop_writes_byId _ _ _ H1) as Hc1.
  pose proof (registerBeans_loop_entries _ _ _ H1) as Hentries. simpl in Hentries.
  assert (state c1 ≠ Unrefreshed) as Hs1 by (by rewrite Hc1).
  apply bind_Panicked in H as [H|([] & c2 & H2 & H)].
  { left. split; [done|]. unfold resolveConfigers in H.
    apply bind_Panicked in H as [H|([] & c2 & H2 & H)]; [|discriminate].
    unfold bind, get in H. by eapply resolveConfigers_loop_Panicked. }
  right. exists c2. split; [done|].
  unfold resolveConfigers in H2. apply bind_Return in H2 as ([] & c2' & H2 & H2').
  unfold bind, get in H2.
  pose proof (resolveConfigers_loop_descriptors _ _ _ _ H2) as Hd.
  apply resolveConfigers_loop_kept in H2
    as (kept & _ & _ & _ & _ & _ & _ & _ & E8 & E9 & _).
  injection H2' as <-.
  assert (state (set_configerList (sortTriple (configerList c2')) c2') ≠ Unrefreshed) as Hs2.
  { simpl. by rewrite E8. }
  destruct (resolveBeans_loop_outcome fuel
              (rangeById (beansById (set_configerList (sortTriple (configerList c2')) c2')))
              _ Hs2) as [P1 P2].
  apply bind_Panicked in H as [H|(err & c3 & H3 & H)].
  { left. split; [done|]. unfold resolveBeans, bind, get in H. by eapply P1. }
  right.
  apply bind_Panicked in H as [H|([] & c3' & H4 & H)].
  { left. destruct err as [e'|]; [|discriminate]. injection H as ->.
    exists c3. pose proof H3 as H3'. unfold resolveBeans, bind, get in H3'.
    destruct (P2 _ _ H3') as (k & q & Hq & He). simpl in Hq.
    exists q. split_and!; [done| |].
    - destruct (Hentries k q (lookup_weaken _ _ _ _ Hq E9)) as [?|?]; [by left|right; by exists k].
    - eapply resolution_error_same; [| |exact He]; simpl.
      + rewrite (proj1 (Hd q)). by rewrite Hc1.
      + rewrite (proj2 (Hd q)). by rewrite Hc1. }
  right. destruct err as [e'|]; [discriminate|]. injection H4 as <-.
  exists c3. split; [done|].
  unfold bind at 1, get in H.
  destruct (runConfigers_loop_calls (configerList c3) [] (toAssembly c3) c3)
    as (called & err' & F1 & _ & F3).
  change (configured [] (toAssembly c3)) with (toAssembly c3) in F1.
  apply bind_Panicked in H as [H|([a1 err1] & c4 & H5 & H)].
  { unfold runConfigers, bind, get in H. rewrite F1 in H. discriminate. }
  unfold runConfigers, bind, get in H5. rewrite F1 in H5. injection H5 as <- -> <-.
  apply bind_Panicked in H as [H|([] & c4' & H6 & H)].
  { left. destruct err1 as [e'|]; [|discriminate]. injection H as ->.
    destruct F3 as (pre & g & post & F & _ & F3). by exists pre, g, post. }
  right. destruct err1 as [e'|]; [discriminate|]. injection H6 as <-.
  destruct F3 as [-> F3]. split; [exact F3|]. cbn [app fst] in H.
  destruct (wireBeans_loop_wires
              (rangeById (beansById (set_events (events c3 ++ (Call <$> configerList c3)) c3)))
              [] (configured (configerList c3) (toAssembly c3))
              (set_events (events c3 ++ (Call <$> configerList c3)) c3))
    as (bs & err2' & G1 & G3).
  change (wired [] ?a) with a in G1.
  apply bind_Panicked in H as [H|([a2 err2] & c5 & H7 & H)].
  { unfold wireBeans, bind, get in H. rewrite G1 in H. discriminate. }
  unfold wireBeans, bind, get in H7. rewrite G1 in H7. injection H7 as <- -> <-.
  apply bind_Panicked in H as [H|([] & c5' & H8 & H)].
  { destruct err2 as [e'|]; [|discriminate]. injection H as ->.
    destruct G3 as (pre & b & post & G & _ & G3). by exists pre, b, post. }
  exfalso. unfold bind, modify, emit in H. by destruct (bool_decide _).
Qed.

(** ** The error of [find], and the index [registerBeans] builds *)

(** X25: the error of [find].  When [find] returns an error it returns
    no descriptor; the error is that of the resolution of a descriptor of
    the identity index which was not at Resolving at the call: one of the
    three errors of [resolveBean], about that descriptor, which is left at
    Resolving. *)
Theorem find_error_is_that_of_a_resolution fuel selector c found e c' :
  find fuel selector c = Return (found, Some e) c' →
  found = [] ∧
  ∃ k q, beansById c !! k = Some q ∧ status (store c q) ≠ Resolving ∧
    resolution_error (store c q) e ∧ status (store c' q) = Resolving.
Proof.
  intros H. apply find_provenance in H as (_ & _ & _ & _ & E).
  destruct (E e eq_refl) as (-> & k & q & c1 & R & Hk & Hr & _ & H).
  split; [done|]. exists k, q. pose proof (resolution_stable _ _ R) as S. split_and!.
  - by eapply lookup_weaken, stable_byId.
  - intros Hq. apply Hr.
    by rewrite (frozen_store _ _ _ (resolution_frozen _ _ R q (settled_Resolving _ Hq))).
  - eapply resolution_error_same; [| |by eapply resolveBean_error].
    + symmetry. apply (stable_Type _ _ S).
    + symmetry. apply (stable_Description _ _ S).
  - by eapply resolveBean_error_status.
Qed.

(** X26: the index [registerBeans] builds.  From an empty identity
    index, when [registerBeans] returns it has changed nothing but the
    identity index, which is keyed by identity and holds one entry for each
    registration, and no other. *)
Theorem registerBeans_indexes_the_registrations_only c c' :
  beansById c = ∅ →
  registerBeans c = Return tt c' →
  c' = set_beansById (beansById c') c ∧
  keyed c' ∧
  size (beansById c') = length (beans c) ∧
  ∀ k b, beansById c' !! k = Some b → b ∈ beans c.
Proof.
  intros He H. unfold registerBeans, bind, get in H.
  pose proof (registerBeans_loop_size _ _ _ H) as Hsize.
  rewrite He, map_size_empty in Hsize.
  apply registerBeans_loop_keyed in H as (H1 & H2 & H3).
  - split_and!; try done. intros k b Hk. destruct (H3 k b Hk) as [?|Hk']; [done|].
    by rewrite He, lookup_empty in Hk'.
  - intros k b. by rewrite He, lookup_empty.
Qed.

End gs.

(** ** The statements on the small application *)

Import Example.

Abbreviation resolveBean0 :=
  (resolveBean code implements AssignableTo parseSingletonTag Match rangeById rangeExports).
Abbreviation find0 :=
  (find code implements AssignableTo parseSingletonTag Match rangeById rangeExports).

Abbreviation Refresh0 :=
  (Refresh code implements AssignableTo parseSingletonTag Match rangeById rangeExports
     unit toAssembly stack path wireBean callConfiger sortTriple sortDestroyers).

(** A refresh of the application with the descriptors [0], [5] and [6]:
    it returns and the container ends Refreshed; [0] and [6] are Resolved
    and wired, and indexed under their type and under [Foo]; [5] is
    Deleted, out of the identity index, and not wired. *)
Example refresh_scenario :
  returned (Refresh0 3 c_new) = Some tt ∧
  state (after (Refresh0 3 c_new)) = Refreshed ∧
  status ∘ store (after (Refresh0 3 c_new)) <$> [0; 5; 6]%nat
    = [Resolved; Deleted; Resolved] ∧
  beansByType (after (Refresh0 3 c_new)) Foo = [0; 6]%nat ∧
  beansByType (after (Refresh0 3 c_new)) (PtrTo A_) = [0; 6]%nat ∧
  beansById (after (Refresh0 3 c_new)) !! "A:cond" = None ∧
  events (after (Refresh0 3 c_new))
    = [WireBean 6; WireBean 0; LogInfo "container refreshed successfully"].
Proof. split_and!; vm_compute; reflexivity. Qed.

Lemma keyed_container st bs ids :
  map_Forall (λ k b, ID (heap b) = k) ids → keyed (container st bs ids).
Proof. intros H k b Hk. by apply (H k b). Qed.

Lemma keyed_singleton st bs k b :
  ID (heap b) = k → keyed (container st bs {[k := b]}).
Proof. intros H. by apply keyed_container, map_Forall_singleton. Qed.

Lemma unindexed_container b st bs ids : unindexed b (container st bs ids).
Proof.
  split; intros; simpl; [|rewrite lookup_total_empty]; apply not_elem_of_nil.
Qed.

Lemma consistent_singleton st bs k b :
  ID (heap b) = k → status (heap b) ≠ Deleted → consistent (container st bs {[k := b]}).
Proof.
  intros Hk Hs. split.
  - by apply keyed_singleton.
  - intros k' b' H. simpl in H. by apply lookup_singleton_Some in H as [<- <-].
  - intros k' b' _ _. apply unindexed_container.
Qed.

Abbreviation c_cond_answered :=
  (after (Matches (find0 1) on_missing_a (enter 5 c_cond))).

(** The descriptor [5] is conditioned on the absence of a bean named "a".
    Evaluating its condition resolves the descriptor [0], which has that
    name; the condition answers false and [5] is deleted. *)
Lemma C1_witness :
  resolveBean0 2 5%nat c_cond = Return None (removed 5 c_cond_answered) ∧
  status (store c_cond_answered 0%nat) = Resolved ∧
  status (store (removed 5 c_cond_answered) 5%nat) = Deleted.
Proof.
  split; [|split].
  - refine (proj1 (C1_false_condition_deletes code implements AssignableTo parseSingletonTag
                     Match rangeById rangeExports unit wireBean 1 5%nat c_cond on_missing_a
                     c_cond_answered _ _ _ _ _)).
    + apply keyed_container, map_Forall_insert_2; [reflexivity|].
      by apply map_Forall_singleton.
    + reflexivity.
    + apply unindexed_container.
    + reflexivity.
    + vm_compute. reflexivity.
  - vm_compute. reflexivity.
  - vm_compute. reflexivity.
Defined.

(** Resolving the descriptor [0] takes it from Default to Resolved. *)
Lemma C2_witness :
  advances Default (status (store (after (resolveBean0 1 0%nat c_plain)) 0%nat)).
Proof.
  refine (proj1 (proj2 (proj1 (C2_status_advances_and_reentry_is_noop code implements
                                 AssignableTo parseSingletonTag Match rangeById rangeExports _)
                          1%nat 0%nat c_plain "A:a" None
                          (after (resolveBean0 1 0%nat c_plain)) _ _ _) 0%nat)).
  - simpl. lia.
  - by apply consistent_singleton.
  - reflexivity.
  - vm_compute. reflexivity.
Defined.

(** Registering [0] and [3], which have the same identity, is fatal. *)
Lemma C3_witness :
  ∃ i j x y, conflict c_twice i j x y ∧
    registerBeans c_twice =
      Panicked ("found duplicate beans [" +:+ Description (store c_twice y) +:+ "] ["
                +:+ Description (store c_twice x) +:+ "]").
Proof.
  refine (proj1 (C3_duplicate_identity_is_fatal c_twice eq_refl) _).
  exists 0%nat, 1%nat, 0%nat, 3%nat. split_and!; [lia|reflexivity..].
Defined.

Lemma at_exports_bad :
  at_exports code implements AssignableTo parseSingletonTag Match rangeById rangeExports
    0 2%nat c_bad (enter 2 c_bad) (indexed_under 2 (enter 2 c_bad) (PtrTo A_)).
Proof. split; vm_compute; reflexivity. Qed.

(** The descriptor [2] declares [Bar], which its type does not implement:
    its resolution fails with an error that names it and [Bar]. *)
Lemma C4_witness :
  ∃ t c', t ∈ exports (store (indexed_under 2 (enter 2 c_bad) (PtrTo A_)) 2%nat) ∧
    implements (Type' (store c_bad 2%nat)) t = false ∧
    resolveBean0 1 2%nat c_bad =
      Return (Some (Description (store c_bad 2%nat) +:+ " not implement " +:+ String_ t
                    +:+ " interface")) c'.
Proof.
  refine (proj1 (C4_unimplemented_export_is_an_error code implements AssignableTo
                   parseSingletonTag Match rangeById rangeExports 0 2%nat c_bad _ _ _
                   at_exports_bad _) _).
  - intros l t. reflexivity.
  - repeat constructor.
  - exists Bar. split; [|reflexivity]. simpl. apply elem_of_cons. by left.
Defined.

(** As first stated, C4 fails on two accounts.  The descriptor [1]
    declares [Bar], which its type does not implement, and its resolution
    returns no error, its condition having deleted it.  The descriptor
    [2] declares [Foo], which its type implements, and is not indexed
    under [Foo], the loop having stopped at [Bar]. *)
Lemma C4_counterexample :
  (Bar ∈ exports (store c_off 1%nat) ∧
   implements (Type' (store c_off 1%nat)) Bar = false ∧
   returned (resolveBean0 1 1%nat c_off) = Some None) ∧
  (Foo ∈ exports (store c_bad 2%nat) ∧
   implements (Type' (store c_bad 2%nat)) Foo = true ∧
   returned (resolveBean0 1 2%nat c_bad) = Some (Some "bean bad not implement Bar interface") ∧
   beansByType (after (resolveBean0 1 2%nat c_bad)) Foo = []).
Proof.
  split; split_and!.
  - simpl. apply elem_of_cons. by left.
  - reflexivity.
  - vm_compute. reflexivity.
  - simpl. apply elem_of_cons. right. apply elem_of_cons. by left.
  - reflexivity.
  - vm_compute. reflexivity.
  - vm_compute. reflexivity.
Qed.

Lemma embedded_B_A : embedded_in B_ A_.
Proof.
  eexists _, _, _. split; [reflexivity|]. split; [apply elem_of_cons; by left|].
  split_and!; reflexivity.
Qed.

Lemma embedded_C_B : embedded_in C_ B_.
Proof.
  eexists _, _, _. split; [reflexivity|]. split; [apply elem_of_cons; by left|].
  split_and!; reflexivity.
Qed.

Lemma exports_field_C : exports_field C_ Foo.
Proof.
  eexists _, _, _. split; [reflexivity|]. split; [apply elem_of_cons; by left|].
  split; reflexivity.
Qed.

(** Auto-export over [A], which embeds [B], which embeds [C], surfaces
    [Foo]; over [Injected], whose embedded field is tagged [inject], it
    exports nothing. *)
Lemma C5_witness :
  Foo ∈ exports (store (after (autoExport A_ 0%nat c_plain)) 0%nat) ∧
  autoExport Injected 0%nat c_plain = Return None c_plain.
Proof.
  split.
  - refine (proj1 (C5_auto_export_through_embedding 0%nat) A_ B_ C_ Foo c_plain
              (after (autoExport A_ 0%nat c_plain))
              embedded_B_A embedded_C_B exports_field_C _).
    vm_compute. reflexivity.
  - refine (eq_trans (proj2 (proj2 (C5_auto_export_through_embedding 0%nat)) "Injected" []
                        (mkField "B" (PtrTo B_) [("inject", "")] true) [] c_plain
                        eq_refl (or_introl eq_refl)) _).
    reflexivity.
Defined.

(** Once refreshing, the container refuses a registration. *)
Lemma C6_witness :
  Register 0%nat c_plain = Panicked "should call before Refreshing".
Proof.
  refine (proj1 (proj2 (proj2 (proj1 (C6_phase_gating code implements AssignableTo
            parseSingletonTag Match rangeById rangeExports unit toAssembly stack path wireBean
            callConfiger sortTriple sortDestroyers unit loadProperties NewBean IsFuncType
            ReturnNothing ReturnOnlyError Bind c_plain) _))) 0%nat).
  simpl. discriminate.
Defined.

(** Of the destroyers [0], [1], [2], the second fails: it is logged, and
    the third runs all the same. *)
Lemma C7_witness :
  teardown unit run [0%nat; 1%nat; 2%nat] tt =
    teardown unit run [0%nat] tt ++ Run 1 :: LogError "destroy failed" ::
      teardown unit run [2%nat] (assembly_after unit run ([0%nat] ++ [1%nat]) tt) ∧
  runs (teardown unit run [2%nat] (assembly_after unit run ([0%nat] ++ [1%nat]) tt))
    = [2%nat].
Proof.
  destruct (C7_destroyers_run_in_order_despite_failures unit run tt
              (closing Refreshed [0%nat; 1%nat; 2%nat])) as (c' & _ & _ & _ & H).
  exact (H [0%nat] 1%nat [2%nat] "destroy failed" eq_refl eq_refl).
Defined.

(** Before refresh, closing the container is fatal.  Once refreshed,
    with a task still counted, [Close] cancels and blocks: of the two
    destroyers none has run. *)
Lemma C8_witness :
  Close unit toAssembly run (closing Unrefreshed [0%nat; 1%nat])
    = Panicked "should call after Refreshing" ∧
  Close unit toAssembly run (set_wg 1 (closing Refreshed [0%nat; 1%nat]))
    = Blocked (set_ctx true (set_events ([] ++ [Cancel])
                               (set_wg 1 (closing Refreshed [0%nat; 1%nat])))) ∧
  runs ([] ++ [Cancel]) = runs [].
Proof.
  split.
  - refine (proj1 (C8_close_cancels_waits_then_destroys unit toAssembly run
                     (closing Unrefreshed [0%nat; 1%nat])) _).
    reflexivity.
  - refine (proj1 (proj2 (C8_close_cancels_waits_then_destroys unit toAssembly run
                            (set_wg 1 (closing Refreshed [0%nat; 1%nat])))) _ _).
    + discriminate.
    + discriminate.
Defined.

(** As first stated, C8 fails: a container that is Refreshing, not yet
    Refreshed, accepts [Close]. *)
Lemma C8_counterexample :
  state (closing Refreshing []) ≠ Refreshed ∧
  returned (Close unit toAssembly run (closing Refreshing [])) = Some tt ∧
  events (after (Close unit toAssembly run (closing Refreshing [])))
    = [Cancel; Wait; LogInfo "goroutines exited"; LogInfo "container closed"].
Proof. split; [discriminate|]. split; vm_compute; reflexivity. Qed.

(** The Resolved descriptor [4] does not export [Foo], to which its type
    is assignable: a lookup of [Foo] does not return it. *)
Lemma C9_witness :
  AssignableTo (Type' (store c_done 4%nat)) Foo = true ∧
  returned (find0 1 (ValueOf (PtrTo Foo)) c_done) = Some ([], None) ∧
  4%nat ∉ from_option fst [] (returned (find0 1 (ValueOf (PtrTo Foo)) c_done)).
Proof.
  split; [reflexivity|]. split; [vm_compute; reflexivity|].
  refine (proj2 (C9_interface_selector_needs_export code implements AssignableTo
                   parseSingletonTag Match rangeById rangeExports 1 (ValueOf (PtrTo Foo))
                   Foo c_done
                   (from_option fst [] (returned (find0 1 (ValueOf (PtrTo Foo)) c_done)))
                   None
                   (after (find0 1 (ValueOf (PtrTo Foo)) c_done)) _ _ _) 4%nat _ _ _).
  - reflexivity.
  - reflexivity.
  - vm_compute. reflexivity.
  - simpl. lia.
  - reflexivity.
  - simpl. apply not_elem_of_nil.
Defined.

(** The failed resolution of [2] leaves it at Resolving, registered and
    indexed under its type. *)
Lemma C10_witness :
  ∃ c', resolveBean0 1 2%nat c_bad = Return (Some (not_implement (store c_bad 2%nat) Bar)) c' ∧
    status (store c' 2%nat) = Resolving ∧
    (∀ k, beansById c_bad !! k = Some 2%nat → beansById c' !! k = Some 2%nat) ∧
    2%nat ∈ beansByType c' (Type' (store c_bad 2%nat)).
Proof.
  destruct (C10_failed_resolution_is_not_rolled_back code implements AssignableTo
              parseSingletonTag Match rangeById rangeExports 0 2%nat c_bad _ _ [] Bar [Foo]
              (keyed_singleton Refreshing [2%nat] "A:bad" 2%nat eq_refl)
              (proj2 (unindexed_container 2%nat Refreshing [2%nat] _))
              at_exports_bad eq_refl (Forall_nil _) eq_refl eq_refl)
    as (c' & H1 & H2 & H3 & H4 & _).
  exists c'. split_and!; assumption.
Defined.


(** ** The further statements on the small application *)

Abbreviation resolveBeans0 :=
  (resolveBeans code implements AssignableTo parseSingletonTag Match rangeById rangeExports).
Abbreviation resolveConfigers0 :=
  (resolveConfigers code implements AssignableTo parseSingletonTag Match rangeById
     rangeExports sortTriple).
Abbreviation Close0 := (Close unit toAssembly run).

Lemma rangeById_complete (m : gmap string nat) k : is_Some (m !! k) → k ∈ rangeById m.
Proof.
  intros [b Hb]. unfold rangeById. apply list_elem_of_fmap. exists (k, b).
  split; [done|]. by apply elem_of_map_to_list.
Qed.

Lemma rangeById_NoDup (m : gmap string nat) : NoDup (rangeById m).
Proof. apply NoDup_fst_map_to_list. Qed.

Lemma consistent_container st bs ids :
  map_Forall (λ k b, ID (heap b) = k ∧ status (heap b) ≠ Deleted) ids →
  consistent (container st bs ids).
Proof.
  intros H. split.
  - intros k b Hk. by apply (H k b).
  - intros k b Hk. by apply (H k b).
  - intros k b _ _. apply unindexed_container.
Qed.

Lemma consistent_c_cond : consistent c_cond.
Proof.
  apply consistent_container, map_Forall_insert_2; [done|].
  by apply map_Forall_singleton.
Qed.

Lemma Match_by_name_and_type d d' tn bn :
  name d = name d' → Type' d = Type' d' → Match d tn bn = Match d' tn bn.
Proof. unfold Match. by intros -> ->. Qed.

(** The resolution of [5], which resolves [0] on the way and deletes
    [5], leaves the rest of the container alone. *)
Lemma frame_witness :
  untouched c_cond (after (resolveBean0 2 5%nat c_cond)) ∧
  stable c_cond (after (resolveBean0 2 5%nat c_cond)).
Proof.
  refine (proj1 (resolution_writes_only_descriptors_and_indices code implements AssignableTo
                   parseSingletonTag Match rangeById rangeExports 2 c_cond
                   (after (resolveBean0 2 5%nat c_cond))) 5%nat None _).
  vm_compute. reflexivity.
Defined.

(** Once [4] is Resolved, a lookup by its type returns it and leaves the
    container as it is. *)
Lemma find_on_resolved_witness :
  find0 1 (ValueOf (PtrTo A_)) c_done = Return ([4%nat], None) c_done.
Proof.
  refine (eq_trans (find_on_resolved_container_is_exact code implements AssignableTo
                      parseSingletonTag Match rangeById rangeExports 0
                      (ValueOf (PtrTo A_)) c_done _ _ _ _) _).
  - simpl. lia.
  - discriminate.
  - discriminate.
  - intros k b H. simpl in H. apply lookup_singleton_Some in H as [_ <-]. reflexivity.
  - vm_compute. reflexivity.
Defined.

(** The descriptor [0], Resolved by the resolution of [5], stays in the
    identity index. *)
Lemma only_deleted_leave_witness :
  beansById (after (resolveBean0 2 5%nat c_cond)) !! "A:a" = Some 0%nat.
Proof.
  refine (proj1 (only_deleted_descriptors_leave_the_identity_index code implements
                   AssignableTo parseSingletonTag Match rangeById rangeExports 2 c_cond
                   (after (resolveBean0 2 5%nat c_cond)) "A:a" 0%nat _ consistent_c_cond _ _)
            "A:cond" 5%nat None _ _).
  - simpl. lia.
  - reflexivity.
  - vm_compute. discriminate.
  - reflexivity.
  - vm_compute. reflexivity.
Defined.

(** A lookup of the name "a" returns [0], Resolved and registered. *)
Lemma find_returns_resolved_witness :
  status (store (after (find0 1 (StringValue "a") c_plain)) 0%nat) = Resolved ∧
  (∃ k, beansById (after (find0 1 (StringValue "a") c_plain)) !! k = Some 0%nat) ∧
  selects AssignableTo parseSingletonTag Match (StringValue "a")
    (store (after (find0 1 (StringValue "a") c_plain)) 0%nat) = true.
Proof.
  destruct (find_returns_resolved_registered_matches code implements AssignableTo
              parseSingletonTag Match rangeById rangeExports 1 (StringValue "a") c_plain
              [0%nat] None (after (find0 1 (StringValue "a") c_plain))) with (q := 0%nat)
    as (H1 & H2 & H3).
  - simpl. lia.
  - simpl. lia.
  - by apply consistent_singleton.
  - vm_compute. reflexivity.
  - apply elem_of_cons. by left.
  - split; [exact H1|]. split; [exact H2|]. apply H3, Match_by_name_and_type.
Defined.

(** While [0] is at Resolving, a lookup of its name does not return it. *)
Lemma find_skips_witness :
  store (after (find0 1 (StringValue "a") c_entered)) 0%nat = store c_entered 0%nat ∧
  0%nat ∉ from_option fst [] (returned (find0 1 (StringValue "a") c_entered)).
Proof.
  refine (find_skips_descriptors_being_resolved code implements AssignableTo
            parseSingletonTag Match rangeById rangeExports 1 (StringValue "a") c_entered
            (from_option fst [] (returned (find0 1 (StringValue "a") c_entered))) None
            (after (find0 1 (StringValue "a") c_entered)) 0%nat _ _).
  - reflexivity.
  - vm_compute. reflexivity.
Defined.

(** The Resolved descriptor [4] is among the descriptors a lookup by
    its type returns. *)
Lemma find_complete_witness :
  4%nat ∈ from_option fst [] (returned (find0 1 (ValueOf (PtrTo A_)) c_done)).
Proof.
  refine (find_returns_every_resolved_match code implements AssignableTo
            parseSingletonTag Match rangeById rangeExports 1 (ValueOf (PtrTo A_)) c_done
            (from_option fst [] (returned (find0 1 (ValueOf (PtrTo A_)) c_done)))
            (after (find0 1 (ValueOf (PtrTo A_)) c_done)) _ rangeById_complete
            (keyed_singleton Refreshing [4%nat] "A:done" 4%nat eq_refl) _
            "A:done" 4%nat _ _ _).
  - simpl. lia.
  - vm_compute. reflexivity.
  - reflexivity.
  - reflexivity.
  - reflexivity.
Defined.

(** A lookup by type in the container of [0] and [5] returns no
    descriptor twice. *)
Lemma find_NoDup_witness :
  NoDup (from_option fst [] (returned (find0 2 (ValueOf (PtrTo A_)) c_cond))).
Proof.
  refine (find_returns_no_descriptor_twice code implements AssignableTo
            parseSingletonTag Match rangeById rangeExports 2 (ValueOf (PtrTo A_)) c_cond
            (from_option fst [] (returned (find0 2 (ValueOf (PtrTo A_)) c_cond))) None
            (after (find0 2 (ValueOf (PtrTo A_)) c_cond))
            (consistent_keyed _ consistent_c_cond) (rangeById_NoDup _) _).
  vm_compute. reflexivity.
Defined.

(** Auto-export over the struct [A] returns nil, having added the
    interface [Foo] and nothing else; on the interface [Foo] it panics. *)
Lemma autoExport_outcomes_witness :
  (Kind_ A_ = Struct ∧
   exports_only 0%nat c_plain (after (autoExport A_ 0%nat c_plain)) ∧
   (∀ u, u ∈ exports (store (after (autoExport A_ 0%nat c_plain)) 0%nat) →
      u ∈ exports (store c_plain 0%nat) ∨ Kind_ u = Interface) ∧
   (@None string = None ∨ None = Some "export can only use on interface" ∨
    None = Some "inject or autowire can't use with export")) ∧
  autoExport Foo 0%nat c_plain = Panicked "reflect: NumField of non-struct type Foo".
Proof.
  split.
  - refine (proj1 (autoExport_returns_on_structs_only A_ 0%nat c_plain) None
              (after (autoExport A_ 0%nat c_plain)) _).
    vm_compute. reflexivity.
  - refine (proj2 (autoExport_returns_on_structs_only Foo 0%nat c_plain) _). discriminate.
Defined.

(** After a field that exports [Foo], a field of type [int] tagged for
    export, and a field tagged both for export and for injection, are
    rejected; [Foo] stays exported. *)
Lemma autoExport_rejects_witness :
  autoExport (StructOf "D" ([exported_Foo] ++ [exported_int])) 0%nat c_plain =
    Return (Some "export can only use on interface")
           (after (autoExport (StructOf "D" [exported_Foo]) 0%nat c_plain)) ∧
  autoExport (StructOf "D" ([exported_Foo] ++ [exported_injected])) 0%nat c_plain =
    Return (Some "inject or autowire can't use with export")
           (after (autoExport (StructOf "D" [exported_Foo]) 0%nat c_plain)) ∧
  exports (store (after (autoExport (StructOf "D" [exported_Foo]) 0%nat c_plain)) 0%nat)
    = [Foo].
Proof.
  split; [|split].
  - refine (proj1 (autoExport_rejects_a_field "D" [exported_Foo] exported_int [] 0%nat c_plain
                     (after (autoExport (StructOf "D" [exported_Foo]) 0%nat c_plain)) _) _ _).
    + vm_compute. reflexivity.
    + reflexivity.
    + discriminate.
  - refine (proj1 (proj2 (autoExport_rejects_a_field "D" [exported_Foo] exported_injected []
                            0%nat c_plain
                            (after (autoExport (StructOf "D" [exported_Foo]) 0%nat c_plain))
                            _)) _ _ _).
    + vm_compute. reflexivity.
    + reflexivity.
    + reflexivity.
    + left. reflexivity.
  - vm_compute. reflexivity.
Defined.

(** The resolution of [2] returns the error for [Bar], and leaves [2] at
    Resolving, indexed under its type. *)
Lemma resolveBean_error_witness :
  resolution_error implements (store c_bad 2%nat) "bean bad not implement Bar interface" ∧
  (code (status (store c_bad 2%nat)) < code Resolving)%Z ∧
  status (store (after (resolveBean0 1 2%nat c_bad)) 2%nat) = Resolving ∧
  2%nat ∈ beansByType (after (resolveBean0 1 2%nat c_bad)) (Type' (store c_bad 2%nat)) ∧
  (∀ n, 2%nat ∈ beansByName (after (resolveBean0 1 2%nat c_bad)) !!! n →
        2%nat ∈ beansByName c_bad !!! n).
Proof.
  refine (resolveBean_returns_one_of_three_errors code implements AssignableTo
            parseSingletonTag Match rangeById rangeExports 1 2%nat c_bad
            "bean bad not implement Bar interface"
            (after (resolveBean0 1 2%nat c_bad)) _).
  vm_compute. reflexivity.
Defined.

(** The resolution of [0] returns nil and leaves it Resolved, registered
    and indexed under [Foo], which auto-export has collected. *)
Lemma resolveBean_nil_witness :
  status (store (after (resolveBean0 1 0%nat c_plain)) 0%nat) = Resolved ∧
  beansById (after (resolveBean0 1 0%nat c_plain)) !! "A:a" = Some 0%nat ∧
  0%nat ∈ beansByType (after (resolveBean0 1 0%nat c_plain)) Foo.
Proof.
  destruct (resolveBean_nil_means_deleted_or_fully_indexed code implements AssignableTo
              parseSingletonTag Match rangeById rangeExports 1 0%nat c_plain "A:a"
              (after (resolveBean0 1 0%nat c_plain))) as [(H & _)|(H1 & H2 & _ & _ & H3)].
  - by apply keyed_singleton.
  - reflexivity.
  - reflexivity.
  - simpl. lia.
  - vm_compute. reflexivity.
  - exfalso. revert H. vm_compute. discriminate.
  - split; [exact H1|]. split; [exact H2|]. apply H3.
    vm_compute. apply elem_of_cons. by left.
Defined.


(** Before refresh, a third registration comes after the two there
    are. *)
Lemma Register_witness :
  Register 5%nat c_twice = Return 5%nat (set_beans [0%nat; 3%nat; 5%nat] c_twice).
Proof.
  refine (proj1 (Register_keeps_the_order_of_registration unit NewBean c_twice _) 5%nat).
  reflexivity.
Defined.

(** [Config] registers a function of the application; it refuses a
    value that is not a function. *)
Lemma Config_witness :
  Config unit IsFuncType ReturnNothing ReturnOnlyError Bind tt [] c_twice =
    Return (mkConfiger 0 None) (set_configers [mkConfiger 0 None] c_twice) ∧
  Config unit (λ _, false) ReturnNothing ReturnOnlyError Bind tt [] c_twice = Panicked "xxx".
Proof.
  split.
  - refine (proj2 (proj2 (Config_checks_the_function unit IsFuncType ReturnNothing
                            ReturnOnlyError Bind tt [] c_twice _)) _ _).
    + reflexivity.
    + reflexivity.
    + left. reflexivity.
  - refine (proj1 (Config_checks_the_function unit (λ _, false) ReturnNothing
                     ReturnOnlyError Bind tt [] c_twice _) _).
    + reflexivity.
    + reflexivity.
Defined.

(** Of the two configuration functions, the one without a condition is
    kept, and the one whose condition does not hold, evaluated after the
    first was kept, is not. *)
Lemma resolveConfigers_witness :
  ∃ oks, length oks = 2%nat ∧
    configerList (after (resolveConfigers0 1 c_configs))
      = sortTriple ([] ++ answered_true (configers c_configs) oks) ∧
    (∀ ok, oks !! 1%nat = Some ok →
       ∃ c1 c2,
         resolveConfigers_loop code implements AssignableTo parseSingletonTag Match rangeById
           rangeExports 1 [mkConfiger 0 None] c_configs = Return tt c1 ∧
         keeps code implements AssignableTo parseSingletonTag Match rangeById rangeExports 1
           (mkConfiger 1 (Some (Answer false))) c1 = Return ok c2) ∧
    configerList (after (resolveConfigers0 1 c_configs)) = [mkConfiger 0 None].
Proof.
  destruct (resolveConfigers_keeps_unconditional_and_matching code implements AssignableTo
              parseSingletonTag Match rangeById rangeExports sortTriple 1 c_configs
              (after (resolveConfigers0 1 c_configs))) as (oks & H1 & H2 & H3 & _).
  - vm_compute. reflexivity.
  - exists oks. split; [exact H1|]. split; [exact H2|]. split.
    + intros ok Hok.
      destruct (H3 1%nat (mkConfiger 1 (Some (Answer false))) ok eq_refl Hok)
        as (c1 & c2 & E1 & E2 & _).
      exists c1, c2. split; [exact E1|exact E2].
    + vm_compute. reflexivity.
Defined.


(** The refresh of the application: the events it leaves. *)
Lemma Refresh_trace_witness :
  state (after (Refresh0 3 c_new)) = Refreshed ∧
  destroyerList (after (Refresh0 3 c_new)) = [] ∧
  events (after (Refresh0 3 c_new)) =
    [] ++ (Call <$> configerList (after (Refresh0 3 c_new)))
       ++ (WireBean <$> ranged rangeById (after (Refresh0 3 c_new)))
       ++ [LogInfo "container refreshed successfully"].
Proof.
  destruct (Refresh_calls_the_configers_then_wires code implements AssignableTo
              parseSingletonTag Match rangeById rangeExports unit toAssembly stack path
              wireBean callConfiger sortTriple sortDestroyers 3 c_new
              (after (Refresh0 3 c_new))) as (c3 & H).
  - vm_compute. reflexivity.
  - cbn zeta in H. destruct H as (_ & _ & H1 & _ & _ & _ & _ & _ & _ & H2 & H3 & _).
    split; [exact H1|]. split; [exact H2|]. exact H3.
Defined.

(** With fuel for its three registrations, the refresh of the
    application comes to an end. *)
Lemma Refresh_terminates_witness : terminates (Refresh0 4 c_new).
Proof.
  refine (Refresh_comes_to_an_end code implements AssignableTo parseSingletonTag Match
            rangeById rangeExports unit toAssembly stack path wireBean callConfiger
            sortTriple sortDestroyers 4 c_new _ _ _).
  - intros b _ q c1. apply autoExport_terminates.
  - reflexivity.
  - simpl. lia.
Defined.

(** Closing twice runs the three destroyers twice. *)
Lemma Close_again_witness :
  ∃ c1 c2, Close0 (closing Refreshed [0%nat; 1%nat; 2%nat]) = Return tt c1 ∧
    Close0 c1 = Return tt c2 ∧
    runs (events c2) = [0%nat; 1%nat; 2%nat] ++ [0%nat; 1%nat; 2%nat].
Proof.
  destruct (Close_runs_the_destroyers_again unit toAssembly run
              (closing Refreshed [0%nat; 1%nat; 2%nat]))
    as (c1 & c2 & [] & [] & H1 & H2 & _ & _ & _ & _ & _ & _ & H3 & _).
  - discriminate.
  - reflexivity.
  - exists c1, c2. split; [exact H1|]. split; [exact H2|]. rewrite H3. reflexivity.
Defined.


(** [Twice] exports [Foo] through a field of its own and through the
    embedded [C]: [Foo] is exported once, and a second auto-export changes
    nothing. *)
Lemma autoExport_twice_witness :
  exports (store (after (autoExport Twice 0%nat c_plain)) 0%nat) = [Foo] ∧
  autoExport Twice 0%nat (after (autoExport Twice 0%nat c_plain)) =
    Return None (after (autoExport Twice 0%nat c_plain)).
Proof.
  split; [vm_compute; reflexivity|].
  refine (proj1 (autoExport_twice_is_autoExport_once Twice 0%nat c_plain None
                   (after (autoExport Twice 0%nat c_plain)) _)).
  vm_compute. reflexivity.
Defined.

(** The refresh of the empty container. *)
Lemma Refresh_empty_witness :
  Refresh0 0 c_empty =
    Return tt (set_events [LogInfo "container refreshed successfully"]
                 (set_state Refreshed (set_destroyerList [] c_empty))).
Proof.
  refine (proj2 (Refresh_with_nothing_registered code implements AssignableTo
                   parseSingletonTag Match rangeById rangeExports unit toAssembly stack path
                   wireBean callConfiger sortTriple sortDestroyers unit NewBean tt Foo
                   0 c_empty _) _ _ _ _ _);
    reflexivity.
Defined.

(** The refresh of the container in which [0] and [3] have one identity
    panics for that reason: [registerBeans] panics. *)
Lemma Refresh_panics_witness :
  registerBeans (set_state Refreshing c_twice)
    = Panicked "found duplicate beans [bean again] [bean a]" ∧
  ∃ b d, b ∈ beans c_twice ∧ (d ∈ beans c_twice ∨ ∃ k, beansById c_twice !! k = Some d) ∧
    "found duplicate beans [bean again] [bean a]" = duplicate_beans c_twice b d.
Proof.
  destruct (Refresh_panics_for_one_of_six_reasons code implements AssignableTo
              parseSingletonTag Match rangeById rangeExports unit toAssembly stack path
              wireBean callConfiger sortTriple sortDestroyers 1 c_twice
              "found duplicate beans [bean again] [bean a]")
    as [[H _]|[_ [H|(c1 & H & _)]]].
  - vm_compute. reflexivity.
  - exfalso. apply H. reflexivity.
  - exact H.
  - exfalso. revert H. vm_compute. discriminate.
Defined.

(** A lookup by type in the container of [2] returns the error of the
    resolution of [2], and no descriptor. *)
Lemma find_error_witness :
  from_option fst [0%nat] (returned (find0 1 (ValueOf (PtrTo A_)) c_bad)) = [] ∧
  ∃ k q, beansById c_bad !! k = Some q ∧ status (store c_bad q) ≠ Resolving ∧
    resolution_error implements (store c_bad q) "bean bad not implement Bar interface" ∧
    status (store (after (find0 1 (ValueOf (PtrTo A_)) c_bad)) q) = Resolving.
Proof.
  refine (find_error_is_that_of_a_resolution code implements AssignableTo
            parseSingletonTag Match rangeById rangeExports 1 (ValueOf (PtrTo A_)) c_bad
            (from_option fst [0%nat] (returned (find0 1 (ValueOf (PtrTo A_)) c_bad)))
            "bean bad not implement Bar interface"
            (after (find0 1 (ValueOf (PtrTo A_)) c_bad)) _).
  vm_compute. reflexivity.
Defined.

Abbreviation c_registered := (after (registerBeans c_new)).

(** The identity index of the application holds its three
    registrations. *)
Lemma registerBeans_witness :
  c_registered = set_beansById (beansById c_registered) c_new ∧
  keyed c_registered ∧
  size (beansById c_registered) = 3%nat ∧
  ∀ k b, beansById c_registered !! k = Some b → b ∈ [0%nat; 5%nat; 6%nat].
Proof.
  refine (registerBeans_indexes_the_registrations_only c_new c_registered _ _).
  - reflexivity.
  - vm_compute. reflexivity.
Defined.
